(** * Maps: a cross-platform map screen (Expo / React Native)

    Shallow embedding of the three TypeScript sources of the repository:
    the screen ([PlatformMap], [HomeScreen]), the web implementation of
    [Maps] (Google Maps JavaScript API, loaded by script injection) and the
    native implementation of [Maps] (react-native-maps and expo-location).

    React is modelled operationally.  A mounted component is a record of its
    hook state ([useState]), its reference cells ([useRef]), the bookkeeping
    React keeps for it (the dependency values every effect last ran with, the
    cleanup closure it registered, the queue of pending state updates) and
    the part of the host page it talks to.  An event of the host (a
    geolocation callback, the load event of a script, new props from the
    parent, unmounting) runs the handler the component registered, then
    React renders again and runs the effects whose dependencies changed.

    Numbers.  JavaScript numbers are IEEE doubles.  Every coordinate and
    delta is only stored, compared with [Object.is] and passed on: it is a
    [Number], the value the double holds.  The one arithmetic expression of
    the program, the zoom level, follows IEEE arithmetic where its result
    is infinite or not a number; a finite result is the real number the
    expression denotes, which the double the program holds approximates
    (rounding is not modelled, and no statement depends on it). *)

From Stdlib Require Import QArith Qreals Reals Lra Lia.
From Stdlib Require Import ZArith Arith Bool String List.
Import ListNotations.

Local Open Scope string_scope.
Local Open Scope nat_scope.
Local Open Scope list_scope.

(** ** Values shared by the three files *)

(** A JavaScript number, by the value the double holds: a finite double
    other than [-0] by its exact value, which is rational; [-0]; the two
    infinities; [NaN]. *)
Inductive Number : Type :=
| Finite (q : Q)
| NegativeZero
| PositiveInfinity
| NegativeInfinity
| NaN.

Coercion Finite : Q >-> Number.
Bind Scope Q_scope with Number.

(** [Region] of react-native-maps, also the shape of [initialRegion]. *)
Record Region : Type := mkRegion {
  latitude : Number;
  longitude : Number;
  latitudeDelta : Number;
  longitudeDelta : Number
}.

(** The literal that both implementations call [defaultRegion]. *)
Definition defaultRegion : Region := {|
  latitude := 37.78825;
  longitude := -122.4324;
  latitudeDelta := 0.0922;
  longitudeDelta := 0.0421
|}.

(** The three props interfaces of the repository ([PlatformMapProps],
    [WebMobileMapProps], [NativeMobileMapProps]) have the same two optional
    members; [None] is an omitted (undefined) prop. *)
Record MapProps : Type := {
  initialRegion : option Region;
  showUserLocation : option bool
}.

(** The destructuring default [showUserLocation = true] of both [Maps]. *)
Definition showUserLocation_or_default (p : MapProps) : bool :=
  match showUserLocation p with
  | Some b => b
  | None => true
  end.

(** JavaScript truthiness of a [string | null]: [null] and the empty string
    are falsy. *)
Definition truthy (m : option string) : bool :=
  match m with
  | None => false
  | Some msg => negb (String.eqb msg "")
  end.

(** [Object.is] on two numbers: [NaN] is itself, and [0] and [-0] are
    two numbers.  React compares the dependencies of an effect with it. *)
Definition same_number (a b : Number) : bool :=
  match a, b with
  | Finite x, Finite y => Qeq_bool x y
  | NegativeZero, NegativeZero => true
  | PositiveInfinity, PositiveInfinity => true
  | NegativeInfinity, NegativeInfinity => true
  | NaN, NaN => true
  | _, _ => false
  end.

(** The result of an arithmetic expression.  A finite result is the real
    number the expression denotes; the double the program holds is its
    rounding. *)
Inductive Computed : Type :=
| Real (x : R)
| Infinity (positive : bool)
| NotANumber.

(** A positive quotient too large for a double: it rounds to [Infinity]
    from the midpoint between the largest double, [2^1024 - 2^971], and
    [2^1024] on. *)
Definition overflows (x : Q) : bool :=
  Qle_bool (inject_Z (2 ^ 1024 - 2 ^ 970)) x.

(** [Math.log2], on a positive real. *)
Definition log2 (x : R) : R := (ln x / ln 2)%R.

(** [Math.log2(360 / d) - 2.5] for a finite [d > 0]. *)
Definition zoom_of_span (d : Q) : R := (log2 (360 / Q2R d) - 2.5)%R.

(** [Math.log2(360 / mapRegion.latitudeDelta) - 2.5].  [360 / d] is
    [Infinity] when [d] is [0] or so small that the quotient overflows,
    and so are its logarithm and the zoom; [360 / d] for a negative [d],
    [-0] included, is negative, and its logarithm is [NaN]; [360 / d] for
    an infinite [d] is a zero, whose logarithm is [-Infinity]. *)
Definition zoom (latitudeDelta : Number) : Computed :=
  match latitudeDelta with
  | Finite d =>
      if Qeq_bool d 0 then Infinity true
      else if Qle_bool d 0 then NotANumber
      else if overflows (360 / d) then Infinity true
      else Real (zoom_of_span d)
  | NegativeZero => NotANumber
  | PositiveInfinity | NegativeInfinity => Infinity false
  | NaN => NotANumber
  end.

(** The React elements the three files render. *)
Record LatLng : Type := mkLatLng { lat : Number; lng : Number }.

Inductive Platform : Type := ios | android.

Record MapViewProps : Type := {
  mv_provider_google : bool;
  mv_region : Region;
  mv_showsUserLocation : bool
}.

Record MarkerProps : Type := {
  mk_coordinate : LatLng;
  mk_title : string;
  mk_description : string;
  mk_tracksViewChanges : bool
}.

#[warnings="-register-all"]
Inductive Element : Type :=
| View (children : list Element)
| Text (content : string)
| Div
| MapView (p : MapViewProps) (children : list Element)
| Marker (p : MarkerProps).

(** How many elements of a rendered tree satisfy a test. *)
Fixpoint count_elements (f : Element -> bool) (e : Element) : nat :=
  (if f e then 1 else 0) +
  match e with
  | View cs | MapView _ cs =>
      (fix go (l : list Element) : nat :=
         match l with
         | [] => 0
         | c :: l' => count_elements f c + go l'
         end) cs
  | _ => 0
  end.

Definition is_text (e : Element) : bool :=
  match e with Text _ => true | _ => false end.
Definition is_map_surface (e : Element) : bool :=
  match e with Div | MapView _ _ => true | _ => false end.
Definition is_marker (e : Element) : bool :=
  match e with Marker _ => true | _ => false end.

(** ** The web implementation of [Maps] (Google Maps JavaScript API) *)
Module Web.

(** *** Objects of the host page *)

(** [GeolocationPosition]: the coordinates and the time of one reading. *)
Record GeolocationPosition : Type := {
  coords_latitude : Number;
  coords_longitude : Number;
  coords_accuracy : Number;
  timestamp : Z
}.

(** What [typeof navigator !== 'undefined'] and [navigator.geolocation]
    evaluate to in the host. *)
Inductive Navigator : Type :=
| NavigatorUndefined
| NavigatorWithoutGeolocation
| NavigatorWithGeolocation.

(** A [<script>] element; [script_id] is its identity as a DOM node. *)
Record ScriptElement : Type := {
  script_id : nat;
  script_src : string;
  script_async : bool;
  script_defer : bool
}.

(** An object built by [new google.maps.Map(container, mapOptions)].  The
    option fields that are constants of the source (map type and the six
    controls) are left out. *)
Record GoogleMap : Type := {
  map_center : LatLng;
  map_zoom : Computed
}.

(** An object built by [new google.maps.Marker(...)]; [marker_map] is the
    handle of the map it is attached to, [None] after [setMap(null)]. *)
Record GoogleMarker : Type := {
  marker_position : LatLng;
  marker_map : option nat;
  marker_title : string;
  marker_click_listener : bool
}.

(** Calls into the host that leave no object behind. *)
Inductive Call : Type :=
| GetCurrentPosition
| AppendChild (el : ScriptElement)
| RemoveChild (el : ScriptElement)
| ConsoleError (msg : string).

Record Page : Type := {
  google_maps : bool;                (* window.google?.maps is truthy *)
  navigator : Navigator;
  GOOGLE_MAPS_API_KEY : string;
  head : list ScriptElement;         (* script children of document.head *)
  loading : list nat;                (* script nodes whose fetch is in flight *)
  geo_pending : nat;                 (* getCurrentPosition calls not yet answered *)
  maps : list GoogleMap;             (* every Map object built, oldest first *)
  markers : list GoogleMarker;       (* every Marker object built, oldest first *)
  calls : list Call                  (* newest first *)
}.

(** *** The component *)

Definition WebMobileMapProps : Type := MapProps.

(** [useState]: [position], [errorMsg], [mapLoaded].  A position reading is
    an object, and React compares dependencies with [Object.is], so the state
    also carries [position_identity], which changes with every object passed
    to [setPosition]. *)
Record Hooks : Type := {
  position : option GeolocationPosition;
  position_identity : nat;
  errorMsg : option string;
  mapLoaded : bool
}.

(** [useRef]: [mapRef.current] is the container [<div>] or [null];
    the other two hold handles into [maps] and [markers]. *)
Record Refs : Type := {
  mapRef : bool;
  googleMapRef : option nat;
  userMarkerRef : option nat
}.

Inductive Update : Type :=
| SetPosition (p : GeolocationPosition)
| SetErrorMsg (msg : string)
| SetMapLoaded (b : bool).

(** What React remembers about the mounted component. *)
Record Fiber : Type := {
  mounted : bool;
  queue : list Update;                     (* oldest first *)
  deps_location : bool;                    (* [showUserLocation] *)
  deps_init : bool * (Number * Number * Number);          (* [mapLoaded, latitude, longitude, latitudeDelta] *)
  deps_marker : nat * bool * bool;         (* [position, showUserLocation, mapLoaded] *)
  script_cleanup : option ScriptElement    (* the script captured by the cleanup closure *)
}.

Record State : Type := {
  props : WebMobileMapProps;
  hooks : Hooks;
  refs : Refs;
  fiber : Fiber;
  page : Page
}.

Definition with_hooks (h : Hooks) (s : State) : State :=
  {| props := props s; hooks := h; refs := refs s; fiber := fiber s; page := page s |}.
Definition with_refs (r : Refs) (s : State) : State :=
  {| props := props s; hooks := hooks s; refs := r; fiber := fiber s; page := page s |}.
Definition with_fiber (f : Fiber) (s : State) : State :=
  {| props := props s; hooks := hooks s; refs := refs s; fiber := f; page := page s |}.
Definition with_page (p : Page) (s : State) : State :=
  {| props := props s; hooks := hooks s; refs := refs s; fiber := fiber s; page := p |}.
Definition with_props (p : WebMobileMapProps) (s : State) : State :=
  {| props := p; hooks := hooks s; refs := refs s; fiber := fiber s; page := page s |}.

(** A [setState] call made during an effect or a callback is queued. *)
Definition enqueue (u : Update) (s : State) : State :=
  let f := fiber s in
  with_fiber {| mounted := mounted f; queue := queue f ++ [u];
                deps_location := deps_location f; deps_init := deps_init f;
                deps_marker := deps_marker f;
                script_cleanup := script_cleanup f |} s.

Definition log_call (c : Call) (p : Page) : Page :=
  {| google_maps := google_maps p; navigator := navigator p;
     GOOGLE_MAPS_API_KEY := GOOGLE_MAPS_API_KEY p; head := head p;
     loading := loading p; geo_pending := geo_pending p; maps := maps p;
     markers := markers p; calls := c :: calls p |}.

(** [const mapRegion = position ? {...} : (initialRegion || defaultRegion)] *)
Definition mapRegion (p : WebMobileMapProps) (h : Hooks) : Region :=
  match position h with
  | Some pos => {| latitude := coords_latitude pos;
                   longitude := coords_longitude pos;
                   latitudeDelta := 0.0922;
                   longitudeDelta := 0.0421 |}
  | None => match initialRegion p with
            | Some r => r
            | None => defaultRegion
            end
  end.

(** The JSX the component returns. *)
Definition render (s : State) : Element :=
  View [ if truthy (errorMsg (hooks s))
         then Text (match errorMsg (hooks s) with Some m => m | None => "" end)
         else Div ].

(** *** Host operations *)

Definition with_google_maps (b : bool) (p : Page) : Page :=
  {| google_maps := b; navigator := navigator p;
     GOOGLE_MAPS_API_KEY := GOOGLE_MAPS_API_KEY p; head := head p;
     loading := loading p; geo_pending := geo_pending p; maps := maps p;
     markers := markers p; calls := calls p |}.
Definition with_head (h : list ScriptElement) (p : Page) : Page :=
  {| google_maps := google_maps p; navigator := navigator p;
     GOOGLE_MAPS_API_KEY := GOOGLE_MAPS_API_KEY p; head := h;
     loading := loading p; geo_pending := geo_pending p; maps := maps p;
     markers := markers p; calls := calls p |}.
Definition with_loading (l : list nat) (p : Page) : Page :=
  {| google_maps := google_maps p; navigator := navigator p;
     GOOGLE_MAPS_API_KEY := GOOGLE_MAPS_API_KEY p; head := head p;
     loading := l; geo_pending := geo_pending p; maps := maps p;
     markers := markers p; calls := calls p |}.
Definition with_geo_pending (n : nat) (p : Page) : Page :=
  {| google_maps := google_maps p; navigator := navigator p;
     GOOGLE_MAPS_API_KEY := GOOGLE_MAPS_API_KEY p; head := head p;
     loading := loading p; geo_pending := n; maps := maps p;
     markers := markers p; calls := calls p |}.
Definition with_maps (l : list GoogleMap) (p : Page) : Page :=
  {| google_maps := google_maps p; navigator := navigator p;
     GOOGLE_MAPS_API_KEY := GOOGLE_MAPS_API_KEY p; head := head p;
     loading := loading p; geo_pending := geo_pending p; maps := l;
     markers := markers p; calls := calls p |}.
Definition with_markers (l : list GoogleMarker) (p : Page) : Page :=
  {| google_maps := google_maps p; navigator := navigator p;
     GOOGLE_MAPS_API_KEY := GOOGLE_MAPS_API_KEY p; head := head p;
     loading := loading p; geo_pending := geo_pending p; maps := maps p;
     markers := l; calls := calls p |}.

Definition navigator_defined (n : Navigator) : bool :=
  match n with NavigatorUndefined => false | _ => true end.
Definition navigator_geolocation (n : Navigator) : bool :=
  match n with NavigatorWithGeolocation => true | _ => false end.

(** [navigator.geolocation.getCurrentPosition(success, error, options)] *)
Definition getCurrentPosition (p : Page) : Page :=
  log_call GetCurrentPosition (with_geo_pending (S (geo_pending p)) p).

(** [document.createElement('script')]: a node distinct from every node
    of the document. *)
Definition createElement_id (p : Page) : nat :=
  S (list_max (map script_id (head p))).

(** [document.head.contains(script)] *)
Definition head_contains (el : ScriptElement) (p : Page) : bool :=
  existsb (fun e => Nat.eqb (script_id e) (script_id el)) (head p).

(** [document.head.appendChild(script)]: the node joins the document and
    the browser starts fetching it. *)
Definition appendChild (el : ScriptElement) (p : Page) : Page :=
  log_call (AppendChild el)
    (with_loading (script_id el :: loading p) (with_head (head p ++ [el]) p)).

(** [document.head.removeChild(script)] *)
Definition removeChild (el : ScriptElement) (p : Page) : Page :=
  log_call (RemoveChild el)
    (with_head
       (filter (fun e => negb (Nat.eqb (script_id e) (script_id el))) (head p)) p).

Definition stop_loading (id : nat) (p : Page) : Page :=
  with_loading (filter (fun i => negb (Nat.eqb i id)) (loading p)) p.

Fixpoint update_nth {A : Type} (n : nat) (f : A -> A) (l : list A) : list A :=
  match l, n with
  | [], _ => []
  | x :: l', 0 => f x :: l'
  | x :: l', S n' => x :: update_nth n' f l'
  end.

(** [marker.setMap(null)] and [marker.setPosition(userPos)] *)
Definition setMap_null (m : GoogleMarker) : GoogleMarker :=
  {| marker_position := marker_position m; marker_map := None;
     marker_title := marker_title m;
     marker_click_listener := marker_click_listener m |}.
Definition setPosition (userPos : LatLng) (m : GoogleMarker) : GoogleMarker :=
  {| marker_position := userPos; marker_map := marker_map m;
     marker_title := marker_title m;
     marker_click_listener := marker_click_listener m |}.

Definition is_some {A : Type} (o : option A) : bool :=
  match o with Some _ => true | None => false end.

(** *** The four effects, in the order the component declares them *)

(** [useEffect(..., [showUserLocation])]: ask the browser for one reading. *)
Definition location_effect (s : State) : State :=
  let show := showUserLocation_or_default (props s) in
  let nav := navigator (page s) in
  if show && navigator_defined nav && navigator_geolocation nav then
    with_page (getCurrentPosition (page s)) s
  else if show && navigator_defined nav && negb (navigator_geolocation nav) then
    enqueue (SetErrorMsg "Geolocation is not supported by this browser") s
  else s.

(** [useEffect(..., [])]: load the Google Maps script. *)
Definition script_effect (s : State) : State :=
  if google_maps (page s) then enqueue (SetMapLoaded true) s
  else
    let script :=
      {| script_id := createElement_id (page s);
         script_src := ("https://maps.googleapis.com/maps/api/js?key="
                        ++ GOOGLE_MAPS_API_KEY (page s)
                        ++ "&libraries=places")%string;
         script_async := true;
         script_defer := true |} in
    let f := fiber s in
    with_fiber {| mounted := mounted f; queue := queue f;
                  deps_location := deps_location f; deps_init := deps_init f;
                  deps_marker := deps_marker f;
                  script_cleanup := Some script |}
      (with_page (appendChild script (page s)) s).

(** The cleanup closure of the script effect. *)
Definition script_effect_cleanup (s : State) : State :=
  match script_cleanup (fiber s) with
  | Some script =>
      if head_contains script (page s)
      then with_page (removeChild script (page s)) s
      else s
  | None => s
  end.

(** [useEffect(..., [mapLoaded, mapRegion.latitude, mapRegion.longitude,
    mapRegion.latitudeDelta])]: build the map. *)
Definition init_effect (s : State) : State :=
  if negb (mapLoaded (hooks s)) || negb (mapRef (refs s))
     || negb (google_maps (page s))
  then s
  else
    let region := mapRegion (props s) (hooks s) in
    let center := {| lat := latitude region; lng := longitude region |} in
    let mapOptions := {| map_center := center;
                         map_zoom := zoom (latitudeDelta region) |} in
    with_refs {| mapRef := mapRef (refs s);
                 googleMapRef := Some (length (maps (page s)));
                 userMarkerRef := userMarkerRef (refs s) |}
      (with_page (with_maps (maps (page s) ++ [mapOptions]) (page s)) s).

(** [useEffect(..., [position, showUserLocation, mapLoaded])]: create, move
    or remove the user's marker. *)
Definition marker_effect (s : State) : State :=
  let show := showUserLocation_or_default (props s) in
  match googleMapRef (refs s), position (hooks s),
        show && google_maps (page s) with
  | Some map, Some pos, true =>
      let userPos := {| lat := coords_latitude pos;
                        lng := coords_longitude pos |} in
      match userMarkerRef (refs s) with
      | None =>
          let marker := {| marker_position := userPos;
                           marker_map := Some map;
                           marker_title := "You are here";
                           marker_click_listener := true |} in
          with_refs {| mapRef := mapRef (refs s);
                       googleMapRef := googleMapRef (refs s);
                       userMarkerRef := Some (length (markers (page s))) |}
            (with_page (with_markers (markers (page s) ++ [marker]) (page s)) s)
      | Some m =>
          with_page
            (with_markers (update_nth m (setPosition userPos) (markers (page s)))
               (page s)) s
      end
  | _, _, _ =>
      match userMarkerRef (refs s) with
      | Some m =>
          if negb show then
            with_refs {| mapRef := mapRef (refs s);
                         googleMapRef := googleMapRef (refs s);
                         userMarkerRef := None |}
              (with_page
                 (with_markers (update_nth m setMap_null (markers (page s)))
                    (page s)) s)
          else s
      | None => s
      end
  end.

(** *** React: commit, queued updates, events *)

(** The ref of the container follows the rendered tree: the [<div>] is
    rendered exactly when [errorMsg] is falsy. *)
Definition attach_refs (s : State) : State :=
  with_refs {| mapRef := negb (truthy (errorMsg (hooks s)));
               googleMapRef := googleMapRef (refs s);
               userMarkerRef := userMarkerRef (refs s) |} s.

Definition current_deps_location (s : State) : bool :=
  showUserLocation_or_default (props s).
Definition current_deps_init (s : State) : bool * (Number * Number * Number) :=
  let region := mapRegion (props s) (hooks s) in
  (mapLoaded (hooks s),
   (latitude region, longitude region, latitudeDelta region)).
Definition current_deps_marker (s : State) : nat * bool * bool :=
  (position_identity (hooks s), showUserLocation_or_default (props s),
   mapLoaded (hooks s)).

Definition same_deps_init (a b : bool * (Number * Number * Number)) : bool :=
  let '(la, (xa, ya, da)) := a in
  let '(lb, (xb, yb, db)) := b in
  Bool.eqb la lb && same_number xa xb && same_number ya yb && same_number da db.
Definition same_deps_marker (a b : nat * bool * bool) : bool :=
  let '(ia, sa, la) := a in
  let '(ib, sb, lb) := b in
  Nat.eqb ia ib && Bool.eqb sa sb && Bool.eqb la lb.

Definition record_deps (s : State) : State :=
  let f := fiber s in
  with_fiber {| mounted := mounted f; queue := queue f;
                deps_location := current_deps_location s;
                deps_init := current_deps_init s;
                deps_marker := current_deps_marker s;
                script_cleanup := script_cleanup f |} s.

(** One commit: refs are attached, then every effect whose dependencies
    differ from those of its last run is run, in declaration order
    ([first] is the commit of the mount, where every effect runs). *)
Definition commit (first : bool) (s : State) : State :=
  let f := fiber s in
  let run_location :=
    first || negb (Bool.eqb (deps_location f) (current_deps_location s)) in
  let run_init :=
    first || negb (same_deps_init (deps_init f) (current_deps_init s)) in
  let run_marker :=
    first || negb (same_deps_marker (deps_marker f) (current_deps_marker s)) in
  let s0 := attach_refs s in
  let s1 := if run_location then location_effect s0 else s0 in
  let s2 := if first then script_effect s1 else s1 in
  let s3 := if run_init then init_effect s2 else s2 in
  let s4 := if run_marker then marker_effect s3 else s3 in
  record_deps s4.

Definition apply_update (h : Hooks) (u : Update) : Hooks :=
  match u with
  | SetPosition p =>
      {| position := Some p; position_identity := S (position_identity h);
         errorMsg := errorMsg h; mapLoaded := mapLoaded h |}
  | SetErrorMsg msg =>
      {| position := position h; position_identity := position_identity h;
         errorMsg := Some msg; mapLoaded := mapLoaded h |}
  | SetMapLoaded b =>
      {| position := position h; position_identity := position_identity h;
         errorMsg := errorMsg h; mapLoaded := b |}
  end.

Definition apply_queue (s : State) : State :=
  let f := fiber s in
  with_fiber {| mounted := mounted f; queue := [];
                deps_location := deps_location f; deps_init := deps_init f;
                deps_marker := deps_marker f;
                script_cleanup := script_cleanup f |}
    (with_hooks (fold_left apply_update (queue f) (hooks s)) s).

(** React renders again while updates are queued, up to its limit of
    nested updates. *)
Fixpoint flush (fuel : nat) (s : State) : State :=
  match fuel with
  | 0 => s
  | S fuel' =>
      match queue (fiber s) with
      | [] => s
      | _ :: _ => flush fuel' (commit false (apply_queue s))
      end
  end.

Definition NESTED_UPDATE_LIMIT : nat := 50.

(** Mounting [<Maps {...p} />] in a page. *)
Definition initial (p : WebMobileMapProps) (pg : Page) : State :=
  {| props := p;
     hooks := {| position := None; position_identity := 0;
                 errorMsg := None; mapLoaded := false |};
     refs := {| mapRef := false; googleMapRef := None; userMarkerRef := None |};
     fiber := {| mounted := true; queue := [];
                 deps_location := true;
                 deps_init := (false, (Finite 0, Finite 0, Finite 0));
                 deps_marker := (0, true, false);
                 script_cleanup := None |};
     page := pg |}.

Definition mount (p : WebMobileMapProps) (pg : Page) : State :=
  flush NESTED_UPDATE_LIMIT (commit true (initial p pg)).

Inductive Event : Type :=
| PositionReceived (pos : GeolocationPosition) (* success callback *)
| PositionFailed (message : string)            (* error callback, [error.message] *)
| ScriptLoaded                                 (* [script.onload] *)
| ScriptFailed                                 (* [script.onerror] *)
| ProviderAvailable   (* another script of the page defined [window.google.maps] *)
| PropsChanged (p : WebMobileMapProps)         (* the parent renders it again *)
| Unmounted.

Definition unmount (s : State) : State :=
  let s1 := script_effect_cleanup s in
  let f := fiber s1 in
  with_refs {| mapRef := false; googleMapRef := googleMapRef (refs s1);
               userMarkerRef := userMarkerRef (refs s1) |}
    (with_fiber {| mounted := false; queue := queue f;
                   deps_location := deps_location f; deps_init := deps_init f;
                   deps_marker := deps_marker f;
                   script_cleanup := script_cleanup f |} s1).

(** Is the script this component injected still being fetched? *)
Definition own_script_loading (s : State) : option ScriptElement :=
  match script_cleanup (fiber s) with
  | Some script =>
      if existsb (Nat.eqb (script_id script)) (loading (page s))
      then Some script else None
  | None => None
  end.

(** One event of the host; [None] when the event cannot happen in [s]. *)
Definition step (s : State) (e : Event) : option State :=
  if negb (mounted (fiber s)) then None else
  match e with
  | PositionReceived pos =>
      match geo_pending (page s) with
      | 0 => None
      | S n =>
          Some (flush NESTED_UPDATE_LIMIT
                  (enqueue (SetPosition pos)
                     (with_page (with_geo_pending n (page s)) s)))
      end
  | PositionFailed message =>
      match geo_pending (page s) with
      | 0 => None
      | S n =>
          Some (flush NESTED_UPDATE_LIMIT
                  (enqueue
                     (SetErrorMsg ("Error getting location: " ++ message)%string)
                     (with_page (with_geo_pending n (page s)) s)))
      end
  | ScriptLoaded =>
      match own_script_loading s with
      | Some script =>
          Some (flush NESTED_UPDATE_LIMIT
                  (enqueue (SetMapLoaded true)
                     (with_page
                        (with_google_maps true
                           (stop_loading (script_id script) (page s))) s)))
      | None => None
      end
  | ScriptFailed =>
      match own_script_loading s with
      | Some script =>
          Some (flush NESTED_UPDATE_LIMIT
                  (enqueue (SetErrorMsg "Failed to load Google Maps")
                     (with_page
                        (log_call
                           (ConsoleError "Google Maps script failed to load")
                           (stop_loading (script_id script) (page s))) s)))
      | None => None
      end
  | ProviderAvailable =>
      Some (with_page (with_google_maps true (page s)) s)
  | PropsChanged p =>
      Some (flush NESTED_UPDATE_LIMIT (commit false (with_props p s)))
  | Unmounted => Some (unmount s)
  end.

Fixpoint run (s : State) (es : list Event) : option State :=
  match es with
  | [] => Some s
  | e :: es' =>
      match step s e with
      | Some s' => run s' es'
      | None => None
      end
  end.

(** A page before the component is mounted: nothing asked of it yet, no
    object built.  Scripts of other consumers may already sit in its head. *)
Definition fresh_page (google : bool) (nav : Navigator) (key : string)
    (scripts : list ScriptElement) : Page :=
  {| google_maps := google; navigator := nav; GOOGLE_MAPS_API_KEY := key;
     head := scripts; loading := map script_id scripts; geo_pending := 0;
     maps := []; markers := []; calls := [] |}.

End Web.

(** ** The native implementation of [Maps] (react-native-maps, expo-location) *)
Module Native.

(** [Location.LocationObject] *)
Record LocationObject : Type := {
  coords_latitude : Number;
  coords_longitude : Number;
  coords_accuracy : Number;
  timestamp : Z
}.

Inductive PermissionStatus : Type := granted | denied | undetermined.

Definition is_granted (st : PermissionStatus) : bool :=
  match st with granted => true | _ => false end.

(** The options object passed to [getCurrentPositionAsync]:
    [{ accuracy: Location.Accuracy.Balanced }] on iOS, [{}] elsewhere. *)
Inductive LocationOptions : Type := AccuracyBalanced | NoOptions.

Inductive Call : Type :=
| RequestForegroundPermissionsAsync
| GetCurrentPositionAsync (options : LocationOptions).

(** The device: its platform, the promises not yet settled, and the calls
    made so far (newest first). *)
Record Device : Type := {
  OS : Platform;
  permission_pending : nat;
  position_pending : nat;
  calls : list Call
}.

Definition NativeMobileMapProps : Type := MapProps.

(** [useState]: [region], [location], [errorMsg]; [deps_location] is the
    value of [showUserLocation] the effect last ran with. *)
Record State : Type := {
  props : NativeMobileMapProps;
  region : Region;
  location : option LocationObject;
  errorMsg : option string;
  deps_location : bool;
  device : Device
}.

Definition with_device (d : Device) (s : State) : State :=
  {| props := props s; region := region s; location := location s;
     errorMsg := errorMsg s; deps_location := deps_location s; device := d |}.
Definition setErrorMsg (msg : string) (s : State) : State :=
  {| props := props s; region := region s; location := location s;
     errorMsg := Some msg; deps_location := deps_location s;
     device := device s |}.
Definition setLocation (l : LocationObject) (s : State) : State :=
  {| props := props s; region := region s; location := Some l;
     errorMsg := errorMsg s; deps_location := deps_location s;
     device := device s |}.
Definition setRegion (r : Region) (s : State) : State :=
  {| props := props s; region := r; location := location s;
     errorMsg := errorMsg s; deps_location := deps_location s;
     device := device s |}.

(** [await Location.requestForegroundPermissionsAsync()] *)
Definition requestForegroundPermissionsAsync (d : Device) : Device :=
  {| OS := OS d; permission_pending := S (permission_pending d);
     position_pending := position_pending d;
     calls := RequestForegroundPermissionsAsync :: calls d |}.

(** [await Location.getCurrentPositionAsync(locationOptions)] *)
Definition getCurrentPositionAsync (d : Device) : Device :=
  let locationOptions :=
    match OS d with ios => AccuracyBalanced | android => NoOptions end in
  {| OS := OS d; permission_pending := permission_pending d;
     position_pending := S (position_pending d);
     calls := GetCurrentPositionAsync locationOptions :: calls d |}.

(** The effect [useEffect(..., [showUserLocation])], up to its first
    [await]. *)
Definition location_effect (s : State) : State :=
  if showUserLocation_or_default (props s)
  then with_device (requestForegroundPermissionsAsync (device s)) s
  else s.

(** [onRegionChange] *)
Definition onRegionChange (newRegion : Region) (s : State) : State :=
  setRegion newRegion s.

(** The JSX the component returns. *)
Definition render (s : State) : Element :=
  View [ if truthy (errorMsg s)
         then Text (match errorMsg s with Some m => m | None => "" end)
         else
           MapView
             {| mv_provider_google :=
                  match OS (device s) with android => true | ios => false end;
                mv_region := region s;
                mv_showsUserLocation := showUserLocation_or_default (props s) |}
             match location s with
             | Some l =>
                 [ Marker
                     {| mk_coordinate := {| lat := coords_latitude l;
                                            lng := coords_longitude l |};
                        mk_title := "You are here";
                        mk_description := "Your current location on native device";
                        mk_tracksViewChanges :=
                          match OS (device s) with
                          | android => false
                          | ios => true
                          end |} ]
             | None => []
             end ].

Definition record_deps (s : State) : State :=
  {| props := props s; region := region s; location := location s;
     errorMsg := errorMsg s;
     deps_location := showUserLocation_or_default (props s);
     device := device s |}.

(** Mounting [<Maps {...p} />]: [useState(initialRegion || defaultRegion)],
    then the effect. *)
Definition mount (p : NativeMobileMapProps) (d : Device) : State :=
  record_deps
    (location_effect
       {| props := p;
          region := match initialRegion p with
                    | Some r => r
                    | None => defaultRegion
                    end;
          location := None;
          errorMsg := None;
          deps_location := true;
          device := d |}).

Inductive Event : Type :=
| PermissionAnswered (status : PermissionStatus)
| PositionResolved (location : LocationObject)
| PositionRejected
| RegionChangeComplete (newRegion : Region)   (* the user moved the map *)
| PropsChanged (p : NativeMobileMapProps).

(** One event of the device; [None] when the event cannot happen in [s]. *)
Definition step (s : State) (e : Event) : option State :=
  match e with
  | PermissionAnswered status =>
      match permission_pending (device s) with
      | 0 => None
      | S n =>
          let d := {| OS := OS (device s); permission_pending := n;
                      position_pending := position_pending (device s);
                      calls := calls (device s) |} in
          if negb (is_granted status)
          then Some (setErrorMsg "Permission to access location was denied"
                       (with_device d s))
          else Some (with_device (getCurrentPositionAsync d) s)
      end
  | PositionResolved l =>
      match position_pending (device s) with
      | 0 => None
      | S n =>
          let d := {| OS := OS (device s);
                      permission_pending := permission_pending (device s);
                      position_pending := n; calls := calls (device s) |} in
          Some (setRegion {| latitude := coords_latitude l;
                             longitude := coords_longitude l;
                             latitudeDelta := 0.0922;
                             longitudeDelta := 0.0421 |}
                  (setLocation l (with_device d s)))
      end
  | PositionRejected =>
      match position_pending (device s) with
      | 0 => None
      | S n =>
          let d := {| OS := OS (device s);
                      permission_pending := permission_pending (device s);
                      position_pending := n; calls := calls (device s) |} in
          Some (setErrorMsg "Error getting current location on native device"
                  (with_device d s))
      end
  | RegionChangeComplete newRegion =>
      if truthy (errorMsg s) then None
      else Some (onRegionChange newRegion s)
  | PropsChanged p =>
      let s1 := {| props := p; region := region s; location := location s;
                   errorMsg := errorMsg s; deps_location := deps_location s;
                   device := device s |} in
      Some (record_deps
              (if Bool.eqb (deps_location s) (showUserLocation_or_default p)
               then s1 else location_effect s1))
  end.

Fixpoint run (s : State) (es : list Event) : option State :=
  match es with
  | [] => Some s
  | e :: es' =>
      match step s e with
      | Some s' => run s' es'
      | None => None
      end
  end.

(** A device on which nothing has been asked yet. *)
Definition fresh_device (os : Platform) : Device :=
  {| OS := os; permission_pending := 0; position_pending := 0; calls := [] |}.

End Native.

(** ** The screen ([app/index.tsx]) *)
Module Screen.

Definition PlatformMapProps : Type := MapProps.

(** The tree of the screen before [Maps] is resolved to one of the two
    implementations. *)
#[warnings="-register-all"]
Inductive Node : Type :=
| ViewNode (children : list Node)
| MapsNode (p : MapProps)
| PlatformMapNode (p : PlatformMapProps).

(** [<Maps />], no attribute given. *)
Definition no_props : MapProps :=
  {| initialRegion := None; showUserLocation := None |}.

(** [export const PlatformMap: React.FC<PlatformMapProps> = () => ...] *)
Definition PlatformMap (_ : PlatformMapProps) : Node :=
  ViewNode [ MapsNode no_props ].

Definition HomeScreen : Node :=
  ViewNode [ PlatformMapNode no_props ].

(** The props of every [Maps] the tree mounts, function components being
    called as React does. *)
Fixpoint maps_mounted (fuel : nat) (n : Node) : list MapProps :=
  match fuel with
  | 0 => []
  | S fuel' =>
      match n with
      | ViewNode cs => flat_map (maps_mounted fuel') cs
      | MapsNode p => [p]
      | PlatformMapNode p => maps_mounted fuel' (PlatformMap p)
      end
  end.

Definition mount_web (n : Node) (pg : Web.Page) : list Web.State :=
  map (fun p => Web.mount p pg) (maps_mounted 8 n).
Definition mount_native (n : Node) (d : Native.Device) : list Native.State :=
  map (fun p => Native.mount p d) (maps_mounted 8 n).

End Screen.

(** ** Vocabulary of the statements about the web implementation *)
Module WebSpec.
Import Web.

(** [new window.google.maps.LatLng(position.coords.latitude,
    position.coords.longitude)] *)
Definition latlng_of (pos : GeolocationPosition) : LatLng :=
  {| lat := coords_latitude pos; lng := coords_longitude pos |}.

Definition center_of (r : Region) : LatLng :=
  {| lat := latitude r; lng := longitude r |}.

(** A marker is on a map while its [map] is not [null]. *)
Definition attached (m : GoogleMarker) : bool := is_some (marker_map m).

Definition attached_markers (s : State) : list GoogleMarker :=
  filter attached (markers (page s)).

(** The marker object [userMarkerRef.current] points to. *)
Definition user_marker (s : State) : option GoogleMarker :=
  match userMarkerRef (refs s) with
  | Some i => nth_error (markers (page s)) i
  | None => None
  end.

Definition is_injection (c : Call) : bool :=
  match c with AppendChild _ => true | _ => false end.
Definition is_removal (c : Call) : bool :=
  match c with RemoveChild _ => true | _ => false end.
Definition is_position_request (c : Call) : bool :=
  match c with GetCurrentPosition => true | _ => false end.

(** How many times the component called [document.head.appendChild] and
    [getCurrentPosition]. *)
Definition injections (s : State) : nat :=
  length (filter is_injection (calls (page s))).
Definition position_requests (s : State) : nat :=
  length (filter is_position_request (calls (page s))).

(** The states of a mounted component: those a sequence of host events
    leads to from the mount in a page on which nothing was done yet. *)
Definition reachable (s : State) : Prop :=
  exists p google nav key scripts es,
    run (mount p (fresh_page google nav key scripts)) es = Some s.

(** Is the provider's script among the scripts of the page? *)
Definition provider_src (key : string) : string :=
  ("https://maps.googleapis.com/maps/api/js?key=" ++ key
   ++ "&libraries=places")%string.
Definition provider_script_present (pg : Page) : bool :=
  existsb (fun e => String.eqb (script_src e)
                      (provider_src (GOOGLE_MAPS_API_KEY pg))) (head pg).

(** The center the specification gives the map: the reading if there is
    one, else the caller's region, else the default region. *)
Definition spec_center (p : WebMobileMapProps)
    (reading : option GeolocationPosition) : LatLng :=
  match reading with
  | Some pos => {| lat := coords_latitude pos; lng := coords_longitude pos |}
  | None =>
      match initialRegion p with
      | Some r => {| lat := latitude r; lng := longitude r |}
      | None => {| lat := 37.78825; lng := -122.4324 |}
      end
  end.

(** Agreement with a value quoted to two decimals. *)
Definition agrees_to_two_decimals (x quoted : R) : Prop :=
  (Rabs (x - quoted) <= 0.005)%R.

(** An effect that runs only when its dependencies changed. *)
Definition run_if (c : bool) (effect : State -> State) (s : State) : State :=
  if c then effect s else s.

(** The two branches of the location effect that do something. *)
Definition asks_position (p : MapProps) (nav : Navigator) : bool :=
  showUserLocation_or_default p
  && navigator_defined nav && navigator_geolocation nav.
Definition reports_unsupported (p : MapProps) (nav : Navigator) : bool :=
  negb (asks_position p nav)
  && (showUserLocation_or_default p
      && navigator_defined nav && negb (navigator_geolocation nav)).

(** The script element the script effect creates. *)
Definition new_script (key : string) (hd : list ScriptElement)
  : ScriptElement :=
  {| script_id := S (list_max (map script_id hd));
     script_src := provider_src key;
     script_async := true;
     script_defer := true |}.

(** The guard of the map effect, and the options it builds. *)
Definition init_ready (h : Hooks) (container google : bool) : bool :=
  mapLoaded h && container && google.
Definition map_options (p : MapProps) (h : Hooks) : GoogleMap :=
  {| map_center := center_of (mapRegion p h);
     map_zoom := zoom (latitudeDelta (mapRegion p h)) |}.

(** What the marker effect does. *)
Inductive MarkerAction : Type :=
| CreateMarker (map : nat) (pos : GeolocationPosition)
| MoveMarker (m : nat) (pos : GeolocationPosition)
| RemoveMarker (m : nat)
| NoMarkerAction.

Definition marker_action (map_handle marker_handle : option nat)
    (p : MapProps) (h : Hooks) (google : bool) : MarkerAction :=
  match map_handle, position h, showUserLocation_or_default p && google with
  | Some map, Some pos, true =>
      match marker_handle with
      | None => CreateMarker map pos
      | Some m => MoveMarker m pos
      end
  | _, _, _ =>
      match marker_handle with
      | Some m => if negb (showUserLocation_or_default p)
                  then RemoveMarker m else NoMarkerAction
      | None => NoMarkerAction
      end
  end.

Definition new_marker (map : nat) (pos : GeolocationPosition) : GoogleMarker :=
  {| marker_position := latlng_of pos; marker_map := Some map;
     marker_title := "You are here"; marker_click_listener := true |}.

Definition markers_after (a : MarkerAction) (l : list GoogleMarker)
  : list GoogleMarker :=
  match a with
  | CreateMarker map pos => l ++ [new_marker map pos]
  | MoveMarker m pos => update_nth m (setPosition (latlng_of pos)) l
  | RemoveMarker m => update_nth m setMap_null l
  | NoMarkerAction => l
  end.

Definition marker_ref_after (a : MarkerAction) (l : list GoogleMarker)
    (r : option nat) : option nat :=
  match a with
  | CreateMarker _ _ => Some (length l)
  | RemoveMarker _ => None
  | _ => r
  end.

(** The dependency lists of the three effects that have one. *)
Definition location_deps (p : MapProps) : bool :=
  showUserLocation_or_default p.
Definition init_deps (p : MapProps) (h : Hooks) : bool * (Number * Number * Number) :=
  (mapLoaded h,
   (latitude (mapRegion p h), longitude (mapRegion p h),
    latitudeDelta (mapRegion p h))).
Definition marker_deps (p : MapProps) (h : Hooks) : nat * bool * bool :=
  (position_identity h, showUserLocation_or_default p, mapLoaded h).

(** Which effects a commit runs. *)
Definition location_runs (first : bool) (f : Fiber) (p : MapProps) : bool :=
  first || negb (Bool.eqb (deps_location f) (location_deps p)).
Definition init_runs (first : bool) (f : Fiber) (p : MapProps) (h : Hooks)
  : bool :=
  first || negb (same_deps_init (deps_init f) (init_deps p h)).
Definition marker_runs (first : bool) (f : Fiber) (p : MapProps) (h : Hooks)
  : bool :=
  first || negb (same_deps_marker (deps_marker f) (marker_deps p h)).

(** The dependency values React holds are those of the last render. *)
Definition deps_settled (s : State) : Prop :=
  deps_location (fiber s) = location_deps (props s)
  /\ deps_init (fiber s) = init_deps (props s) (hooks s)
  /\ deps_marker (fiber s) = marker_deps (props s) (hooks s).

(** What one commit does, read off the state it starts from. *)
Definition container_rendered (s : State) : bool :=
  negb (truthy (errorMsg (hooks s))).
Definition commit_asks_position (first : bool) (s : State) : bool :=
  location_runs first (fiber s) (props s)
  && asks_position (props s) (navigator (page s)).
Definition commit_reports_unsupported (first : bool) (s : State) : bool :=
  location_runs first (fiber s) (props s)
  && reports_unsupported (props s) (navigator (page s)).
Definition commit_injects (first : bool) (s : State) : bool :=
  first && negb (google_maps (page s)).
Definition commit_builds_map (first : bool) (s : State) : bool :=
  init_runs first (fiber s) (props s) (hooks s)
  && init_ready (hooks s) (container_rendered s) (google_maps (page s)).
Definition commit_map_handle (first : bool) (s : State) : option nat :=
  if commit_builds_map first s then Some (length (maps (page s)))
  else googleMapRef (refs s).
Definition commit_marker_action (first : bool) (s : State) : MarkerAction :=
  if marker_runs first (fiber s) (props s) (hooks s)
  then marker_action (commit_map_handle first s) (userMarkerRef (refs s))
         (props s) (hooks s) (google_maps (page s))
  else NoMarkerAction.

(** What one queued update will do to the state, once React renders;
    [rerender] is what React does with a state whose queue is not empty. *)
Definition rerender (s : State) : State := commit false (apply_queue s).
Definition settle (s : State) : State :=
  match queue (fiber s) with
  | [] => s
  | _ :: _ => rerender s
  end.

(** *** Invariants *)

(** At most the marker [userMarkerRef.current] points to is on a map. *)
Definition markers_consistent (handle : option nat) (l : list GoogleMarker)
  : Prop :=
  match handle with
  | Some i =>
      exists l1 m l2,
        l = l1 ++ m :: l2 /\ length l1 = i /\ attached m = true
        /\ Forall (fun m' => attached m' = false) l1
        /\ Forall (fun m' => attached m' = false) l2
  | None => Forall (fun m' => attached m' = false) l
  end.

(** What holds of a component between two commits, whatever is queued. *)
Record consistent (s : State) : Prop := {
  cons_deps : deps_settled s;
  cons_error : forall msg, errorMsg (hooks s) = Some msg -> msg <> "";
  cons_container :
    mounted (fiber s) = true -> mapRef (refs s) = container_rendered s;
  cons_loaded : mapLoaded (hooks s) = true -> google_maps (page s) = true;
  cons_map :
    forall g, googleMapRef (refs s) = Some g ->
      mapLoaded (hooks s) = true /\ g < length (maps (page s));
  cons_markers : markers_consistent (userMarkerRef (refs s)) (markers (page s));
  cons_marker_needs :
    userMarkerRef (refs s) <> None ->
    googleMapRef (refs s) <> None /\ position (hooks s) <> None
    /\ showUserLocation_or_default (props s) = true;
  cons_marker_placed :
    forall g pos,
      googleMapRef (refs s) = Some g -> position (hooks s) = Some pos ->
      showUserLocation_or_default (props s) = true ->
      exists m, user_marker s = Some m /\ marker_position m = latlng_of pos;
  cons_marker_history :
    markers (page s) <> [] ->
    googleMapRef (refs s) <> None /\ position (hooks s) <> None;
  cons_injections :
    injections s = match script_cleanup (fiber s) with
                   | Some _ => 1
                   | None => 0
                   end;
  cons_script :
    forall el, mounted (fiber s) = true ->
      script_cleanup (fiber s) = Some el -> In el (head (page s))
}.

(** What holds of every state the component rests in. *)
Record invariant (s : State) : Prop := {
  inv_queue : queue (fiber s) = [];
  inv_consistent : consistent s
}.

(** [s0] is [s] after an event handler and the queued updates were applied,
    before the commit that follows. *)
Record evolves (s s0 : State) : Prop := {
  ev_refs : refs s0 = refs s;
  ev_mounted : mounted (fiber s0) = mounted (fiber s);
  ev_queue : queue (fiber s0) = [];
  ev_deps_location : deps_location (fiber s0) = deps_location (fiber s);
  ev_deps_init : deps_init (fiber s0) = deps_init (fiber s);
  ev_deps_marker : deps_marker (fiber s0) = deps_marker (fiber s);
  ev_cleanup : script_cleanup (fiber s0) = script_cleanup (fiber s);
  ev_maps : maps (page s0) = maps (page s);
  ev_markers : markers (page s0) = markers (page s);
  ev_head : head (page s0) = head (page s);
  ev_injections : injections s0 = injections s;
  ev_google : google_maps (page s) = true -> google_maps (page s0) = true;
  ev_error : forall msg, errorMsg (hooks s0) = Some msg -> msg <> "";
  ev_loaded : mapLoaded (hooks s) = true -> mapLoaded (hooks s0) = true;
  ev_loaded_google :
    mapLoaded (hooks s0) = true -> google_maps (page s0) = true;
  ev_position :
    position (hooks s) <> None -> position (hooks s0) <> None;
  ev_same_reading :
    position_identity (hooks s0) = position_identity (hooks s) ->
    position (hooks s0) = position (hooks s)
}.

(** A queued update the component can produce: its messages are never
    empty, and it only ever sets [mapLoaded] to [true], with the provider
    present. *)
Definition update_ok (google : bool) (u : Update) : Prop :=
  match u with
  | SetPosition _ => True
  | SetErrorMsg msg => msg <> ""
  | SetMapLoaded b => b = true /\ google = true
  end.

(** How applying such updates changes the hook state. *)
Record hooks_evolve (google : bool) (h h' : Hooks) : Prop := {
  he_error :
    (forall msg, errorMsg h = Some msg -> msg <> "") ->
    forall msg, errorMsg h' = Some msg -> msg <> "";
  he_loaded : mapLoaded h = true -> mapLoaded h' = true;
  he_google :
    (mapLoaded h = true -> google = true) ->
    mapLoaded h' = true -> google = true;
  he_position : position h <> None -> position h' <> None;
  he_identity : position_identity h <= position_identity h';
  he_same_reading :
    position_identity h' = position_identity h -> position h' = position h
}.

(** What an event handler may change in the page before React renders. *)
Record page_compatible (pg pg' : Page) : Prop := {
  pc_maps : maps pg' = maps pg;
  pc_markers : markers pg' = markers pg;
  pc_head : head pg' = head pg;
  pc_injections :
    length (filter is_injection (calls pg'))
    = length (filter is_injection (calls pg));
  pc_google : google_maps pg = true -> google_maps pg' = true
}.

(** The state a handler leaves for the commit that follows it: the page
    as the handler left it, and the one update applied. *)
Definition updated (u : Update) (pg' : Page) (s : State) : State :=
  with_hooks (apply_update (hooks s) u) (with_page pg' s).

(** [step], for a state at rest: one commit after a handler, and at most
    two when the props change. *)
Definition next (s : State) (e : Event) : option State :=
  if negb (mounted (fiber s)) then None else
  match e with
  | PositionReceived pos =>
      match geo_pending (page s) with
      | 0 => None
      | S n =>
          Some (commit false
                  (updated (SetPosition pos)
                     (with_geo_pending n (page s)) s))
      end
  | PositionFailed message =>
      match geo_pending (page s) with
      | 0 => None
      | S n =>
          Some (commit false
                  (updated
                     (SetErrorMsg ("Error getting location: " ++ message)%string)
                     (with_geo_pending n (page s)) s))
      end
  | ScriptLoaded =>
      match own_script_loading s with
      | Some script =>
          Some (commit false
                  (updated (SetMapLoaded true)
                     (with_google_maps true
                        (stop_loading (script_id script) (page s))) s))
      | None => None
      end
  | ScriptFailed =>
      match own_script_loading s with
      | Some script =>
          Some (commit false
                  (updated (SetErrorMsg "Failed to load Google Maps")
                     (log_call
                        (ConsoleError "Google Maps script failed to load")
                        (stop_loading (script_id script) (page s))) s))
      | None => None
      end
  | ProviderAvailable =>
      Some (with_page (with_google_maps true (page s)) s)
  | PropsChanged p => Some (settle (commit false (with_props p s)))
  | Unmounted => Some (unmount s)
  end.

(** The props of every event of a sequence keep location display off. *)
Definition keeps_location_off (e : Event) : Prop :=
  match e with
  | PropsChanged p => showUserLocation_or_default p = false
  | _ => True
  end.

(** The component never asked for a position, holds no reading, built no
    marker, and the only message it may hold is that of the script. *)
Record location_untouched (s : State) : Prop := {
  lu_flag : showUserLocation_or_default (props s) = false;
  lu_pending : geo_pending (page s) = 0;
  lu_requests : position_requests s = 0;
  lu_position : position (hooks s) = None;
  lu_handle : userMarkerRef (refs s) = None;
  lu_markers : markers (page s) = [];
  lu_error :
    errorMsg (hooks s) = None
    \/ errorMsg (hooks s) = Some "Failed to load Google Maps"
}.

(** *** The shape of a step *)

(** The state an event leaves for the commit that follows it: the page as
    the handler left it and the update it queued applied, or the new
    props. *)
Definition handled (s : State) (e : Event) : State :=
  match e with
  | PositionReceived pos =>
      updated (SetPosition pos)
        (with_geo_pending (pred (geo_pending (page s))) (page s)) s
  | PositionFailed message =>
      updated (SetErrorMsg ("Error getting location: " ++ message)%string)
        (with_geo_pending (pred (geo_pending (page s))) (page s)) s
  | ScriptLoaded =>
      match own_script_loading s with
      | Some script =>
          updated (SetMapLoaded true)
            (with_google_maps true (stop_loading (script_id script) (page s)))
            s
      | None => s
      end
  | ScriptFailed =>
      match own_script_loading s with
      | Some script =>
          updated (SetErrorMsg "Failed to load Google Maps")
            (log_call (ConsoleError "Google Maps script failed to load")
               (stop_loading (script_id script) (page s))) s
      | None => s
      end
  | PropsChanged p => with_props p s
  | ProviderAvailable | Unmounted => s
  end.

(** Does React render after the event? *)
Definition commits (e : Event) : bool :=
  match e with
  | ProviderAvailable | Unmounted => false
  | _ => true
  end.

(** [s'] is what the commit of [s0] leaves, up to the message that a
    second render may record when geolocation is unsupported. *)
Record committed (s0 s' : State) : Prop := {
  cm_props : props s' = props s0;
  cm_position : position (hooks s') = position (hooks s0);
  cm_identity : position_identity (hooks s') = position_identity (hooks s0);
  cm_loaded : mapLoaded (hooks s') = mapLoaded (hooks s0);
  cm_error :
    errorMsg (hooks s') = errorMsg (hooks s0)
    \/ errorMsg (hooks s')
       = Some "Geolocation is not supported by this browser";
  cm_page : page s' = page (commit false s0);
  cm_map : googleMapRef (refs s') = googleMapRef (refs (commit false s0));
  cm_marker : userMarkerRef (refs s') = userMarkerRef (refs (commit false s0));
  cm_mounted : mounted (fiber s') = mounted (fiber s0)
}.

(** The map object [googleMapRef.current] points to. *)
Definition current_map (s : State) : option GoogleMap :=
  match googleMapRef (refs s) with
  | Some g => nth_error (maps (page s)) g
  | None => None
  end.

(** A map built for a region: centered on it, up to the equality of
    numbers the dependency comparison uses, and zoomed for its span. *)
Definition map_shows (m : GoogleMap) (r : Region) : Prop :=
  same_number (lat (map_center m)) (latitude r) = true
  /\ same_number (lng (map_center m)) (longitude r) = true
  /\ exists d, same_number d (latitudeDelta r) = true /\ map_zoom m = zoom d.

(** The map on display, when there is one, is the one of the region. *)
Definition map_follows_region (s : State) : Prop :=
  errorMsg (hooks s) = None -> mapLoaded (hooks s) = true ->
  exists m, current_map s = Some m
            /\ map_shows m (mapRegion (props s) (hooks s)).

(** The handle of the map is that of the newest map, and every marker
    that is on a map is on a map this component built. *)
Record handles_valid (s : State) : Prop := {
  hv_map :
    forall g, googleMapRef (refs s) = Some g ->
              S g = length (maps (page s));
  hv_markers :
    forall m g, In m (markers (page s)) -> marker_map m = Some g ->
                g < length (maps (page s))
}.

(** Did the event turn location display on, in a browser that can locate? *)
Definition turns_location_on (s : State) (e : Event) : bool :=
  match e with
  | PropsChanged p =>
      negb (showUserLocation_or_default (props s))
      && showUserLocation_or_default p
      && navigator_geolocation (navigator (page s))
  | _ => false
  end.

(** Do the coordinates of two readings differ, as the dependency
    comparison of the map effect sees them? *)
Definition moved (old pos : GeolocationPosition) : bool :=
  negb (same_number (coords_latitude old) (coords_latitude pos)
        && same_number (coords_longitude old) (coords_longitude pos)).

(** The map on display -- there is one when the provider is loaded and no
    error message is held -- is centered by the precedence. *)
Definition centered_by_precedence (s : State) : Prop :=
  errorMsg (hooks s) = None -> mapLoaded (hooks s) = true ->
  exists m,
    current_map s = Some m
    /\ same_number (lat (map_center m))
         (lat (spec_center (props s) (position (hooks s)))) = true
    /\ same_number (lng (map_center m))
         (lng (spec_center (props s) (position (hooks s)))) = true.

(** The marker [userMarkerRef.current] points to is on the map
    [googleMapRef.current] points to. *)
Definition marker_on_displayed_map (s : State) : Prop :=
  forall m, user_marker s = Some m -> marker_map m = googleMapRef (refs s).

(** A reading that moves the map while the marker exists: the map effect
    then builds a map anew and the marker effect takes its update branch. *)
Definition moves_marked_map (s : State) (e : Event) : bool :=
  match e, position (hooks s), userMarkerRef (refs s) with
  | PositionReceived pos, Some old, Some _ => moved old pos
  | _, _, _ => false
  end.

(** No event of a sequence is such a reading. *)
Fixpoint keeps_marked_map (s : State) (es : list Event) : bool :=
  match es with
  | [] => true
  | e :: es' =>
      negb (moves_marked_map s e)
      && match step s e with
         | Some s' => keeps_marked_map s' es'
         | None => true
         end
  end.

End WebSpec.

(** ** Vocabulary of the statements about the native implementation *)
Module NativeSpec.
Import Native.

(** The states of a mounted component: those a sequence of device events
    leads to from the mount on a device on which nothing was asked yet. *)
Definition reachable (s : State) : Prop :=
  exists p os es, run (mount p (fresh_device os)) es = Some s.

Definition latlng_of (l : LocationObject) : LatLng :=
  {| lat := coords_latitude l; lng := coords_longitude l |}.

(** The coordinates of the markers a rendered tree shows. *)
Fixpoint marker_coordinates (e : Element) : list LatLng :=
  match e with
  | Marker p => [mk_coordinate p]
  | View cs | MapView _ cs =>
      (fix go (l : list Element) : list LatLng :=
         match l with
         | [] => []
         | c :: l' => marker_coordinates c ++ go l'
         end) cs
  | _ => []
  end.

(** The props of every event of a sequence keep location display off. *)
Definition keeps_location_off (e : Event) : Prop :=
  match e with
  | PropsChanged p => showUserLocation_or_default p = false
  | _ => True
  end.

(** The component never asked for anything and holds no reading. *)
Record location_untouched (s : State) : Prop := {
  lu_flag : showUserLocation_or_default (props s) = false;
  lu_deps : deps_location s = false;
  lu_calls : calls (device s) = [];
  lu_permission : permission_pending (device s) = 0;
  lu_position : position_pending (device s) = 0;
  lu_location : location s = None;
  lu_error : errorMsg s = None
}.

(** How many times the component asked for the permission and for the
    position. *)
Definition is_permission_request (c : Call) : bool :=
  match c with RequestForegroundPermissionsAsync => true | _ => false end.
Definition is_position_query (c : Call) : bool :=
  match c with GetCurrentPositionAsync _ => true | _ => false end.
Definition permission_requests (s : State) : nat :=
  length (filter is_permission_request (calls (device s))).
Definition position_queries (s : State) : nat :=
  length (filter is_position_query (calls (device s))).

(** The options a position query carries on a platform. *)
Definition options_on (os : Platform) : LocationOptions :=
  match os with ios => AccuracyBalanced | android => NoOptions end.

(** The position is queried only once a permission request was answered,
    with the options of the platform, and a reading comes from a query. *)
Record accounted (s : State) : Prop := {
  acc_permission :
    position_queries s + permission_pending (device s)
    <= permission_requests s;
  acc_reading :
    (match location s with Some _ => 1 | None => 0 end)
    + position_pending (device s)
    <= position_queries s;
  acc_options :
    Forall (fun c => match c with
                     | GetCurrentPositionAsync o =>
                         o = options_on (OS (device s))
                     | _ => True
                     end) (calls (device s))
}.

(** Did the event turn location display on? *)
Definition turns_location_on (s : State) (e : Event) : bool :=
  match e with
  | PropsChanged p =>
      negb (showUserLocation_or_default (props s))
      && showUserLocation_or_default p
  | _ => false
  end.

End NativeSpec.

(** ** Concrete executions used to exercise the statements *)
Module Examples.

Definition no_props : MapProps :=
  {| initialRegion := None; showUserLocation := None |}.
Definition hidden : MapProps :=
  {| initialRegion := None; showUserLocation := Some false |}.
Definition shown : MapProps :=
  {| initialRegion := None; showUserLocation := Some true |}.

(** A browser with geolocation, the provider not loaded yet. *)
Definition browser : Web.Page :=
  Web.fresh_page false Web.NavigatorWithGeolocation "" [].

(** The same browser, in which another consumer already put the provider's
    script into the head; it has not finished loading. *)
Definition foreign_script : Web.ScriptElement :=
  {| Web.script_id := 7;
     Web.script_src := WebSpec.provider_src "";
     Web.script_async := true;
     Web.script_defer := true |}.
Definition browser_with_script : Web.Page :=
  Web.fresh_page false Web.NavigatorWithGeolocation "" [foreign_script].

Definition reading_1 : Web.GeolocationPosition :=
  {| Web.coords_latitude := 48.8566; Web.coords_longitude := 2.3522;
     Web.coords_accuracy := 10; Web.timestamp := 1000 |}.
Definition reading_2 : Web.GeolocationPosition :=
  {| Web.coords_latitude := 51.5074; Web.coords_longitude := -0.1278;
     Web.coords_accuracy := 10; Web.timestamp := 2000 |}.

Definition web_after (es : list Web.Event) : Web.State :=
  match Web.run (Web.mount no_props browser) es with
  | Some s => s
  | None => Web.initial no_props browser
  end.

Definition web_hidden_after (es : list Web.Event) : Web.State :=
  match Web.run (Web.mount hidden browser) es with
  | Some s => s
  | None => Web.initial hidden browser
  end.

(** A browser without geolocation, the provider already loaded. *)
Definition browser_without_geolocation : Web.Page :=
  Web.fresh_page true Web.NavigatorWithoutGeolocation "" [].

Definition web_unsupported_after (es : list Web.Event) : Web.State :=
  match Web.run (Web.mount shown browser_without_geolocation) es with
  | Some s => s
  | None => Web.initial shown browser_without_geolocation
  end.

(** Props that ask for a region at latitude 0 and at latitude -0. *)
Definition at_zero : MapProps :=
  {| initialRegion := Some (mkRegion 0 0 0.0922 0.0421);
     showUserLocation := Some false |}.
Definition at_negative_zero : MapProps :=
  {| initialRegion := Some (mkRegion NegativeZero 0 0.0922 0.0421);
     showUserLocation := Some false |}.
Definition web_at_zero_after (es : list Web.Event) : Web.State :=
  match Web.run (Web.mount at_zero browser) es with
  | Some s => s
  | None => Web.initial at_zero browser
  end.

Definition native_reading : Native.LocationObject :=
  {| Native.coords_latitude := 48.8566; Native.coords_longitude := 2.3522;
     Native.coords_accuracy := 10; Native.timestamp := 1000 |}.

Definition native_after (es : list Native.Event) : Native.State :=
  match Native.run (Native.mount no_props (Native.fresh_device ios)) es with
  | Some s => s
  | None => Native.mount no_props (Native.fresh_device ios)
  end.

End Examples.

(** ** Facts about the web implementation *)
Module WebFacts.
Import Web WebSpec.

Arguments zoom : simpl never.
Arguments same_number : simpl never.
Arguments truthy : simpl never.
Arguments flush : simpl never.
Arguments commit : simpl never.
Arguments location_effect : simpl never.
Arguments script_effect : simpl never.
Arguments init_effect : simpl never.
Arguments marker_effect : simpl never.
Arguments same_deps_init : simpl never.
Arguments same_deps_marker : simpl never.
Arguments mapRegion : simpl never.
Arguments provider_src : simpl never.
Arguments marker_action : simpl never.
Arguments init_ready : simpl never.
Arguments asks_position : simpl never.
Arguments reports_unsupported : simpl never.
Arguments new_script : simpl never.
Arguments map_options : simpl never.
Arguments marker_ref_after : simpl never.
Arguments markers_after : simpl never.
Arguments location_runs : simpl never.
Arguments init_runs : simpl never.
Arguments marker_runs : simpl never.
Arguments init_deps : simpl never.
Arguments marker_deps : simpl never.
Arguments location_deps : simpl never.

(** *** Each effect as one record of its results *)

Lemma location_effect_result c s :
  run_if c location_effect s =
  {| props := props s; hooks := hooks s; refs := refs s;
     fiber := {| mounted := mounted (fiber s);
                 queue := queue (fiber s) ++
                          (if c && reports_unsupported (props s) (navigator (page s))
                           then [SetErrorMsg "Geolocation is not supported by this browser"]
                           else []);
                 deps_location := deps_location (fiber s);
                 deps_init := deps_init (fiber s);
                 deps_marker := deps_marker (fiber s);
                 script_cleanup := script_cleanup (fiber s) |};
     page := {| google_maps := google_maps (page s);
                navigator := navigator (page s);
                GOOGLE_MAPS_API_KEY := GOOGLE_MAPS_API_KEY (page s);
                head := head (page s);
                loading := loading (page s);
                geo_pending := (if c && asks_position (props s) (navigator (page s))
                                then S (geo_pending (page s))
                                else geo_pending (page s));
                maps := maps (page s);
                markers := markers (page s);
                calls := (if c && asks_position (props s) (navigator (page s))
                          then GetCurrentPosition :: calls (page s)
                          else calls (page s)) |} |}.
Proof.
  destruct s as [p h r [mt q dl di dm sc] [g nav key hd ld gp ms mk cs]].
  unfold run_if, location_effect, reports_unsupported, asks_position.
  cbn. destruct c; cbn; [|rewrite app_nil_r; reflexivity].
  destruct (showUserLocation_or_default p), nav; cbn;
    rewrite ?app_nil_r; reflexivity.
Qed.

Lemma script_effect_result c s :
  run_if c script_effect s =
  {| props := props s; hooks := hooks s; refs := refs s;
     fiber := {| mounted := mounted (fiber s);
                 queue := queue (fiber s) ++
                          (if c && google_maps (page s)
                           then [SetMapLoaded true] else []);
                 deps_location := deps_location (fiber s);
                 deps_init := deps_init (fiber s);
                 deps_marker := deps_marker (fiber s);
                 script_cleanup :=
                   (if c && negb (google_maps (page s))
                    then Some (new_script (GOOGLE_MAPS_API_KEY (page s)) (head (page s)))
                    else script_cleanup (fiber s)) |};
     page := {| google_maps := google_maps (page s);
                navigator := navigator (page s);
                GOOGLE_MAPS_API_KEY := GOOGLE_MAPS_API_KEY (page s);
                head := (if c && negb (google_maps (page s))
                         then head (page s)
                              ++ [new_script (GOOGLE_MAPS_API_KEY (page s)) (head (page s))]
                         else head (page s));
                loading := (if c && negb (google_maps (page s))
                            then S (list_max (map script_id (head (page s))))
                                 :: loading (page s)
                            else loading (page s));
                geo_pending := geo_pending (page s);
                maps := maps (page s);
                markers := markers (page s);
                calls := (if c && negb (google_maps (page s))
                          then AppendChild
                                 (new_script (GOOGLE_MAPS_API_KEY (page s)) (head (page s)))
                               :: calls (page s)
                          else calls (page s)) |} |}.
Proof.
  destruct s as [p h r [mt q dl di dm sc] [g nav key hd ld gp ms mk cs]].
  unfold run_if, script_effect, new_script, provider_src.
  cbn. destruct c, g; cbn; rewrite ?app_nil_r; reflexivity.
Qed.

Lemma init_effect_result c s :
  run_if c init_effect s =
  {| props := props s; hooks := hooks s;
     refs := {| mapRef := mapRef (refs s);
                googleMapRef :=
                  (if c && init_ready (hooks s) (mapRef (refs s)) (google_maps (page s))
                   then Some (length (maps (page s)))
                   else googleMapRef (refs s));
                userMarkerRef := userMarkerRef (refs s) |};
     fiber := fiber s;
     page := {| google_maps := google_maps (page s);
                navigator := navigator (page s);
                GOOGLE_MAPS_API_KEY := GOOGLE_MAPS_API_KEY (page s);
                head := head (page s);
                loading := loading (page s);
                geo_pending := geo_pending (page s);
                maps :=
                  (if c && init_ready (hooks s) (mapRef (refs s)) (google_maps (page s))
                   then maps (page s) ++ [map_options (props s) (hooks s)]
                   else maps (page s));
                markers := markers (page s);
                calls := calls (page s) |} |}.
Proof.
  destruct s as [p h [mr gr ur] f [g nav key hd ld gp ms mk cs]].
  unfold run_if, init_effect, init_ready, map_options, center_of.
  cbn. destruct c; cbn; [|reflexivity].
  destruct (mapLoaded h), mr, g; reflexivity.
Qed.

Lemma marker_effect_result c s :
  run_if c marker_effect s =
  {| props := props s; hooks := hooks s;
     refs := {| mapRef := mapRef (refs s);
                googleMapRef := googleMapRef (refs s);
                userMarkerRef :=
                  marker_ref_after
                    (if c then marker_action (googleMapRef (refs s))
                                 (userMarkerRef (refs s)) (props s) (hooks s)
                                 (google_maps (page s))
                     else NoMarkerAction)
                    (markers (page s)) (userMarkerRef (refs s)) |};
     fiber := fiber s;
     page := {| google_maps := google_maps (page s);
                navigator := navigator (page s);
                GOOGLE_MAPS_API_KEY := GOOGLE_MAPS_API_KEY (page s);
                head := head (page s);
                loading := loading (page s);
                geo_pending := geo_pending (page s);
                maps := maps (page s);
                markers :=
                  markers_after
                    (if c then marker_action (googleMapRef (refs s))
                                 (userMarkerRef (refs s)) (props s) (hooks s)
                                 (google_maps (page s))
                     else NoMarkerAction)
                    (markers (page s));
                calls := calls (page s) |} |}.
Proof.
  destruct s as [p h [mr gr ur] f [g nav key hd ld gp ms mk cs]].
  unfold run_if, marker_effect, marker_action.
  cbn. destruct c; cbn; [|reflexivity].
  destruct gr, (position h), (showUserLocation_or_default p), g, ur;
    reflexivity.
Qed.

(** One commit, as one record of what it leaves behind. *)
Lemma commit_result first s :
  commit first s =
  {| props := props s;
     hooks := hooks s;
     refs := {| mapRef := container_rendered s;
                googleMapRef := commit_map_handle first s;
                userMarkerRef :=
                  marker_ref_after (commit_marker_action first s)
                    (markers (page s)) (userMarkerRef (refs s)) |};
     fiber := {| mounted := mounted (fiber s);
                 queue := (queue (fiber s) ++
                           (if commit_reports_unsupported first s
                            then [SetErrorMsg "Geolocation is not supported by this browser"]
                            else [])) ++
                          (if first && google_maps (page s)
                           then [SetMapLoaded true] else []);
                 deps_location := location_deps (props s);
                 deps_init := init_deps (props s) (hooks s);
                 deps_marker := marker_deps (props s) (hooks s);
                 script_cleanup :=
                   (if commit_injects first s
                    then Some (new_script (GOOGLE_MAPS_API_KEY (page s)) (head (page s)))
                    else script_cleanup (fiber s)) |};
     page := {| google_maps := google_maps (page s);
                navigator := navigator (page s);
                GOOGLE_MAPS_API_KEY := GOOGLE_MAPS_API_KEY (page s);
                head := (if commit_injects first s
                         then head (page s)
                              ++ [new_script (GOOGLE_MAPS_API_KEY (page s)) (head (page s))]
                         else head (page s));
                loading := (if commit_injects first s
                            then S (list_max (map script_id (head (page s))))
                                 :: loading (page s)
                            else loading (page s));
                geo_pending := (if commit_asks_position first s
                                then S (geo_pending (page s))
                                else geo_pending (page s));
                maps := (if commit_builds_map first s
                         then maps (page s) ++ [map_options (props s) (hooks s)]
                         else maps (page s));
                markers := markers_after (commit_marker_action first s)
                             (markers (page s));
                calls := (if commit_injects first s
                          then AppendChild
                                 (new_script (GOOGLE_MAPS_API_KEY (page s)) (head (page s)))
                               :: (if commit_asks_position first s
                                   then GetCurrentPosition :: calls (page s)
                                   else calls (page s))
                          else (if commit_asks_position first s
                                then GetCurrentPosition :: calls (page s)
                                else calls (page s))) |} |}.
Proof.
  change (commit first s) with
    (record_deps
       (run_if (marker_runs first (fiber s) (props s) (hooks s)) marker_effect
          (run_if (init_runs first (fiber s) (props s) (hooks s)) init_effect
             (run_if first script_effect
                (run_if (location_runs first (fiber s) (props s)) location_effect
                   (attach_refs s)))))).
  rewrite location_effect_result. rewrite script_effect_result. cbn.
  rewrite init_effect_result. cbn.
  rewrite marker_effect_result. cbn.
  unfold record_deps, commit_marker_action, commit_map_handle,
    commit_builds_map, commit_injects, commit_asks_position,
    commit_reports_unsupported, container_rendered.
  cbn. reflexivity.
Qed.

(** *** Lists of markers *)

Lemma update_nth_length {A : Type} (f : A -> A) (l : list A) n :
  length (update_nth n f l) = length l.
Proof.
  revert n; induction l as [|x l IH]; intros [|n]; cbn; auto.
Qed.

Lemma update_nth_middle {A : Type} (f : A -> A) (l1 l2 : list A) x :
  update_nth (length l1) f (l1 ++ x :: l2) = l1 ++ f x :: l2.
Proof.
  induction l1 as [|y l1 IH]; cbn; [reflexivity|]. now rewrite IH.
Qed.

Lemma nth_error_middle {A : Type} (l1 l2 : list A) x :
  nth_error (l1 ++ x :: l2) (length l1) = Some x.
Proof.
  induction l1 as [|y l1 IH]; cbn; auto.
Qed.

Lemma filter_none {A : Type} (f : A -> bool) (l : list A) :
  Forall (fun x => f x = false) l -> filter f l = [].
Proof.
  induction 1 as [|x l Hx _ IH]; cbn; [reflexivity|]. now rewrite Hx.
Qed.

Lemma attached_markers_of_consistent handle l :
  markers_consistent handle l ->
  match handle with
  | Some i => exists m, nth_error l i = Some m /\ filter attached l = [m]
  | None => filter attached l = []
  end.
Proof.
  destruct handle as [i|]; cbn.
  - intros (l1 & m & l2 & -> & <- & Hm & H1 & H2).
    exists m. split; [apply nth_error_middle|].
    rewrite filter_app. cbn. rewrite Hm.
    now rewrite (filter_none _ _ H1), (filter_none _ _ H2).
  - apply filter_none.
Qed.

Lemma markers_consistent_action gr ur p h g l :
  markers_consistent ur l ->
  markers_consistent
    (marker_ref_after (marker_action gr ur p h g) l ur)
    (markers_after (marker_action gr ur p h g) l).
Proof.
  intros H. unfold marker_action. destruct ur as [i|].
  - destruct H as (l1 & m & l2 & -> & <- & Hm & H1 & H2).
    destruct gr as [map|], (position h) as [pos|],
      (showUserLocation_or_default p), g;
      unfold marker_ref_after, markers_after, markers_consistent; cbn;
      rewrite ?update_nth_middle.
    all: try (exists l1, m, l2; now auto).
    all: try (exists l1, (setPosition (latlng_of pos) m), l2; now auto).
    all: apply Forall_app; split;
      [exact H1 | constructor; [reflexivity | exact H2]].
  - destruct gr as [map|], (position h) as [pos|],
      (showUserLocation_or_default p), g;
      unfold marker_ref_after, markers_after; cbn; try exact H.
    exists l, (new_marker map pos), []. repeat split; auto.
Qed.

(** *** Dependency comparisons *)

Lemma same_number_refl x : same_number x x = true.
Proof. destruct x; cbn; [apply Qeq_bool_iff; reflexivity | reflexivity ..]. Qed.

Lemma same_deps_init_refl d : same_deps_init d d = true.
Proof.
  destruct d as [l [[x y] z]]. unfold same_deps_init.
  now rewrite Bool.eqb_reflx, !same_number_refl.
Qed.

Lemma same_deps_marker_eq a b : same_deps_marker a b = true -> a = b.
Proof.
  destruct a as [[ia sa] la], b as [[ib sb] lb]. unfold same_deps_marker.
  rewrite !andb_true_iff. intros [[H1 H2] H3].
  apply Nat.eqb_eq in H1. apply Bool.eqb_prop in H2, H3. congruence.
Qed.

Lemma same_deps_marker_refl a : same_deps_marker a a = true.
Proof.
  destruct a as [[ia sa] la]. unfold same_deps_marker.
  now rewrite Nat.eqb_refl, !Bool.eqb_reflx.
Qed.

Lemma update_nth_nil {A : Type} (f : A -> A) n : update_nth n f [] = [].
Proof. now destruct n. Qed.

(** *** One commit keeps the component consistent *)

Lemma marker_runs_false f p h :
  marker_runs false f p h = false -> deps_marker f = marker_deps p h.
Proof.
  unfold marker_runs. cbn. intros H. apply negb_false_iff in H.
  now apply same_deps_marker_eq.
Qed.

Lemma init_deps_same_reading p p' h h' pos :
  position h = Some pos -> position h' = Some pos ->
  mapLoaded h = mapLoaded h' ->
  init_deps p h = init_deps p' h'.
Proof.
  intros H1 H2 H3. unfold init_deps, mapRegion. now rewrite H1, H2, H3.
Qed.

Lemma commit_consistent s s0 :
  consistent s -> evolves s s0 -> consistent (commit false s0).
Proof.
  intros C E. rewrite commit_result.
  destruct C as [[Dl [Di Dm]] Cerr Ccont Cload Cmap Cmk Cneeds Cplaced Chist Cinj Cscr].
  destruct E as [Er Emt Eq Edl Edi Edm Ecl Ems Emk Ehd Einj Eg Eerr Eld Eldg Epos Esame].
  assert (Hloaded : commit_map_handle false s0 <> None ->
                    mapLoaded (hooks s0) = true).
  { unfold commit_map_handle, commit_builds_map, init_ready.
    destruct (init_runs false (fiber s0) (props s0) (hooks s0)); cbn.
    - destruct (mapLoaded (hooks s0)); cbn; auto.
      rewrite Er. intros H.
      destruct (googleMapRef (refs s)) as [g|] eqn:Hg; [|congruence].
      destruct (Cmap g eq_refl) as [Hl _]. auto.
    - rewrite Er. intros H.
      destruct (googleMapRef (refs s)) as [g|] eqn:Hg; [|congruence].
      destruct (Cmap g eq_refl) as [Hl _]. auto. }
  assert (Hgoogle : commit_map_handle false s0 <> None ->
                    google_maps (page s0) = true) by auto.
  assert (Hkeep : googleMapRef (refs s) <> None ->
                  commit_map_handle false s0 <> None).
  { unfold commit_map_handle. destruct (commit_builds_map false s0);
      [discriminate | now rewrite Er]. }
  assert (Hquiet :
            marker_runs false (fiber s0) (props s0) (hooks s0) = false ->
            showUserLocation_or_default (props s0)
            = showUserLocation_or_default (props s)
            /\ position (hooks s0) = position (hooks s)
            /\ (position (hooks s) <> None ->
                commit_map_handle false s0 = googleMapRef (refs s))).
  { intros Hrun. apply marker_runs_false in Hrun. rewrite Edm, Dm in Hrun.
    unfold marker_deps in Hrun. injection Hrun as H1 H2 H3.
    assert (Hp : position (hooks s0) = position (hooks s)) by auto.
    repeat split; auto.
    intros Hpos. destruct (position (hooks s)) as [pos|] eqn:Hps; [|congruence].
    unfold commit_map_handle, commit_builds_map, init_runs.
    rewrite Edi, Di.
    rewrite (init_deps_same_reading (props s) (props s0) (hooks s) (hooks s0) pos)
      by auto.
    rewrite same_deps_init_refl. cbn. now rewrite Er. }
  unfold commit_marker_action.
  split; cbn; rewrite ?Er, ?Emk, ?Ems, ?Ehd, ?Ecl, ?Emt.
  - (* deps *) repeat split.
  - (* error *) exact Eerr.
  - (* container *) reflexivity.
  - (* loaded *) exact Eldg.
  - (* map *)
    intros g Hg. split; [apply Hloaded; congruence|].
    unfold commit_map_handle in Hg.
    destruct (commit_builds_map false s0).
    + injection Hg as <-. rewrite Ems, length_app. cbn. lia.
    + rewrite Er in Hg. now apply Cmap.
  - (* markers *)
    destruct (marker_runs false (fiber s0) (props s0) (hooks s0));
      [now apply markers_consistent_action | exact Cmk].
  - (* marker needs *)
    destruct (marker_runs false (fiber s0) (props s0) (hooks s0)) eqn:Hrun.
    + intros Hu.
      assert (Hor : (commit_map_handle false s0 <> None
                     /\ position (hooks s0) <> None
                     /\ showUserLocation_or_default (props s0) = true)
                    \/ (userMarkerRef (refs s) <> None
                        /\ showUserLocation_or_default (props s0) = true)).
      { revert Hu. unfold marker_action.
        destruct (commit_map_handle false s0) as [g|],
          (position (hooks s0)) as [pos|],
          (showUserLocation_or_default (props s0)),
          (google_maps (page s0)),
          (userMarkerRef (refs s)) as [i|];
          unfold marker_ref_after; cbn; intros Hu;
          try congruence;
          try (left; repeat split; congruence);
          try (right; split; congruence). }
      destruct Hor as [H | [Hu' Hs]]; [exact H|].
      destruct (Cneeds Hu') as (N1 & N2 & N3).
      repeat split; auto.
    + unfold marker_ref_after. intros Hu.
      destruct (Cneeds Hu) as (N1 & N2 & N3).
      destruct (Hquiet eq_refl) as (Q1 & Q2 & Q3).
      repeat split; auto; congruence.
  - (* marker placed *)
    intros g pos Hh Hp Hs. unfold user_marker; cbn.
    destruct (marker_runs false (fiber s0) (props s0) (hooks s0)) eqn:Hrun.
    + assert (Hg : google_maps (page s0) = true) by (apply Hgoogle; congruence).
      unfold marker_action. rewrite Hh, Hp, Hs, Hg. cbn.
      destruct (userMarkerRef (refs s)) as [i|] eqn:Hu;
        unfold marker_ref_after, markers_after.
      * destruct Cmk as (l1 & m & l2 & -> & <- & Hm & H1 & H2).
        rewrite update_nth_middle, nth_error_middle.
        now exists (setPosition (latlng_of pos) m).
      * rewrite nth_error_middle. now exists (new_marker g pos).
    + destruct (Hquiet eq_refl) as (Q1 & Q2 & Q3).
      unfold marker_ref_after, markers_after.
      apply (Cplaced g pos); try congruence.
      rewrite <- Q3; [exact Hh | congruence].
  - (* history *)
    intros Hne.
    assert (Hor : (commit_map_handle false s0 <> None
                   /\ position (hooks s0) <> None)
                  \/ markers (page s) <> []).
    { revert Hne.
      destruct (marker_runs false (fiber s0) (props s0) (hooks s0));
        [|now right].
      unfold marker_action.
      destruct (commit_map_handle false s0) as [g|],
        (position (hooks s0)) as [pos|],
        (showUserLocation_or_default (props s0)),
        (google_maps (page s0)),
        (userMarkerRef (refs s)) as [i|];
        unfold markers_after; cbn; intros Hne;
        try (left; split; congruence);
        try (right; exact Hne);
        right; intros Hnil; apply Hne; rewrite Hnil;
        rewrite ?update_nth_nil; reflexivity. }
    destruct Hor as [H | H]; [exact H|].
    destruct (Chist H) as [N1 N2]. auto.
  - (* injections *)
    rewrite <- Cinj, <- Einj. unfold injections; cbn.
    now destruct (commit_asks_position false s0).
  - (* script *)
    exact Cscr.
Qed.

(** *** Queued updates *)

Lemma hooks_evolve_refl google h : hooks_evolve google h h.
Proof. split; auto. Qed.

Lemma hooks_evolve_step google h h' u :
  update_ok google u -> hooks_evolve google h h' ->
  hooks_evolve google h (apply_update h' u).
Proof.
  intros Hu [H1 H2 H3 H4 H5 H6].
  destruct u as [pos|msg|b]; cbn in Hu; split; cbn; auto;
    try lia; try (intros; discriminate); try (intros; lia).
  - intros _ msg' [= <-]. exact Hu.
  - intros _. now destruct Hu.
  - intros _ _. now destruct Hu.
Qed.

Lemma hooks_evolve_queue google q :
  Forall (update_ok google) q ->
  forall h h', hooks_evolve google h h' ->
               hooks_evolve google h (fold_left apply_update q h').
Proof.
  induction 1 as [|u q Hu _ IH]; cbn; intros h h' H; [exact H|].
  apply IH. now apply hooks_evolve_step.
Qed.

(** Applying the queue of a consistent state leaves a state ready for the
    next commit. *)
Lemma evolves_apply_queue s :
  consistent s ->
  Forall (update_ok (google_maps (page s))) (queue (fiber s)) ->
  evolves s (apply_queue s).
Proof.
  intros C Hq.
  pose proof (hooks_evolve_queue _ _ Hq (hooks s) (hooks s)
                (hooks_evolve_refl _ _)) as [H1 H2 H3 H4 H5 H6].
  destruct C as [_ Cerr _ Cload _ _ _ _ _ _ _].
  split; cbn; auto.
Qed.

Lemma evolves_with_props s p :
  invariant s -> evolves s (with_props p s).
Proof.
  intros [Hq C]. destruct C as [_ Cerr _ Cload _ _ _ _ _ _ _].
  split; cbn; auto.
Qed.

(** A handler that touches the page and queues updates keeps the
    component consistent. *)
Lemma consistent_handler s pg' u :
  consistent s -> page_compatible (page s) pg' ->
  consistent (enqueue u (with_page pg' s)).
Proof.
  intros [D Cerr Ccont Cload Cmap Cmk Cneeds Cplaced Chist Cinj Cscr]
         [P1 P2 P3 P4 P5].
  split; cbn; auto.
  - intros g Hg. rewrite P1. auto.
  - now rewrite P2.
  - unfold user_marker; cbn. rewrite P2. exact Cplaced.
  - now rewrite P2.
  - unfold injections in *; cbn. now rewrite P4.
  - intros el. rewrite P3. apply Cscr.
Qed.

(** *** Rendering until the queue is empty *)

Lemma flush_unfold n s :
  flush (S n) s =
  match queue (fiber s) with
  | [] => s
  | _ :: _ => flush n (rerender s)
  end.
Proof. reflexivity. Qed.

Lemma flush_nil n s : queue (fiber s) = [] -> flush n s = s.
Proof.
  intros H. destruct n; [reflexivity|]. now rewrite flush_unfold, H.
Qed.

Lemma location_runs_settled s :
  deps_location (fiber s) = location_deps (props s) ->
  location_runs false (fiber s) (props s) = false.
Proof.
  intros H. unfold location_runs. rewrite H. cbn.
  now rewrite Bool.eqb_reflx.
Qed.

Lemma queue_commit_false s :
  queue (fiber s) = [] ->
  deps_location (fiber s) = location_deps (props s) ->
  queue (fiber (commit false s)) = [].
Proof.
  intros Hq Hd. rewrite commit_result; cbn. rewrite Hq.
  unfold commit_reports_unsupported. now rewrite location_runs_settled.
Qed.

Lemma queue_rerender s :
  deps_location (fiber s) = location_deps (props s) ->
  queue (fiber (rerender s)) = [].
Proof.
  intros Hd. unfold rerender. apply queue_commit_false; cbn; auto.
Qed.

Lemma flush_settle n s :
  deps_location (fiber s) = location_deps (props s) ->
  flush (S n) s = settle s.
Proof.
  intros Hd. unfold settle. rewrite flush_unfold.
  destruct (queue (fiber s)) eqn:Hq; [reflexivity|].
  apply flush_nil. now apply (queue_rerender s).
Qed.

Lemma settle_invariant s :
  consistent s ->
  Forall (update_ok (google_maps (page s))) (queue (fiber s)) ->
  invariant (settle s).
Proof.
  intros C Hq. unfold settle.
  destruct (queue (fiber s)) eqn:Hqs.
  - split; assumption.
  - split.
    + apply queue_rerender. now destruct C as [[? _] _ _ _ _ _ _ _ _ _ _].
    + apply (commit_consistent s); [exact C|].
      apply evolves_apply_queue; [exact C | now rewrite Hqs].
Qed.

(** *** Every event keeps the invariant *)

Lemma queue_commit_ok first s :
  queue (fiber s) = [] ->
  Forall (update_ok (google_maps (page (commit first s))))
    (queue (fiber (commit first s))).
Proof.
  intros Hq. rewrite commit_result; cbn. rewrite Hq; cbn.
  destruct (commit_reports_unsupported first s), first,
    (google_maps (page s)); cbn; repeat constructor; discriminate.
Qed.

Lemma consistent_initial p google nav key scripts :
  consistent (commit true (initial p (fresh_page google nav key scripts))).
Proof.
  rewrite commit_result.
  unfold commit_marker_action, commit_map_handle, commit_builds_map,
    init_ready, marker_action, marker_ref_after, markers_after,
    commit_injects, commit_asks_position, injections, user_marker,
    container_rendered.
  cbn. rewrite !andb_false_r.
  split; cbn; try discriminate; try congruence.
  - repeat split.
  - reflexivity.
  - destruct (marker_runs true _ _ _); constructor.
  - now destruct (marker_runs true _ _ _).
  - now destruct (marker_runs true _ _ _).
  - destruct google, (location_runs true _ _ && asks_position p nav);
      reflexivity.
  - intros el _. destruct google; cbn; [discriminate|].
    intros [= <-]. apply in_or_app. right. now left.
Qed.

Lemma mount_invariant p google nav key scripts :
  invariant (mount p (fresh_page google nav key scripts)).
Proof.
  unfold mount, NESTED_UPDATE_LIMIT.
  pose proof (consistent_initial p google nav key scripts) as C.
  rewrite flush_settle by (now destruct C as [[? _] _ _ _ _ _ _ _ _ _ _]).
  apply settle_invariant; [exact C|].
  now apply queue_commit_ok.
Qed.

Lemma consistent_with_page s pg' :
  consistent s -> page_compatible (page s) pg' ->
  consistent (with_page pg' s).
Proof.
  intros [D Cerr Ccont Cload Cmap Cmk Cneeds Cplaced Chist Cinj Cscr]
         [P1 P2 P3 P4 P5].
  split; cbn; auto.
  - intros g Hg. rewrite P1. auto.
  - now rewrite P2.
  - unfold user_marker; cbn. rewrite P2. exact Cplaced.
  - now rewrite P2.
  - unfold injections in *; cbn. now rewrite P4.
  - intros el. rewrite P3. apply Cscr.
Qed.

Lemma handler_invariant s pg' u :
  invariant s -> page_compatible (page s) pg' ->
  update_ok (google_maps pg') u ->
  invariant (flush NESTED_UPDATE_LIMIT (enqueue u (with_page pg' s))).
Proof.
  intros [Hq C] P Hu. unfold NESTED_UPDATE_LIMIT.
  pose proof (consistent_handler s pg' u C P) as C1.
  rewrite flush_settle by (now destruct C1 as [[? _] _ _ _ _ _ _ _ _ _ _]).
  apply settle_invariant; [exact C1|].
  cbn. rewrite Hq. cbn. now constructor.
Qed.

Lemma unmount_invariant s : invariant s -> invariant (unmount s).
Proof.
  intros [Hq [D Cerr Ccont Cload Cmap Cmk Cneeds Cplaced Chist Cinj Cscr]].
  unfold unmount, script_effect_cleanup.
  destruct (script_cleanup (fiber s)) as [script|] eqn:Hsc;
    [destruct (head_contains script (page s))|];
    (split; [exact Hq|]); split; cbn; rewrite ?Hsc; auto; discriminate.
Qed.

Lemma step_invariant s e s' :
  invariant s -> step s e = Some s' -> invariant s'.
Proof.
  intros I. unfold step.
  destruct (mounted (fiber s)) eqn:Hm; cbn; [|discriminate].
  destruct e as [pos|message| | | |p|].
  - destruct (geo_pending (page s)); [discriminate|]. intros [= <-].
    apply handler_invariant; [exact I | now split | exact Logic.I].
  - destruct (geo_pending (page s)); [discriminate|]. intros [= <-].
    apply handler_invariant; [exact I | now split | discriminate].
  - destruct (own_script_loading s); [|discriminate]. intros [= <-].
    apply handler_invariant; [exact I | now split | now split].
  - destruct (own_script_loading s); [|discriminate]. intros [= <-].
    apply handler_invariant; [exact I | now split | discriminate].
  - intros [= <-]. destruct I as [Hq C]. split; [exact Hq|].
    apply consistent_with_page; [exact C | now split].
  - intros [= <-]. unfold NESTED_UPDATE_LIMIT.
    assert (C : consistent (commit false (with_props p s))).
    { apply (commit_consistent s); [now destruct I|].
      now apply evolves_with_props. }
    rewrite flush_settle by (now destruct C as [[? _] _ _ _ _ _ _ _ _ _ _]).
    apply settle_invariant; [exact C|].
    apply queue_commit_ok. cbn. now destruct I.
  - intros [= <-]. now apply unmount_invariant.
Qed.

Lemma run_invariant es : forall s s',
  invariant s -> run s es = Some s' -> invariant s'.
Proof.
  induction es as [|e es IH]; cbn; intros s s' I H.
  - now injection H as <-.
  - destruct (step s e) as [s1|] eqn:Hs; [|discriminate].
    apply (IH s1); [|exact H]. now apply (step_invariant s e).
Qed.

Lemma reachable_invariant s : reachable s -> invariant s.
Proof.
  intros (p & google & nav & key & scripts & es & H).
  apply (run_invariant es _ _ (mount_invariant p google nav key scripts) H).
Qed.

(** *** A step is one commit *)

Lemma rerender_handler s pg' u :
  queue (fiber s) = [] ->
  rerender (enqueue u (with_page pg' s)) = commit false (updated u pg' s).
Proof.
  destruct s as [p h r [mt q dl di dm sc] pg]. cbn. intros ->. reflexivity.
Qed.

Lemma flush_handler s pg' u :
  invariant s ->
  flush NESTED_UPDATE_LIMIT (enqueue u (with_page pg' s))
  = commit false (updated u pg' s).
Proof.
  intros [Hq [[Dl _] _ _ _ _ _ _ _ _ _ _]]. unfold NESTED_UPDATE_LIMIT.
  rewrite flush_settle by exact Dl.
  unfold settle. cbn. rewrite Hq. cbn.
  now apply (rerender_handler s pg' u).
Qed.

Lemma step_next s e : invariant s -> step s e = next s e.
Proof.
  intros I. unfold step, next.
  destruct (negb (mounted (fiber s))); [reflexivity|].
  destruct e as [pos|message| | | |p|]; try reflexivity.
  - destruct (geo_pending (page s)); [reflexivity|].
    now rewrite flush_handler.
  - destruct (geo_pending (page s)); [reflexivity|].
    now rewrite flush_handler.
  - destruct (own_script_loading s); [|reflexivity].
    now rewrite flush_handler.
  - destruct (own_script_loading s); [|reflexivity].
    now rewrite flush_handler.
  - unfold NESTED_UPDATE_LIMIT. rewrite flush_settle; [reflexivity|].
    now rewrite commit_result.
Qed.

(** What the second render after a change of props does: it happens only
    when the first one reported that geolocation is unsupported, it records
    the message, detaches the container and runs no effect. *)
Lemma settle_commit_props s p :
  invariant s ->
  let c := commit false (with_props p s) in
  props (settle c) = p
  /\ position (hooks (settle c)) = position (hooks s)
  /\ position_identity (hooks (settle c)) = position_identity (hooks s)
  /\ mapLoaded (hooks (settle c)) = mapLoaded (hooks s)
  /\ googleMapRef (refs (settle c)) = googleMapRef (refs c)
  /\ userMarkerRef (refs (settle c)) = userMarkerRef (refs c)
  /\ page (settle c) = page c
  /\ script_cleanup (fiber (settle c)) = script_cleanup (fiber s)
  /\ mounted (fiber (settle c)) = mounted (fiber s).
Proof.
  intros [Hq C] c. unfold settle.
  assert (Hc : queue (fiber c) = [] \/
               queue (fiber c)
               = [SetErrorMsg "Geolocation is not supported by this browser"]).
  { unfold c. rewrite commit_result; cbn. rewrite Hq; cbn.
    destruct (commit_reports_unsupported false (with_props p s)); auto. }
  destruct Hc as [Hc | Hc]; rewrite Hc.
  - unfold c. rewrite commit_result; cbn. repeat split.
  - unfold rerender. rewrite (commit_result false (apply_queue c)).
    unfold commit_marker_action, commit_map_handle, commit_builds_map,
      commit_injects, commit_asks_position, init_runs, marker_runs,
      location_runs.
    cbn. rewrite Hc; cbn.
    unfold c. rewrite commit_result; cbn.
    unfold init_deps, marker_deps, mapRegion; cbn.
    rewrite same_deps_init_refl, same_deps_marker_refl, Bool.eqb_reflx.
    cbn. repeat split.
Qed.

(** *** What a commit leaves, field by field *)

Lemma commit_props first s : props (commit first s) = props s.
Proof. now rewrite commit_result. Qed.

Lemma commit_hooks first s : hooks (commit first s) = hooks s.
Proof. now rewrite commit_result. Qed.

Lemma commit_mounted first s :
  mounted (fiber (commit first s)) = mounted (fiber s).
Proof. now rewrite commit_result. Qed.

Lemma commit_mapRef first s :
  mapRef (refs (commit first s)) = container_rendered s.
Proof. now rewrite commit_result. Qed.

Lemma commit_googleMapRef first s :
  googleMapRef (refs (commit first s)) = commit_map_handle first s.
Proof. now rewrite commit_result. Qed.

Lemma commit_userMarkerRef first s :
  userMarkerRef (refs (commit first s))
  = marker_ref_after (commit_marker_action first s) (markers (page s))
      (userMarkerRef (refs s)).
Proof. now rewrite commit_result. Qed.

Lemma commit_markers first s :
  markers (page (commit first s))
  = markers_after (commit_marker_action first s) (markers (page s)).
Proof. now rewrite commit_result. Qed.

Lemma commit_google_maps first s :
  google_maps (page (commit first s)) = google_maps (page s).
Proof. now rewrite commit_result. Qed.

Lemma commit_cleanup s :
  script_cleanup (fiber (commit false s)) = script_cleanup (fiber s).
Proof. now rewrite commit_result. Qed.

Lemma commit_head s : head (page (commit false s)) = head (page s).
Proof. now rewrite commit_result. Qed.

Lemma commit_calls s :
  calls (page (commit false s))
  = if commit_asks_position false s
    then GetCurrentPosition :: calls (page s) else calls (page s).
Proof. now rewrite commit_result. Qed.

Lemma commit_requests first s :
  position_requests (commit first s)
  = if commit_asks_position first s
    then S (position_requests s) else position_requests s.
Proof.
  unfold position_requests. rewrite commit_result; cbn.
  now destruct (commit_injects first s), (commit_asks_position first s).
Qed.

Lemma commit_queue_first first s :
  queue (fiber s) = [] ->
  queue (fiber (commit first s))
  = (if commit_reports_unsupported first s
     then [SetErrorMsg "Geolocation is not supported by this browser"]
     else [])
    ++ (if first && google_maps (page s) then [SetMapLoaded true] else []).
Proof. intros Hq. rewrite commit_result; cbn. now rewrite Hq. Qed.

Lemma commit_geo_pending first s :
  geo_pending (page (commit first s))
  = if commit_asks_position first s
    then S (geo_pending (page s)) else geo_pending (page s).
Proof. now rewrite commit_result. Qed.

Lemma commit_queue s :
  queue (fiber s) = [] ->
  queue (fiber (commit false s))
  = if commit_reports_unsupported false s
    then [SetErrorMsg "Geolocation is not supported by this browser"]
    else [].
Proof.
  intros Hq. rewrite commit_result; cbn. rewrite Hq; cbn.
  now rewrite app_nil_r.
Qed.

(** The maps a commit leaves: those it found, and at most one more, built
    from the region of this render. *)
Lemma commit_maps first s :
  maps (page (commit first s)) =
  maps (page s)
  ++ (if commit_builds_map first s
      then [map_options (props s) (hooks s)] else []).
Proof.
  rewrite commit_result; cbn.
  destruct (commit_builds_map first s); [reflexivity | now rewrite app_nil_r].
Qed.

(** *** Which steps build a map *)

Lemma init_deps_ext p h h' :
  position h = position h' -> mapLoaded h = mapLoaded h' ->
  init_deps p h = init_deps p h'.
Proof.
  intros H1 H2. unfold init_deps, mapRegion. now rewrite H1, H2.
Qed.

Lemma map_options_ext p h h' :
  position h = position h' -> map_options p h = map_options p h'.
Proof.
  intros H. unfold map_options, mapRegion. now rewrite H.
Qed.

Lemma center_of_mapRegion p h :
  center_of (mapRegion p h) = spec_center p (position h).
Proof.
  unfold mapRegion, spec_center, center_of.
  destruct (position h); [reflexivity|]. now destruct (initialRegion p).
Qed.

Lemma commit_builds_map_quiet s s0 :
  deps_init (fiber s0) = init_deps (props s) (hooks s) ->
  same_deps_init (init_deps (props s) (hooks s))
    (init_deps (props s0) (hooks s0)) = true ->
  commit_builds_map false s0 = false.
Proof.
  intros Hd Hs. unfold commit_builds_map, init_runs. rewrite Hd, Hs.
  reflexivity.
Qed.

(** What a step does to the list of maps, in terms of the state it
    reaches. *)
Lemma step_maps s e s' :
  invariant s -> step s e = Some s' ->
  exists built : bool,
    maps (page s')
    = maps (page s)
      ++ (if built then [map_options (props s') (hooks s')] else [])
    /\ (same_deps_init (init_deps (props s) (hooks s))
          (init_deps (props s') (hooks s')) = true -> built = false)
    /\ (built = true -> googleMapRef (refs s') = Some (length (maps (page s)))).
Proof.
  intros I Hstep. rewrite (step_next s e I) in Hstep.
  pose proof I as [Hq [[Dl [Di Dm]] Cerr Ccont Cload Cmap _ _ _ _ _ _]].
  unfold next in Hstep.
  destruct (mounted (fiber s)) eqn:Hm; cbn in Hstep; [|discriminate].
  assert (Hcommit : forall s0,
            deps_init (fiber s0) = init_deps (props s) (hooks s) ->
            maps (page s0) = maps (page s) ->
            exists built : bool,
              maps (page (commit false s0))
              = maps (page s)
                ++ (if built
                    then [map_options (props (commit false s0))
                            (hooks (commit false s0))]
                    else [])
              /\ (same_deps_init (init_deps (props s) (hooks s))
                    (init_deps (props (commit false s0))
                       (hooks (commit false s0))) = true -> built = false)
              /\ (built = true ->
                  googleMapRef (refs (commit false s0))
                  = Some (length (maps (page s))))).
  { intros s0 Hd Hmaps. exists (commit_builds_map false s0).
    rewrite commit_maps, Hmaps, commit_props, commit_hooks,
      commit_googleMapRef.
    repeat split.
    - now apply commit_builds_map_quiet.
    - intros Hb. unfold commit_map_handle. now rewrite Hb, Hmaps. }
  destruct e as [pos|message| | | |p|].
  - destruct (geo_pending (page s)); [discriminate|].
    injection Hstep as <-. apply Hcommit; cbn; auto.
  - destruct (geo_pending (page s)); [discriminate|].
    injection Hstep as <-. apply Hcommit; cbn; auto.
  - destruct (own_script_loading s); [|discriminate].
    injection Hstep as <-. apply Hcommit; cbn; auto.
  - destruct (own_script_loading s); [|discriminate].
    injection Hstep as <-. apply Hcommit; cbn; auto.
  - injection Hstep as <-. exists false. cbn. rewrite app_nil_r.
    repeat split; discriminate.
  - injection Hstep as <-.
    destruct (settle_commit_props s p I)
      as (S1 & S2 & S3 & S4 & S5 & S6 & S7 & S8 & S9).
    destruct (Hcommit (with_props p s)) as (built & B1 & B2 & B3);
      cbn; auto.
    exists built. rewrite S7, S5, S1.
    rewrite commit_props, commit_hooks in B1, B2. cbn in B1, B2.
    rewrite (init_deps_ext p _ (hooks s)) by assumption.
    rewrite (map_options_ext p _ (hooks s)) by assumption.
    repeat split; assumption.
  - injection Hstep as <-. exists false. rewrite app_nil_r.
    unfold unmount, script_effect_cleanup.
    destruct (script_cleanup (fiber s)); [destruct (head_contains _ _)|];
      cbn; repeat split; discriminate.
Qed.

(** A reading that arrives while the map is shown and moves the center
    builds a new map there. *)
Lemma reading_rebuilds_map s pos s' :
  invariant s -> step s (PositionReceived pos) = Some s' ->
  mapLoaded (hooks s) = true -> errorMsg (hooks s) = None ->
  same_deps_init (init_deps (props s) (hooks s))
    (init_deps (props s') (hooks s')) = false ->
  maps (page s')
  = maps (page s) ++ [{| map_center := latlng_of pos;
                         map_zoom := zoom 0.0922 |}]
  /\ googleMapRef (refs s') = Some (length (maps (page s))).
Proof.
  intros I Hstep Hl He Hd. rewrite (step_next s _ I) in Hstep.
  pose proof I as [Hq [[Dl [Di Dm]] Cerr Ccont Cload Cmap _ _ _ _ _ _]].
  unfold next in Hstep.
  destruct (mounted (fiber s)) eqn:Hm; cbn in Hstep; [|discriminate].
  destruct (geo_pending (page s)); [discriminate|].
  injection Hstep as <-.
  rewrite commit_props, commit_hooks in Hd. cbn in Hd.
  assert (Hb : commit_builds_map false
                 (updated (SetPosition pos) (with_geo_pending n (page s)) s)
               = true).
  { unfold commit_builds_map, init_runs, init_ready, container_rendered.
    cbn. rewrite Di, Hd, Hl, He, (Cload Hl). reflexivity. }
  rewrite commit_maps, commit_googleMapRef. unfold commit_map_handle.
  rewrite Hb. cbn. split; reflexivity.
Qed.

(** *** The user's marker *)

Lemma marker_shown s pos :
  invariant s ->
  googleMapRef (refs s) <> None -> position (hooks s) = Some pos ->
  showUserLocation_or_default (props s) = true ->
  exists m,
    user_marker s = Some m /\ attached_markers s = [m]
    /\ marker_position m = latlng_of pos.
Proof.
  intros [_ C] Hg Hp Hs.
  destruct (googleMapRef (refs s)) as [g|] eqn:Hgr; [|congruence].
  destruct (cons_marker_placed s C g pos Hgr Hp Hs) as (m & Hm & Hpos).
  exists m. repeat split; auto.
  pose proof (attached_markers_of_consistent _ _ (cons_markers s C)) as H.
  unfold user_marker in Hm. unfold attached_markers.
  destruct (userMarkerRef (refs s)) as [i|]; [|discriminate].
  destruct H as (m' & Hn & Hf). congruence.
Qed.

Lemma at_most_one_marker s :
  invariant s -> length (attached_markers s) <= 1.
Proof.
  intros [_ C].
  pose proof (attached_markers_of_consistent _ _ (cons_markers s C)) as H.
  unfold attached_markers.
  destruct (userMarkerRef (refs s)).
  - destruct H as (m & _ & ->). cbn. lia.
  - rewrite H. cbn. lia.
Qed.

Lemma no_marker_when_hidden s :
  invariant s -> showUserLocation_or_default (props s) = false ->
  userMarkerRef (refs s) = None /\ attached_markers s = [].
Proof.
  intros [_ C] Hs.
  assert (Hu : userMarkerRef (refs s) = None).
  { destruct (userMarkerRef (refs s)) eqn:Hu; [|reflexivity].
    destruct (cons_marker_needs s C) as (_ & _ & H); congruence. }
  split; [exact Hu|].
  pose proof (attached_markers_of_consistent _ _ (cons_markers s C)) as H.
  now rewrite Hu in H.
Qed.

Lemma markers_after_length a l :
  length l <= length (markers_after a l).
Proof.
  destruct a; unfold markers_after; rewrite ?update_nth_length, ?length_app;
    cbn; lia.
Qed.

Lemma step_props s e s' :
  invariant s -> step s e = Some s' ->
  props s' = match e with PropsChanged p => p | _ => props s end.
Proof.
  intros I Hstep. rewrite (step_next s e I) in Hstep. unfold next in Hstep.
  destruct (negb (mounted (fiber s))); [discriminate|].
  destruct e as [pos|message| | | |p|].
  - destruct (geo_pending (page s)); [discriminate|].
    injection Hstep as <-. now rewrite commit_props.
  - destruct (geo_pending (page s)); [discriminate|].
    injection Hstep as <-. now rewrite commit_props.
  - destruct (own_script_loading s); [|discriminate].
    injection Hstep as <-. now rewrite commit_props.
  - destruct (own_script_loading s); [|discriminate].
    injection Hstep as <-. now rewrite commit_props.
  - now injection Hstep as <-.
  - injection Hstep as <-. now destruct (settle_commit_props s p I).
  - injection Hstep as <-. unfold unmount, script_effect_cleanup.
    destruct (script_cleanup (fiber s)); [destruct (head_contains _ _)|];
      reflexivity.
Qed.

Lemma step_markers_length s e s' :
  invariant s -> step s e = Some s' ->
  length (markers (page s)) <= length (markers (page s')).
Proof.
  intros I Hstep. rewrite (step_next s e I) in Hstep. unfold next in Hstep.
  destruct (negb (mounted (fiber s))); [discriminate|].
  destruct e as [pos|message| | | |p|].
  - destruct (geo_pending (page s)); [discriminate|].
    injection Hstep as <-. rewrite commit_markers. apply markers_after_length.
  - destruct (geo_pending (page s)); [discriminate|].
    injection Hstep as <-. rewrite commit_markers. apply markers_after_length.
  - destruct (own_script_loading s); [|discriminate].
    injection Hstep as <-. rewrite commit_markers. apply markers_after_length.
  - destruct (own_script_loading s); [|discriminate].
    injection Hstep as <-. rewrite commit_markers. apply markers_after_length.
  - injection Hstep as <-. reflexivity.
  - injection Hstep as <-.
    destruct (settle_commit_props s p I)
      as (_ & _ & _ & _ & _ & _ & -> & _).
    rewrite commit_markers. apply markers_after_length.
  - injection Hstep as <-. unfold unmount, script_effect_cleanup.
    destruct (script_cleanup (fiber s)); [destruct (head_contains _ _)|];
      reflexivity.
Qed.

Lemma step_reading s pos s' :
  invariant s -> step s (PositionReceived pos) = Some s' ->
  position (hooks s') = Some pos.
Proof.
  intros I Hstep. rewrite (step_next s _ I) in Hstep. unfold next in Hstep.
  destruct (negb (mounted (fiber s))); [discriminate|].
  destruct (geo_pending (page s)); [discriminate|].
  injection Hstep as <-. now rewrite commit_hooks.
Qed.

(** A marker object was built: the map and a reading are still there. *)
Lemma marker_history s :
  invariant s -> markers (page s) <> [] ->
  googleMapRef (refs s) <> None /\ position (hooks s) <> None.
Proof. intros [_ C]. apply (cons_marker_history s C). Qed.

Lemma eqb_succ n : Nat.eqb n (S n) = false.
Proof. apply Nat.eqb_neq. lia. Qed.

(** A new reading moves the marker that exists. *)
Lemma reading_moves_marker s pos s' i :
  invariant s -> userMarkerRef (refs s) = Some i ->
  step s (PositionReceived pos) = Some s' ->
  userMarkerRef (refs s') = Some i
  /\ markers (page s')
     = update_nth i (setPosition (latlng_of pos)) (markers (page s)).
Proof.
  intros I Hu Hstep. rewrite (step_next s _ I) in Hstep. unfold next in Hstep.
  destruct (negb (mounted (fiber s))); [discriminate|].
  destruct (geo_pending (page s)); [discriminate|].
  injection Hstep as <-.
  pose proof I as [Hq [[Dl [Di Dm]] Cerr Ccont Cload Cmap _ Cneeds _ _ _ _]].
  destruct Cneeds as (N1 & N2 & N3); [congruence|].
  assert (Ha : commit_marker_action false
                 (updated (SetPosition pos) (with_geo_pending n (page s)) s)
               = MoveMarker i pos).
  { unfold commit_marker_action, marker_runs. cbn.
    rewrite Dm. unfold marker_deps at 1 2, same_deps_marker. cbn.
    rewrite eqb_succ. cbn.
    unfold commit_map_handle, marker_action. cbn.
    destruct (googleMapRef (refs s)) as [g|] eqn:Hg; [|congruence].
    destruct (Cmap g eq_refl) as [Hl _]. rewrite N3, (Cload Hl), Hu.
    now destruct (commit_builds_map false _). }
  rewrite commit_userMarkerRef, commit_markers, Ha. cbn.
  unfold marker_ref_after, markers_after. now split.
Qed.

(** *** The provider's script *)

Lemma injections_at_most_one s : invariant s -> injections s <= 1.
Proof.
  intros [_ C]. rewrite (cons_injections s C).
  destruct (script_cleanup (fiber s)); lia.
Qed.

Lemma step_cleanup s e s' :
  invariant s -> step s e = Some s' ->
  script_cleanup (fiber s') = script_cleanup (fiber s).
Proof.
  intros I Hstep. rewrite (step_next s e I) in Hstep. unfold next in Hstep.
  destruct (negb (mounted (fiber s))); [discriminate|].
  destruct e as [pos|message| | | |p|].
  - destruct (geo_pending (page s)); [discriminate|].
    injection Hstep as <-. now rewrite commit_cleanup.
  - destruct (geo_pending (page s)); [discriminate|].
    injection Hstep as <-. now rewrite commit_cleanup.
  - destruct (own_script_loading s); [|discriminate].
    injection Hstep as <-. now rewrite commit_cleanup.
  - destruct (own_script_loading s); [|discriminate].
    injection Hstep as <-. now rewrite commit_cleanup.
  - now injection Hstep as <-.
  - injection Hstep as <-. now destruct (settle_commit_props s p I)
      as (_ & _ & _ & _ & _ & _ & _ & -> & _).
  - injection Hstep as <-. unfold unmount, script_effect_cleanup.
    destruct (script_cleanup (fiber s)) eqn:E;
      [destruct (head_contains _ _)|]; cbn; auto.
Qed.

Lemma settle_cleanup s :
  script_cleanup (fiber (settle s)) = script_cleanup (fiber s).
Proof.
  unfold settle, rerender. destruct (queue (fiber s)); [reflexivity|].
  now rewrite commit_cleanup.
Qed.

Lemma mount_cleanup p google nav key scripts :
  script_cleanup (fiber (mount p (fresh_page google nav key scripts)))
  = if google then None else Some (new_script key scripts).
Proof.
  unfold mount, NESTED_UPDATE_LIMIT.
  pose proof (consistent_initial p google nav key scripts) as C.
  rewrite flush_settle by (now destruct C as [[? _] _ _ _ _ _ _ _ _ _ _]).
  rewrite settle_cleanup, commit_result. cbn. now destruct google.
Qed.

Lemma run_cleanup es : forall s s',
  invariant s -> run s es = Some s' ->
  script_cleanup (fiber s') = script_cleanup (fiber s).
Proof.
  induction es as [|e es IH]; cbn; intros s s' I H.
  - now injection H as <-.
  - destruct (step s e) as [s1|] eqn:Hs; [|discriminate].
    rewrite (IH s1 s' (step_invariant s e s1 I Hs) H).
    now apply (step_cleanup s e).
Qed.

(** Mounted in a page where the provider is already loaded, the component
    never injects a script. *)
Lemma no_injection_when_loaded p nav key scripts es s :
  run (mount p (fresh_page true nav key scripts)) es = Some s ->
  injections s = 0.
Proof.
  intros H.
  pose proof (mount_invariant p true nav key scripts) as I0.
  pose proof (run_invariant es _ _ I0 H) as [_ C].
  rewrite (cons_injections s C), (run_cleanup es _ _ I0 H), mount_cleanup.
  reflexivity.
Qed.

(** Unmounting takes the script the component injected out of the head. *)
Lemma unmount_removes_script s el s' :
  invariant s -> script_cleanup (fiber s) = Some el ->
  step s Unmounted = Some s' ->
  In el (head (page s))
  /\ (forall e, In e (head (page s')) -> script_id e <> script_id el)
  /\ calls (page s') = RemoveChild el :: calls (page s).
Proof.
  intros [_ C] Hsc. unfold step.
  destruct (mounted (fiber s)) eqn:Hm; cbn; [|discriminate].
  intros [= <-].
  pose proof (cons_script s C el Hm Hsc) as Hin.
  unfold unmount, script_effect_cleanup. rewrite Hsc.
  assert (Hc : head_contains el (page s) = true).
  { unfold head_contains. apply existsb_exists. exists el.
    split; [exact Hin | apply Nat.eqb_refl]. }
  rewrite Hc. cbn. repeat split; auto.
  intros e He. apply filter_In in He. destruct He as [_ He].
  apply negb_true_iff in He. now apply Nat.eqb_neq in He.
Qed.

Lemma own_script_loading_cleanup s el :
  own_script_loading s = Some el -> script_cleanup (fiber s) = Some el.
Proof.
  unfold own_script_loading. destruct (script_cleanup (fiber s)); [|discriminate].
  destruct (existsb _ _); [|discriminate]. congruence.
Qed.

(** *** Location display turned off *)

Lemma asks_position_off p nav :
  showUserLocation_or_default p = false -> asks_position p nav = false.
Proof. intros H. unfold asks_position. now rewrite H. Qed.

Lemma reports_unsupported_off p nav :
  showUserLocation_or_default p = false -> reports_unsupported p nav = false.
Proof.
  intros H. unfold reports_unsupported, asks_position. now rewrite H.
Qed.

Lemma marker_action_off gr p h g :
  position h = None -> marker_action gr None p h g = NoMarkerAction.
Proof.
  intros H. unfold marker_action. rewrite H. now destruct gr.
Qed.

(** A commit of a component whose location display is off touches
    neither the location service nor the markers. *)
Lemma commit_keeps_untouched first s0 :
  location_untouched s0 -> location_untouched (commit first s0).
Proof.
  intros [L1 L2 L3 L4 L5 L6 L7].
  assert (Ha : commit_asks_position first s0 = false).
  { unfold commit_asks_position. rewrite asks_position_off by exact L1.
    apply andb_false_r. }
  assert (Hm : commit_marker_action first s0 = NoMarkerAction).
  { unfold commit_marker_action. rewrite L5.
    rewrite marker_action_off by exact L4.
    now destruct (marker_runs first _ _ _). }
  split.
  - now rewrite commit_props.
  - now rewrite commit_geo_pending, Ha.
  - now rewrite commit_requests, Ha.
  - now rewrite commit_hooks.
  - now rewrite commit_userMarkerRef, Hm, L5.
  - now rewrite commit_markers, Hm.
  - now rewrite commit_hooks.
Qed.

Lemma commit_location_untouched s0 :
  queue (fiber s0) = [] ->
  location_untouched s0 ->
  location_untouched (commit false s0)
  /\ queue (fiber (commit false s0)) = [].
Proof.
  intros Hq L. split; [now apply commit_keeps_untouched|].
  rewrite commit_queue by exact Hq.
  unfold commit_reports_unsupported.
  rewrite reports_unsupported_off by (now destruct L).
  now rewrite andb_false_r.
Qed.

(** Setting [mapLoaded] does not touch the location path. *)
Lemma rerender_loaded_untouched c :
  location_untouched c -> queue (fiber c) = [SetMapLoaded true] ->
  location_untouched (rerender c).
Proof.
  intros [L1 L2 L3 L4 L5 L6 L7] Hq. unfold rerender.
  apply commit_keeps_untouched.
  split; cbn; rewrite ?Hq; cbn; auto.
Qed.

Lemma step_location_untouched s e s' :
  invariant s -> location_untouched s -> keeps_location_off e ->
  step s e = Some s' -> location_untouched s'.
Proof.
  intros I L Hoff Hstep. rewrite (step_next s e I) in Hstep.
  unfold next in Hstep.
  destruct (negb (mounted (fiber s))); [discriminate|].
  pose proof I as [Hq _].
  pose proof L as [L1 L2 L3 L4 L5 L6 L7].
  destruct e as [pos|message| | | |p|].
  - now rewrite L2 in Hstep.
  - now rewrite L2 in Hstep.
  - destruct (own_script_loading s); [|discriminate].
    injection Hstep as <-. apply commit_location_untouched; [exact Hq|].
    split; cbn; auto.
  - destruct (own_script_loading s); [|discriminate].
    injection Hstep as <-. apply commit_location_untouched; [exact Hq|].
    split; cbn; auto.
  - injection Hstep as <-. split; cbn; auto.
  - injection Hstep as <-. cbn in Hoff.
    destruct (commit_location_untouched (with_props p s)) as [L' Hq'];
      [exact Hq | split; cbn; auto |].
    unfold settle. now rewrite Hq'.
  - injection Hstep as <-. unfold unmount, script_effect_cleanup.
    destruct (script_cleanup (fiber s)); [destruct (head_contains _ _)|];
      split; cbn; auto.
Qed.

Lemma initial_untouched p google nav key scripts :
  showUserLocation_or_default p = false ->
  location_untouched (initial p (fresh_page google nav key scripts)).
Proof. intros Hs. split; cbn; auto. Qed.

Lemma mount_location_untouched p google nav key scripts :
  showUserLocation_or_default p = false ->
  location_untouched (mount p (fresh_page google nav key scripts)).
Proof.
  intros Hs. unfold mount, NESTED_UPDATE_LIMIT.
  pose proof (consistent_initial p google nav key scripts) as C.
  rewrite flush_settle by (now destruct C as [[? _] _ _ _ _ _ _ _ _ _ _]).
  pose proof (commit_keeps_untouched true _
                (initial_untouched p google nav key scripts Hs)) as Lc.
  pose proof (commit_queue_first true
                (initial p (fresh_page google nav key scripts)) eq_refl)
    as Hq.
  unfold commit_reports_unsupported in Hq.
  rewrite reports_unsupported_off, andb_false_r in Hq by exact Hs.
  revert Lc Hq.
  generalize (commit true (initial p (fresh_page google nav key scripts))).
  intros c Lc Hq. cbn in Hq. unfold settle.
  destruct google; cbn in Hq; rewrite Hq; [|exact Lc].
  now apply rerender_loaded_untouched.
Qed.

Lemma run_location_untouched es : forall s s',
  invariant s -> location_untouched s -> Forall keeps_location_off es ->
  run s es = Some s' -> location_untouched s'.
Proof.
  induction es as [|e es IH]; cbn; intros s s' I L Hoff H.
  - now injection H as <-.
  - destruct (step s e) as [s1|] eqn:Hs; [|discriminate].
    inversion Hoff as [|? ? He Hes]; subst.
    apply (IH s1 s'); auto.
    + now apply (step_invariant s e).
    + now apply (step_location_untouched s e).
Qed.

End WebFacts.

(** ** Facts about the native implementation *)
Module NativeFacts.
Import Native NativeSpec.

Lemma native_step_error_nonempty s e s' :
  (forall msg, errorMsg s = Some msg -> msg <> "") ->
  step s e = Some s' ->
  forall msg, errorMsg s' = Some msg -> msg <> "".
Proof.
  intros H. destruct e as [status|l| |r|p]; cbn.
  - destruct (permission_pending (device s)); [discriminate|].
    destruct status; cbn; intros [= <-]; cbn; auto;
      intros msg [= <-]; discriminate.
  - destruct (position_pending (device s)); [discriminate|].
    intros [= <-]; cbn; auto.
  - destruct (position_pending (device s)); [discriminate|].
    intros [= <-]; cbn. intros msg [= <-]; discriminate.
  - destruct (truthy (errorMsg s)); [discriminate|].
    intros [= <-]; cbn; auto.
  - intros [= <-]. unfold location_effect. cbn.
    destruct (Bool.eqb _ _), (showUserLocation_or_default p); cbn; auto.
Qed.

Lemma native_error_nonempty s :
  reachable s -> forall msg, errorMsg s = Some msg -> msg <> "".
Proof.
  intros (p & os & es & H). revert H.
  assert (H0 : forall msg,
             errorMsg (mount p (fresh_device os)) = Some msg -> msg <> "").
  { unfold mount, location_effect. cbn.
    destruct (showUserLocation_or_default p); cbn; intros msg Hm;
      discriminate Hm. }
  revert H0. generalize (mount p (fresh_device os)).
  induction es as [|e es IH]; cbn; intros s0 H0 H.
  - now injection H as <-.
  - destruct (step s0 e) as [s1|] eqn:Hs; [|discriminate].
    apply (IH s1); [|exact H]. now apply (native_step_error_nonempty s0 e).
Qed.

Lemma truthy_nonempty msg : msg <> "" -> truthy (Some msg) = true.
Proof.
  intros H. unfold truthy. apply negb_true_iff. now apply String.eqb_neq.
Qed.

(** The rendered tree: the message alone when one is recorded, else the
    map with the marker of the reading, if there is one. *)
Lemma native_render_error s msg :
  reachable s -> errorMsg s = Some msg -> render s = View [Text msg].
Proof.
  intros R H. unfold render.
  now rewrite H, (truthy_nonempty msg (native_error_nonempty s R msg H)).
Qed.

Lemma native_render_map s :
  truthy (errorMsg s) = false ->
  exists mv, render s =
    View [MapView mv
            match location s with
            | Some l =>
                [Marker {| mk_coordinate := latlng_of l;
                           mk_title := "You are here";
                           mk_description :=
                             "Your current location on native device";
                           mk_tracksViewChanges :=
                             match OS (device s) with
                             | android => false
                             | ios => true
                             end |}]
            | None => []
            end]
    /\ mv_region mv = region s.
Proof.
  intros H. unfold render. rewrite H. eexists. split; reflexivity.
Qed.

(** Location display off: nothing is asked of the device. *)
Lemma native_mount_location_untouched p os :
  showUserLocation_or_default p = false ->
  location_untouched (mount p (fresh_device os)).
Proof.
  intros H. unfold mount, location_effect. cbn. rewrite H. now split.
Qed.

Lemma native_step_location_untouched s e s' :
  location_untouched s -> keeps_location_off e ->
  step s e = Some s' -> location_untouched s'.
Proof.
  intros [L1 L2 L3 L4 L5 L6 L7] Hoff.
  destruct e as [status|l| |r|p]; cbn.
  - now rewrite L4.
  - now rewrite L5.
  - now rewrite L5.
  - destruct (truthy (errorMsg s)); [discriminate|].
    intros [= <-]. now split.
  - cbn in Hoff. rewrite L2, Hoff. cbn. intros [= <-].
    split; cbn; auto.
Qed.

Lemma native_run_location_untouched es : forall s s',
  location_untouched s -> Forall keeps_location_off es ->
  run s es = Some s' -> location_untouched s'.
Proof.
  induction es as [|e es IH]; cbn; intros s s' L Hoff H.
  - now injection H as <-.
  - destruct (step s e) as [s1|] eqn:Hs; [|discriminate].
    inversion Hoff as [|? ? He Hes]; subst.
    apply (IH s1 s'); auto. now apply (native_step_location_untouched s e).
Qed.

End NativeFacts.

(** ** The mount of the web implementation *)
Module WebMount.
Import Web WebSpec WebFacts.

Lemma mount_settle p google nav key scripts :
  mount p (fresh_page google nav key scripts)
  = settle (commit true (initial p (fresh_page google nav key scripts))).
Proof.
  unfold mount, NESTED_UPDATE_LIMIT.
  pose proof (consistent_initial p google nav key scripts) as C.
  now rewrite flush_settle by (now destruct C as [[? _] _ _ _ _ _ _ _ _ _ _]).
Qed.

(** The queue the first commit leaves holds no reading. *)
Lemma initial_queue p pg :
  position
    (fold_left apply_update (queue (fiber (commit true (initial p pg))))
       (hooks (commit true (initial p pg)))) = None
  /\ maps (page (commit true (initial p pg))) = maps pg
  /\ props (commit true (initial p pg)) = p.
Proof.
  rewrite commit_maps, commit_props, commit_hooks.
  rewrite (commit_queue_first true (initial p pg) eq_refl).
  assert (Hb : commit_builds_map true (initial p pg) = false).
  { unfold commit_builds_map, init_ready. cbn. apply andb_false_r. }
  rewrite Hb, app_nil_r. repeat split.
  now destruct (commit_reports_unsupported true (initial p pg)),
    (true && google_maps (page (initial p pg)))%bool.
Qed.

(** After the mount: the props given, no reading, and at most one map,
    built from the region of the props. *)
Lemma mount_summary p google nav key scripts :
  props (mount p (fresh_page google nav key scripts)) = p
  /\ position (hooks (mount p (fresh_page google nav key scripts))) = None
  /\ exists built : bool,
       maps (page (mount p (fresh_page google nav key scripts)))
       = if built
         then [{| map_center := spec_center p None;
                  map_zoom :=
                    zoom (latitudeDelta
                            (mapRegion p
                               (hooks (mount p
                                         (fresh_page google nav key scripts))))) |}]
         else [].
Proof.
  rewrite mount_settle.
  destruct (initial_queue p (fresh_page google nav key scripts))
    as (Hpos & Hmaps & Hprops).
  revert Hpos Hmaps Hprops.
  generalize (commit true (initial p (fresh_page google nav key scripts))).
  intros c Hpos Hmaps Hprops.
  change (maps (fresh_page google nav key scripts)) with (@nil GoogleMap)
    in Hmaps.
  unfold settle. destruct (queue (fiber c)) eqn:Hq.
  - change (position (hooks c) = None) in Hpos.
    split; [exact Hprops|]. split; [exact Hpos|].
    exists false. exact Hmaps.
  - rewrite <- Hq in Hpos.
    unfold rerender. rewrite commit_props, commit_hooks, commit_maps.
    change (props (apply_queue c)) with (props c).
    change (hooks (apply_queue c))
      with (fold_left apply_update (queue (fiber c)) (hooks c)).
    change (maps (page (apply_queue c))) with (maps (page c)).
    rewrite Hmaps, Hprops. split; [reflexivity|]. split; [exact Hpos|].
    exists (commit_builds_map false (apply_queue c)).
    destruct (commit_builds_map false (apply_queue c)); [|reflexivity].
    cbn. unfold map_options. rewrite center_of_mapRegion.
    now rewrite Hpos.
Qed.

End WebMount.

(** ** The zoom level of the default span *)
Module ZoomFacts.
Local Open Scope R_scope.

Lemma ln_2_pos : 0 < ln 2.
Proof. rewrite <- ln_1. apply ln_increasing; lra. Qed.

Lemma log2_above (x : R) (p q : nat) :
  0 < x -> (0 < q)%nat -> 2 ^ p < x ^ q -> INR p / INR q < log2 x.
Proof.
  intros Hx Hq H.
  assert (Hl : ln (2 ^ p) < ln (x ^ q))
    by (apply ln_increasing; [apply pow_lt; lra | exact H]).
  rewrite !ln_pow in Hl by lra.
  pose proof ln_2_pos as H2.
  assert (Hq' : 0 < INR q) by (apply lt_0_INR; exact Hq).
  unfold log2. apply (Rmult_lt_reg_r (INR q * ln 2)).
  - now apply Rmult_lt_0_compat.
  - replace (INR p / INR q * (INR q * ln 2)) with (INR p * ln 2)
      by (field; lra).
    replace (ln x / ln 2 * (INR q * ln 2)) with (INR q * ln x)
      by (field; lra).
    exact Hl.
Qed.

Lemma log2_below (x : R) (p q : nat) :
  0 < x -> (0 < q)%nat -> x ^ q < 2 ^ p -> log2 x < INR p / INR q.
Proof.
  intros Hx Hq H.
  assert (Hl : ln (x ^ q) < ln (2 ^ p))
    by (apply ln_increasing; [apply pow_lt; lra | exact H]).
  rewrite !ln_pow in Hl by lra.
  pose proof ln_2_pos as H2.
  assert (Hq' : 0 < INR q) by (apply lt_0_INR; exact Hq).
  unfold log2. apply (Rmult_lt_reg_r (INR q * ln 2)).
  - now apply Rmult_lt_0_compat.
  - replace (INR p / INR q * (INR q * ln 2)) with (INR p * ln 2)
      by (field; lra).
    replace (ln x / ln 2 * (INR q * ln 2)) with (INR q * ln x)
      by (field; lra).
    exact Hl.
Qed.

Lemma pow_of_ratio (a b : Z) (q : nat) :
  (IZR a / IZR b) ^ q = IZR (a ^ Z.of_nat q) / IZR (b ^ Z.of_nat q).
Proof.
  unfold Rdiv. rewrite Rpow_mult_distr, <- !pow_IZR, pow_inv. reflexivity.
Qed.

(** [360 / 0.0922], as a ratio of integers. *)
Lemma default_span : 360 / Q2R 0.0922 = IZR 3600000 / IZR 922.
Proof. unfold Q2R. cbn. field. Qed.

Lemma ratio_pow_above (a b : Z) (p q : nat) :
  (0 < b)%Z -> (2 ^ Z.of_nat p * b ^ Z.of_nat q <? a ^ Z.of_nat q)%Z = true ->
  2 ^ p < (IZR a / IZR b) ^ q.
Proof.
  intros Hb H. apply Z.ltb_lt in H. rewrite pow_of_ratio, (pow_IZR 2).
  assert (Hbq : (0 < b ^ Z.of_nat q)%Z) by (apply Z.pow_pos_nonneg; lia).
  apply (Rmult_lt_reg_r (IZR (b ^ Z.of_nat q))); [now apply IZR_lt|].
  unfold Rdiv. rewrite Rmult_assoc, Rinv_l, Rmult_1_r.
  - rewrite <- mult_IZR. now apply IZR_lt.
  - apply not_0_IZR. lia.
Qed.

Lemma ratio_pow_below (a b : Z) (p q : nat) :
  (0 < b)%Z -> (a ^ Z.of_nat q <? 2 ^ Z.of_nat p * b ^ Z.of_nat q)%Z = true ->
  (IZR a / IZR b) ^ q < 2 ^ p.
Proof.
  intros Hb H. apply Z.ltb_lt in H. rewrite pow_of_ratio, (pow_IZR 2).
  assert (Hbq : (0 < b ^ Z.of_nat q)%Z) by (apply Z.pow_pos_nonneg; lia).
  apply (Rmult_lt_reg_r (IZR (b ^ Z.of_nat q))); [now apply IZR_lt|].
  unfold Rdiv. rewrite Rmult_assoc, Rinv_l, Rmult_1_r.
  - rewrite <- mult_IZR. now apply IZR_lt.
  - apply not_0_IZR. lia.
Qed.

(** The zoom of the default span lies strictly between 9.43 and 9.435. *)
Lemma zoom_default_bounds : 9.43 < zoom_of_span 0.0922 < 9.435.
Proof.
  unfold zoom_of_span. rewrite default_span.
  assert (Hx : 0 < IZR 3600000 / IZR 922)
    by (apply Rdiv_lt_0_compat; apply IZR_lt; lia).
  split.
  - pose proof (log2_above _ 1193 100 Hx ltac:(lia)
                  (ratio_pow_above 3600000 922 1193 100 ltac:(lia)
                     ltac:(vm_compute; reflexivity))) as H.
    replace (INR 1193 / INR 100) with 11.93 in H
      by (rewrite !INR_IZR_INZ; cbn; lra).
    lra.
  - pose proof (log2_below _ 2387 200 Hx ltac:(lia)
                  (ratio_pow_below 3600000 922 2387 200 ltac:(lia)
                     ltac:(vm_compute; reflexivity))) as H.
    replace (INR 2387 / INR 200) with 11.935 in H
      by (rewrite !INR_IZR_INZ; cbn; lra).
    lra.
Qed.

(** The default span is positive and finite: its zoom is a real number. *)
Lemma zoom_default : zoom 0.0922 = Real (zoom_of_span 0.0922).
Proof.
  unfold zoom.
  replace (Qeq_bool 0.0922 0) with false by (vm_compute; reflexivity).
  replace (Qle_bool 0.0922 0) with false by (vm_compute; reflexivity).
  replace (overflows (360 / 0.0922)) with false by (vm_compute; reflexivity).
  reflexivity.
Qed.

(** Where the quotient or its logarithm is not a finite number the zoom
    follows IEEE arithmetic. *)
Lemma zoom_special_values :
  zoom 0 = Infinity true
  /\ zoom NegativeZero = NotANumber
  /\ zoom (-1) = NotANumber
  /\ zoom PositiveInfinity = Infinity false
  /\ zoom NaN = NotANumber
  /\ zoom (Finite (1 / inject_Z (10 ^ 307))) = Infinity true.
Proof. repeat split; vm_compute; reflexivity. Qed.

End ZoomFacts.

(** * Further facts about the steps of the two implementations *)

Module WebSteps.
Import Web WebSpec WebFacts.

Lemma apply_queue_enqueue s pg' u :
  queue (fiber s) = [] ->
  apply_queue (enqueue u (with_page pg' s)) = updated u pg' s.
Proof.
  destruct s as [p h r [mt q dl di dm sc] pg]. cbn. intros ->. reflexivity.
Qed.

(** Every step that renders is one commit of the state the handler left,
    followed at most by the render that records that geolocation is
    unsupported. *)
Lemma step_committed s e s' :
  invariant s -> step s e = Some s' -> commits e = true ->
  evolves s (handled s e) /\ committed (handled s e) s'.
Proof.
  intros I Hstep Hc. rewrite (step_next s e I) in Hstep. unfold next in Hstep.
  destruct (negb (mounted (fiber s))); [discriminate|].
  pose proof I as [Hq C].
  assert (Hcommit : forall s0, committed s0 (commit false s0)).
  { intros s0. split; rewrite ?commit_props, ?commit_hooks, ?commit_mounted;
      auto. }
  assert (Hev : forall u pg',
             page_compatible (page s) pg' -> update_ok (google_maps pg') u ->
             evolves s (updated u pg' s)).
  { intros u pg' P Hu.
    rewrite <- (apply_queue_enqueue s pg' u Hq).
    pose proof (evolves_apply_queue (enqueue u (with_page pg' s))
                  (consistent_handler s pg' u C P)) as E.
    cbn in E. rewrite Hq in E.
    specialize (E (Forall_cons _ Hu (Forall_nil _))).
    destruct E as [E1 E2 E3 E4 E5 E6 E7 E8 E9 E10 E11 E12 E13 E14 E15 E16 E17].
    destruct P as [P1 P2 P3 P4 P5].
    cbn in *. split; cbn; auto. }
  destruct e as [pos|message| | | |p|]; cbn in Hc; try discriminate.
  - destruct (geo_pending (page s)) eqn:Hg; [discriminate|].
    injection Hstep as <-. cbn. rewrite Hg. cbn. split; [|apply Hcommit].
    apply Hev; [now split | exact Logic.I].
  - destruct (geo_pending (page s)) eqn:Hg; [discriminate|].
    injection Hstep as <-. cbn. rewrite Hg. cbn. split; [|apply Hcommit].
    apply Hev; [now split | discriminate].
  - cbn. destruct (own_script_loading s); [|discriminate].
    injection Hstep as <-. split; [|apply Hcommit].
    apply Hev; [now split | now split].
  - cbn. destruct (own_script_loading s); [|discriminate].
    injection Hstep as <-. split; [|apply Hcommit].
    apply Hev; [now split | discriminate].
  - injection Hstep as <-. cbn. split; [now apply evolves_with_props|].
    destruct (settle_commit_props s p I)
      as (S1 & S2 & S3 & S4 & S5 & S6 & S7 & S8 & S9).
    split; cbn; rewrite ?commit_mounted; auto.
    unfold settle.
    rewrite (commit_queue (with_props p s)) by exact Hq.
    destruct (commit_reports_unsupported false (with_props p s)) eqn:E.
    + right. unfold rerender. rewrite commit_hooks. cbn.
      rewrite (commit_queue (with_props p s)) by exact Hq.
      now rewrite E.
    + left. now rewrite commit_hooks.
Qed.

End WebSteps.

Module WebMore.
Import Web WebSpec WebFacts WebSteps.

Lemma truthy_recorded s msg :
  consistent s -> errorMsg (hooks s) = Some msg ->
  container_rendered s = false.
Proof.
  intros C H. unfold container_rendered. rewrite H.
  now rewrite (NativeFacts.truthy_nonempty msg (cons_error s C msg H)).
Qed.

(** What the handler of an event does to the hook state. *)
Lemma handled_hooks s e :
  (position (hooks s) <> None -> position (hooks (handled s e)) <> None)
  /\ (errorMsg (hooks s) <> None -> errorMsg (hooks (handled s e)) <> None)
  /\ (mapLoaded (hooks s) = true -> mapLoaded (hooks (handled s e)) = true).
Proof.
  destruct e as [pos|message| | | |p|]; cbn; auto;
    try (destruct (own_script_loading s); cbn; auto);
    repeat split; auto; discriminate.
Qed.

Lemma quiet_step s e s' :
  step s e = Some s' -> commits e = false ->
  props s' = props s /\ hooks s' = hooks s
  /\ googleMapRef (refs s') = googleMapRef (refs s)
  /\ userMarkerRef (refs s') = userMarkerRef (refs s)
  /\ maps (page s') = maps (page s)
  /\ markers (page s') = markers (page s)
  /\ position_requests s' = position_requests s
  /\ (mapRef (refs s') = mapRef (refs s) \/ mapRef (refs s') = false).
Proof.
  unfold step. destruct (negb (mounted (fiber s))); [discriminate|].
  destruct e; cbn; try discriminate; intros [= <-] _.
  - cbn. repeat split; auto.
  - unfold unmount, script_effect_cleanup, position_requests.
    destruct (script_cleanup (fiber s)); [destruct (head_contains _ _)|];
      cbn; repeat split; auto.
Qed.

Lemma step_mounted s e s' :
  step s e = Some s' -> mounted (fiber s) = true.
Proof.
  unfold step. now destruct (mounted (fiber s)).
Qed.

Lemma step_never_clears s e s' :
  invariant s -> step s e = Some s' ->
  (position (hooks s) <> None -> position (hooks s') <> None)
  /\ (errorMsg (hooks s) <> None -> errorMsg (hooks s') <> None)
  /\ (mapLoaded (hooks s) = true -> mapLoaded (hooks s') = true)
  /\ (errorMsg (hooks s) <> None -> mapRef (refs s') = false).
Proof.
  intros I Hstep. pose proof (step_invariant s e s' I Hstep) as [_ C'].
  pose proof I as [_ C].
  assert (Hsticky : errorMsg (hooks s) <> None -> errorMsg (hooks s') <> None).
  { destruct (commits e) eqn:Hc.
    - destruct (step_committed s e s' I Hstep Hc) as [_ Cm].
      destruct (handled_hooks s e) as (_ & H2 & _).
      intros He. destruct (cm_error _ _ Cm) as [-> | ->]; [auto | discriminate].
    - destruct (quiet_step s e s' Hstep Hc) as (_ & -> & _). auto. }
  repeat split; auto.
  - destruct (commits e) eqn:Hc.
    + destruct (step_committed s e s' I Hstep Hc) as [_ Cm].
      rewrite (cm_position _ _ Cm). apply handled_hooks.
    + now destruct (quiet_step s e s' Hstep Hc) as (_ & -> & _).
  - destruct (commits e) eqn:Hc.
    + destruct (step_committed s e s' I Hstep Hc) as [_ Cm].
      rewrite (cm_loaded _ _ Cm). apply handled_hooks.
    + now destruct (quiet_step s e s' Hstep Hc) as (_ & -> & _).
  - intros He. specialize (Hsticky He).
    destruct (errorMsg (hooks s')) as [msg|] eqn:Hm; [|congruence].
    destruct (mounted (fiber s')) eqn:Hmt.
    + rewrite (cons_container s' C' Hmt). now apply (truthy_recorded s' msg).
    + pose proof (step_mounted s e s' Hstep) as Hms.
      destruct (commits e) eqn:Hc.
      * destruct (step_committed s e s' I Hstep Hc) as [Ev Cm].
        rewrite (cm_mounted _ _ Cm), (ev_mounted _ _ Ev) in Hmt. congruence.
      * unfold step in Hstep. rewrite Hms in Hstep. cbn in Hstep.
        destruct e; cbn in Hc; try discriminate; injection Hstep as <-.
        -- cbn in Hmt. congruence.
        -- unfold unmount, script_effect_cleanup.
           destruct (script_cleanup (fiber s));
             [destruct (head_contains _ _)|]; reflexivity.
Qed.

(** In a state that holds an error message no map is built. *)
Lemma step_no_map_after_error s e s' :
  invariant s -> step s e = Some s' -> errorMsg (hooks s) <> None ->
  maps (page s') = maps (page s)
  /\ googleMapRef (refs s') = googleMapRef (refs s).
Proof.
  intros I Hstep He. destruct (commits e) eqn:Hc.
  - destruct (step_committed s e s' I Hstep Hc) as [Ev Cm].
    rewrite (cm_page _ _ Cm), (cm_map _ _ Cm).
    rewrite commit_maps, commit_googleMapRef. unfold commit_map_handle.
    assert (Hb : commit_builds_map false (handled s e) = false).
    { unfold commit_builds_map, init_ready, container_rendered.
      destruct (handled_hooks s e) as (_ & H2 & _). specialize (H2 He).
      destruct (errorMsg (hooks (handled s e))) as [msg|] eqn:Hm;
        [|congruence].
      rewrite (NativeFacts.truthy_nonempty msg (ev_error _ _ Ev msg Hm)).
      cbn. now rewrite andb_false_r, andb_false_r. }
    rewrite Hb, app_nil_r, (ev_maps _ _ Ev), (ev_refs _ _ Ev). auto.
  - now destruct (quiet_step s e s' Hstep Hc) as (_ & _ & -> & _ & -> & _).
Qed.

End WebMore.

Module WebMaps.
Import Web WebSpec WebFacts WebSteps WebMore.

Lemma same_number_trans a b c :
  same_number a b = true -> same_number b c = true -> same_number a c = true.
Proof.
  destruct a, b, c; cbn; intros H1 H2; try discriminate; try reflexivity.
  apply Qeq_bool_iff in H1, H2. apply Qeq_bool_iff. now rewrite H1.
Qed.

Lemma same_deps_init_fields l l' x x' y y' d d' :
  same_deps_init (l, (x, y, d)) (l', (x', y', d')) = true ->
  l = l' /\ same_number x x' = true /\ same_number y y' = true
  /\ same_number d d' = true.
Proof.
  unfold same_deps_init. rewrite !andb_true_iff.
  intros [[[H1 H2] H3] H4]. apply Bool.eqb_prop in H1. auto.
Qed.

Lemma map_shows_same m r r' :
  map_shows m r ->
  same_number (latitude r) (latitude r') = true ->
  same_number (longitude r) (longitude r') = true ->
  same_number (latitudeDelta r) (latitudeDelta r') = true ->
  map_shows m r'.
Proof.
  intros (H1 & H2 & d & H3 & H4) E1 E2 E3. repeat split.
  - now apply (same_number_trans _ (latitude r)).
  - now apply (same_number_trans _ (longitude r)).
  - exists d. split; [now apply (same_number_trans _ (latitudeDelta r)) | auto].
Qed.

Lemma map_options_shows p h : map_shows (map_options p h) (mapRegion p h).
Proof.
  unfold map_shows, map_options, center_of. cbn.
  rewrite !same_number_refl. repeat split.
  exists (latitudeDelta (mapRegion p h)). now rewrite same_number_refl.
Qed.

Lemma mapRegion_ext p h h' :
  position h = position h' -> mapRegion p h = mapRegion p h'.
Proof. intros H. unfold mapRegion. now rewrite H. Qed.

(** A commit that builds a map leaves it as the current one. *)
Lemma commit_builds_current first s0 :
  commit_builds_map first s0 = true ->
  current_map (commit first s0) = Some (map_options (props s0) (hooks s0)).
Proof.
  intros Hb. unfold current_map.
  rewrite commit_googleMapRef, commit_maps. unfold commit_map_handle.
  rewrite Hb. apply nth_error_middle.
Qed.

Lemma commit_keeps_current first s0 :
  commit_builds_map first s0 = false ->
  (forall g, googleMapRef (refs s0) = Some g -> g < length (maps (page s0))) ->
  current_map (commit first s0) = current_map s0.
Proof.
  intros Hb Hv. unfold current_map.
  rewrite commit_googleMapRef, commit_maps. unfold commit_map_handle.
  now rewrite Hb, app_nil_r.
Qed.

(** The map on display is the one of the current region: whenever the map
    is loaded and no error is recorded, [googleMapRef] points to a map built
    for the region of the last render. *)
Lemma step_map_follows_region s e s' :
  invariant s -> map_follows_region s -> step s e = Some s' ->
  map_follows_region s'.
Proof.
  intros I F Hstep He Hl. destruct (commits e) eqn:Hc.
  - destruct (step_committed s e s' I Hstep Hc) as [Ev Cm].
    pose proof I as [_ C].
    assert (He0 : errorMsg (hooks (handled s e)) = None).
    { destruct (cm_error _ _ Cm) as [H | H]; congruence. }
    assert (Hl0 : mapLoaded (hooks (handled s e)) = true)
      by (now rewrite <- (cm_loaded _ _ Cm)).
    assert (Hr : mapRegion (props s') (hooks s')
                 = mapRegion (props (handled s e)) (hooks (handled s e))).
    { rewrite (cm_props _ _ Cm). apply mapRegion_ext. apply (cm_position _ _ Cm). }
    assert (Hcur : current_map s' = current_map (commit false (handled s e))).
    { unfold current_map. now rewrite (cm_map _ _ Cm), (cm_page _ _ Cm). }
    rewrite Hr, Hcur.
    destruct (commit_builds_map false (handled s e)) eqn:Hb.
    + rewrite (commit_builds_current _ _ Hb). eexists. split; [reflexivity|].
      apply map_options_shows.
    + rewrite (commit_keeps_current _ _ Hb).
      2:{ intros g Hg. rewrite (ev_refs _ _ Ev) in Hg. rewrite (ev_maps _ _ Ev).
          now apply (cons_map s C g). }
      assert (Hsame : same_deps_init (init_deps (props s) (hooks s))
                        (init_deps (props (handled s e)) (hooks (handled s e)))
                      = true).
      { unfold commit_builds_map, init_runs, init_ready, container_rendered in Hb.
        rewrite He0, Hl0, (ev_loaded_google _ _ Ev Hl0) in Hb.
        rewrite (ev_deps_init _ _ Ev) in Hb.
        destruct (cons_deps s C) as (_ & Di & _). rewrite Di in Hb.
        cbn in Hb. rewrite !andb_true_r in Hb. now apply negb_false_iff in Hb. }
      unfold init_deps in Hsame.
      apply same_deps_init_fields in Hsame.
      destruct Hsame as (E0 & E1 & E2 & E3).
      assert (Hes : errorMsg (hooks s) = None).
      { destruct (errorMsg (hooks s)) eqn:Hm; [|reflexivity].
        destruct (handled_hooks s e) as (_ & H2 & _).
        exfalso. apply H2; congruence. }
      destruct (F Hes) as (m & Hm & Hshow); [congruence|].
      exists m. split.
      * unfold current_map in *. now rewrite (ev_refs _ _ Ev), (ev_maps _ _ Ev).
      * now apply (map_shows_same m (mapRegion (props s) (hooks s))).
  - destruct (quiet_step s e s' Hstep Hc) as (Q1 & Q2 & Q3 & _ & Q5 & _).
    rewrite Q2 in He, Hl. destruct (F He Hl) as (m & Hm & Hshow).
    exists m. unfold current_map in *. now rewrite Q1, Q2, Q3, Q5.
Qed.

Lemma mount_map_follows_region p google nav key scripts :
  map_follows_region (mount p (fresh_page google nav key scripts)).
Proof.
  rewrite WebMount.mount_settle.
  pose proof (consistent_initial p google nav key scripts) as C.
  pose proof (queue_commit_ok true
                (initial p (fresh_page google nav key scripts)) eq_refl) as Hq.
  pose proof (commit_hooks true (initial p (fresh_page google nav key scripts)))
    as Hh.
  revert C Hq Hh.
  generalize (commit true (initial p (fresh_page google nav key scripts))).
  intros c C Hq Hh. unfold settle.
  destruct (queue (fiber c)) eqn:Hqc.
  - intros _ Hl. rewrite Hh in Hl. discriminate Hl.
  - rewrite <- Hqc in Hq. pose proof (evolves_apply_queue c C Hq) as Ev.
    unfold rerender. intros He Hl.
    rewrite commit_hooks in He, Hl. rewrite commit_props, commit_hooks.
    assert (Hb : commit_builds_map false (apply_queue c) = true).
    { unfold commit_builds_map, init_runs, init_ready, container_rendered.
      rewrite He, Hl, (ev_loaded_google _ _ Ev Hl).
      rewrite (ev_deps_init _ _ Ev).
      destruct (cons_deps c C) as (_ & Di & _). rewrite Di, Hh.
      unfold init_deps, same_deps_init. cbn [mapLoaded initial hooks].
      rewrite Hl. reflexivity. }
    rewrite (commit_builds_current _ _ Hb). eexists. split; [reflexivity|].
    apply map_options_shows.
Qed.

Lemma run_map_follows_region es : forall s s',
  invariant s -> map_follows_region s -> run s es = Some s' ->
  map_follows_region s'.
Proof.
  induction es as [|e es IH]; cbn; intros s s' I F H.
  - now injection H as <-.
  - destruct (step s e) as [s1|] eqn:Hs; [|discriminate].
    apply (IH s1 s'); auto.
    + now apply (step_invariant s e).
    + now apply (step_map_follows_region s e).
Qed.

End WebMaps.

Module WebHandles.
Import Web WebSpec WebFacts WebSteps WebMore WebMaps.

Lemma in_update_nth {A : Type} (f : A -> A) (l : list A) n x :
  In x (update_nth n f l) -> In x l \/ exists y, In y l /\ x = f y.
Proof.
  revert n; induction l as [|a l IH]; intros [|n]; cbn; auto.
  - intros [<- | H]; [right; exists a; auto | auto].
  - intros [<- | H]; [auto|].
    destruct (IH n H) as [H' | (y & Hy & ->)]; [auto|].
    right. exists y. auto.
Qed.

(** A commit keeps the handles valid: [googleMapRef] is the newest map,
    and a marker is only ever put on the map [googleMapRef] points to. *)
Lemma commit_handles first s0 :
  handles_valid s0 -> handles_valid (commit first s0).
Proof.
  intros [Hm Hk].
  assert (Hmap : forall g, commit_map_handle first s0 = Some g ->
                           S g = length (maps (page (commit first s0)))).
  { intros g. rewrite commit_maps, length_app. unfold commit_map_handle.
    destruct (commit_builds_map first s0); cbn.
    - intros [= <-]. lia.
    - intros Hg. rewrite (Hm g Hg). lia. }
  assert (Hle : length (maps (page s0))
                <= length (maps (page (commit first s0)))).
  { rewrite commit_maps, length_app. lia. }
  split.
  - intros g. rewrite commit_googleMapRef. apply Hmap.
  - intros m g. rewrite commit_markers. unfold commit_marker_action.
    destruct (marker_runs first (fiber s0) (props s0) (hooks s0)).
    + unfold marker_action.
      destruct (commit_map_handle first s0) as [map|] eqn:Hh,
        (position (hooks s0)) as [pos|],
        (showUserLocation_or_default (props s0) && google_maps (page s0)),
        (userMarkerRef (refs s0)) as [i|],
        (negb (showUserLocation_or_default (props s0)));
        unfold markers_after; intros Hin Hg;
        try (specialize (Hk m g Hin Hg); lia).
      all: try (apply in_update_nth in Hin;
                destruct Hin as [Hin | (y & Hy & ->)];
                [specialize (Hk m g Hin Hg); lia
                | cbn in Hg; first [discriminate Hg
                                  | specialize (Hk y g Hy Hg); lia]]).
      all: apply in_app_or in Hin; destruct Hin as [Hin | [<- | []]];
        [specialize (Hk m g Hin Hg); lia|].
      all: cbn in Hg; injection Hg as <-; specialize (Hmap map eq_refl); lia.
    + unfold markers_after. intros Hin Hg. specialize (Hk m g Hin Hg). lia.
Qed.

Lemma handles_valid_ext s s' :
  googleMapRef (refs s') = googleMapRef (refs s) ->
  maps (page s') = maps (page s) -> markers (page s') = markers (page s) ->
  handles_valid s -> handles_valid s'.
Proof.
  intros H1 H2 H3 [Hm Hk]. split; rewrite ?H1, ?H2, ?H3; auto.
Qed.

Lemma step_handles_valid s e s' :
  invariant s -> handles_valid s -> step s e = Some s' -> handles_valid s'.
Proof.
  intros I V Hstep. destruct (commits e) eqn:Hc.
  - destruct (step_committed s e s' I Hstep Hc) as [Ev Cm].
    apply (handles_valid_ext (commit false (handled s e)));
      [apply (cm_map _ _ Cm) | now rewrite (cm_page _ _ Cm)
      | now rewrite (cm_page _ _ Cm) |].
    apply commit_handles.
    apply (handles_valid_ext s); auto;
      [now rewrite (ev_refs _ _ Ev) | apply (ev_maps _ _ Ev)
      | apply (ev_markers _ _ Ev)].
  - destruct (quiet_step s e s' Hstep Hc) as (_ & _ & Q3 & _ & Q5 & Q6 & _).
    now apply (handles_valid_ext s).
Qed.

Lemma mount_handles_valid p google nav key scripts :
  handles_valid (mount p (fresh_page google nav key scripts)).
Proof.
  rewrite WebMount.mount_settle.
  assert (V : handles_valid
                (commit true (initial p (fresh_page google nav key scripts)))).
  { apply commit_handles. split; cbn; [discriminate | contradiction]. }
  revert V.
  generalize (commit true (initial p (fresh_page google nav key scripts))).
  intros c V. unfold settle, rerender.
  destruct (queue (fiber c)); [exact V|].
  apply commit_handles. now apply (handles_valid_ext c).
Qed.

Lemma run_handles_valid es : forall s s',
  invariant s -> handles_valid s -> run s es = Some s' -> handles_valid s'.
Proof.
  induction es as [|e es IH]; cbn; intros s s' I V H.
  - now injection H as <-.
  - destruct (step s e) as [s1|] eqn:Hs; [|discriminate].
    apply (IH s1 s'); auto.
    + now apply (step_invariant s e).
    + now apply (step_handles_valid s e).
Qed.

(** *** Requests to the location service *)

Lemma handled_requests s e :
  position_requests (handled s e) = position_requests s
  /\ navigator (page (handled s e)) = navigator (page s)
  /\ props (handled s e)
     = match e with PropsChanged p => p | _ => props s end.
Proof.
  unfold position_requests.
  destruct e; cbn; auto; destruct (own_script_loading s); cbn; auto.
Qed.

Lemma step_requests s e s' :
  invariant s -> step s e = Some s' ->
  position_requests s'
  = position_requests s + (if turns_location_on s e then 1 else 0).
Proof.
  intros I Hstep. destruct (commits e) eqn:Hc.
  - destruct (step_committed s e s' I Hstep Hc) as [Ev Cm].
    destruct (handled_requests s e) as (R1 & R2 & R3).
    unfold position_requests at 1. rewrite (cm_page _ _ Cm).
    fold (position_requests (commit false (handled s e))).
    rewrite commit_requests, R1.
    unfold commit_asks_position, location_runs. rewrite R2, R3.
    rewrite (ev_deps_location _ _ Ev).
    destruct I as [_ C]. destruct (cons_deps s C) as (Dl & _). rewrite Dl.
    unfold location_deps, asks_position, turns_location_on.
    destruct e as [pos|message| | | |p|]; cbn;
      rewrite ?Bool.eqb_reflx; cbn; try lia.
    destruct (showUserLocation_or_default (props s)),
      (showUserLocation_or_default p), (navigator (page s)); cbn; lia.
  - destruct (quiet_step s e s' Hstep Hc) as (_ & _ & _ & _ & _ & _ & -> & _).
    destruct e; cbn in *; try discriminate; lia.
Qed.

Lemma mount_requests p google nav key scripts :
  position_requests (mount p (fresh_page google nav key scripts))
  = if asks_position p nav then 1 else 0.
Proof.
  rewrite WebMount.mount_settle.
  pose proof (commit_requests true
                (initial p (fresh_page google nav key scripts))) as Hr.
  pose proof (commit_props true
                (initial p (fresh_page google nav key scripts))) as Hp.
  assert (Hd : deps_location
                 (fiber (commit true
                           (initial p (fresh_page google nav key scripts))))
               = location_deps p) by (now rewrite commit_result).
  assert (Hn : navigator
                 (page (commit true
                          (initial p (fresh_page google nav key scripts))))
               = nav) by (now rewrite commit_result).
  unfold commit_asks_position, location_runs in Hr. cbn in Hr.
  revert Hr Hp Hd Hn.
  generalize (commit true (initial p (fresh_page google nav key scripts))).
  intros c Hr Hp Hd Hn. unfold settle, rerender.
  destruct (queue (fiber c)); [exact Hr|].
  rewrite commit_requests. unfold commit_asks_position, location_runs.
  cbn. rewrite Hd, Hp. unfold location_deps. rewrite Bool.eqb_reflx.
  exact Hr.
Qed.

End WebHandles.

Module WebHead.
Import Web WebSpec WebFacts WebSteps WebMore.

Lemma list_max_ge l x : In x l -> x <= list_max l.
Proof.
  intros H. pose proof (proj1 (list_max_le l (list_max l)) (le_n _)) as Hall.
  rewrite Forall_forall in Hall. now apply Hall.
Qed.

(** Removing the node [createElement] made leaves the other scripts. *)
Lemma filter_new_script key scripts :
  filter (fun e => negb (Nat.eqb (script_id e)
                           (script_id (new_script key scripts))))
    (scripts ++ [new_script key scripts]) = scripts.
Proof.
  rewrite filter_app. cbn. rewrite Nat.eqb_refl. cbn. rewrite app_nil_r.
  apply forallb_filter_id. apply forallb_forall. intros e He.
  apply negb_true_iff, Nat.eqb_neq.
  pose proof (list_max_ge (map script_id scripts) (script_id e)
                (in_map script_id _ _ He)).
  unfold new_script. cbn. lia.
Qed.

Lemma step_head s e s' :
  invariant s -> step s e = Some s' -> e <> Unmounted ->
  head (page s') = head (page s) /\ mounted (fiber s') = true.
Proof.
  intros I Hstep Hne. pose proof (step_mounted s e s' Hstep) as Hm.
  destruct (commits e) eqn:Hc.
  - destruct (step_committed s e s' I Hstep Hc) as [Ev Cm].
    rewrite (cm_page _ _ Cm), commit_head, (ev_head _ _ Ev).
    rewrite (cm_mounted _ _ Cm), (ev_mounted _ _ Ev). auto.
  - unfold step in Hstep. rewrite Hm in Hstep. cbn in Hstep.
    destruct e; cbn in Hc; try discriminate; [|congruence].
    injection Hstep as <-. auto.
Qed.

Lemma run_head es : forall s s',
  invariant s -> mounted (fiber s) = true -> run s es = Some s' ->
  mounted (fiber s') = true -> head (page s') = head (page s).
Proof.
  induction es as [|e es IH]; cbn; intros s s' I Hm H Hm'.
  - now injection H as <-.
  - destruct (step s e) as [s1|] eqn:Hs; [|discriminate].
    assert (Hne : e <> Unmounted).
    { intros ->. unfold step in Hs. rewrite Hm in Hs. cbn in Hs.
      injection Hs as <-.
      assert (Hu : mounted (fiber (unmount s)) = false).
      { unfold unmount, script_effect_cleanup.
        destruct (script_cleanup (fiber s)); [destruct (head_contains _ _)|];
          reflexivity. }
      destruct es as [|e' es].
      - cbn in H. injection H as <-. congruence.
      - change (run (unmount s) (e' :: es))
          with (match step (unmount s) e' with
                | Some s2 => run s2 es
                | None => None
                end) in H.
        unfold step in H. rewrite Hu in H. discriminate H. }
    destruct (step_head s e s1 I Hs Hne) as [Hh Hm1].
    rewrite <- Hh. apply IH; auto. now apply (step_invariant s e).
Qed.

Lemma mount_head p google nav key scripts :
  head (page (mount p (fresh_page google nav key scripts)))
  = (if google then scripts else scripts ++ [new_script key scripts])
  /\ mounted (fiber (mount p (fresh_page google nav key scripts))) = true.
Proof.
  rewrite WebMount.mount_settle.
  assert (H : head (page (commit true
                            (initial p (fresh_page google nav key scripts))))
              = (if google then scripts else scripts ++ [new_script key scripts])
              /\ mounted (fiber (commit true
                            (initial p (fresh_page google nav key scripts))))
                 = true).
  { rewrite commit_result. cbn. now destruct google. }
  revert H.
  generalize (commit true (initial p (fresh_page google nav key scripts))).
  intros c [H1 H2]. unfold settle, rerender.
  destruct (queue (fiber c)); [auto|].
  now rewrite commit_head, commit_mounted.
Qed.

(** Unmounting gives the head of the document back as it was found. *)
Lemma unmount_restores_head p google nav key scripts es s s' :
  run (mount p (fresh_page google nav key scripts)) es = Some s ->
  step s Unmounted = Some s' ->
  head (page s') = scripts.
Proof.
  intros Hrun Hstep.
  pose proof (mount_invariant p google nav key scripts) as I0.
  destruct (mount_head p google nav key scripts) as [Hh0 Hm0].
  pose proof (step_mounted s _ s' Hstep) as Hm.
  pose proof (run_head es _ s I0 Hm0 Hrun Hm) as Hh.
  pose proof (run_cleanup es _ s I0 Hrun) as Hc.
  rewrite mount_cleanup in Hc. rewrite Hh0 in Hh.
  unfold step in Hstep. rewrite Hm in Hstep. cbn in Hstep.
  injection Hstep as <-.
  unfold unmount, script_effect_cleanup. rewrite Hc.
  destruct google; [exact Hh|].
  assert (Hin : head_contains (new_script key scripts) (page s) = true).
  { unfold head_contains. rewrite Hh. rewrite existsb_app. cbn.
    rewrite Nat.eqb_refl. cbn. apply orb_true_r. }
  rewrite Hin. cbn. rewrite Hh. apply filter_new_script.
Qed.

End WebHead.

Module NativeMore.
Import Native NativeSpec NativeFacts.

Lemma mount_accounted p os : accounted (mount p (fresh_device os)).
Proof.
  unfold mount, location_effect. cbn.
  destruct (showUserLocation_or_default p); split; cbn;
    unfold position_queries, permission_requests; cbn; auto; lia.
Qed.

Lemma step_accounted s e s' :
  accounted s -> step s e = Some s' -> accounted s'.
Proof.
  intros [A1 A3 A4].
  unfold position_queries, permission_requests in *.
  destruct e as [status|l| |r|p]; cbn.
  - destruct (permission_pending (device s)) eqn:Hp; [discriminate|].
    destruct status; cbn; intros [= <-]; split;
      unfold position_queries, permission_requests; cbn; auto; try lia.
    all: try (destruct (location s); lia).
    all: try (constructor; [reflexivity | exact A4]).
  - destruct (position_pending (device s)) eqn:Hp; [discriminate|].
    intros [= <-]; split;
      unfold position_queries, permission_requests; cbn; auto; try lia.
    all: try (destruct (location s); lia).
  - destruct (position_pending (device s)) eqn:Hp; [discriminate|].
    intros [= <-]; split;
      unfold position_queries, permission_requests; cbn; auto; try lia.
    all: try (destruct (location s); lia).
  - destruct (truthy (errorMsg s)); [discriminate|].
    intros [= <-]; split; auto.
  - intros [= <-]. unfold location_effect. cbn.
    destruct (Bool.eqb _ _), (showUserLocation_or_default p); split;
      unfold position_queries, permission_requests; cbn; auto; lia.
Qed.

Lemma reachable_accounted s : reachable s -> accounted s.
Proof.
  intros (p & os & es & H). revert H.
  generalize (mount_accounted p os). generalize (mount p (fresh_device os)).
  induction es as [|e es IH]; cbn; intros s0 A H.
  - now injection H as <-.
  - destruct (step s0 e) as [s1|] eqn:Hs; [|discriminate].
    apply (IH s1); [|exact H]. now apply (step_accounted s0 e).
Qed.

(** A reading is never dropped and an error is never cleared. *)
Lemma step_keeps s e s' :
  step s e = Some s' ->
  (location s <> None -> location s' <> None)
  /\ (errorMsg s <> None -> errorMsg s' <> None).
Proof.
  destruct e as [status|l| |r|p]; cbn.
  - destruct (permission_pending (device s)); [discriminate|].
    destruct status; cbn; intros [= <-]; cbn; split; auto; discriminate.
  - destruct (position_pending (device s)); [discriminate|].
    intros [= <-]; cbn; split; auto; discriminate.
  - destruct (position_pending (device s)); [discriminate|].
    intros [= <-]; cbn; split; auto; discriminate.
  - destruct (truthy (errorMsg s)); [discriminate|].
    intros [= <-]; cbn; auto.
  - intros [= <-]. unfold location_effect. cbn.
    destruct (Bool.eqb _ _), (showUserLocation_or_default p); cbn; auto.
Qed.

(** New props never change what the component holds. *)
Lemma props_changed_keeps s p s' :
  step s (PropsChanged p) = Some s' ->
  location s' = location s /\ errorMsg s' = errorMsg s
  /\ region s' = region s /\ props s' = p
  /\ OS (device s') = OS (device s).
Proof.
  cbn. intros [= <-]. unfold location_effect. cbn.
  destruct (Bool.eqb _ _), (showUserLocation_or_default p); cbn; auto.
Qed.

End NativeMore.

Module WebOrphan.
Import Web WebSpec WebFacts WebSteps WebMore WebMaps WebHandles.

Lemma nth_error_update_nth {A : Type} (f : A -> A) (l : list A) n x :
  nth_error l n = Some x -> nth_error (update_nth n f l) n = Some (f x).
Proof.
  revert l; induction n as [|n IH]; intros [|y l]; cbn; try discriminate.
  - now intros [= ->].
  - apply IH.
Qed.

Lemma moved_deps s old pos s' :
  invariant s -> position (hooks s) = Some old -> moved old pos = true ->
  mapLoaded (hooks s) = true ->
  step s (PositionReceived pos) = Some s' ->
  same_deps_init (init_deps (props s) (hooks s))
    (init_deps (props s') (hooks s')) = false.
Proof.
  intros I Ho Hm Hl Hs.
  pose proof (step_props s _ s' I Hs) as Hp. cbn in Hp.
  pose proof (step_reading s pos s' I Hs) as Hr.
  destruct (step_never_clears s _ s' I Hs) as (_ & _ & Hl' & _).
  specialize (Hl' Hl).
  unfold init_deps, mapRegion. rewrite Hp, Ho, Hr, Hl, Hl'.
  unfold moved in Hm. apply negb_true_iff in Hm.
  unfold same_deps_init.
  cbn [latitude longitude latitudeDelta Bool.eqb andb].
  rewrite Hm. reflexivity.
Qed.

Lemma reachable_handles_valid s : reachable s -> handles_valid s.
Proof.
  intros (p & google & nav & key & scripts & es & H).
  apply (run_handles_valid es (mount p (fresh_page google nav key scripts)) s);
    [apply mount_invariant | apply mount_handles_valid | exact H].
Qed.

Lemma reachable_map_follows_region s : reachable s -> map_follows_region s.
Proof.
  intros (p & google & nav & key & scripts & es & H).
  apply (run_map_follows_region es
           (mount p (fresh_page google nav key scripts)) s);
    [apply mount_invariant | apply mount_map_follows_region | exact H].
Qed.

Lemma zoom_same d d' : same_number d d' = true -> zoom d = zoom d'.
Proof.
  destruct d as [x| | | |], d' as [y| | | |]; cbn;
    try discriminate; try reflexivity.
  intros H. apply Qeq_bool_iff in H. unfold zoom.
  rewrite (Qeqb_comp x y H 0%Q 0%Q (Qeq_refl 0%Q)).
  rewrite (Qleb_comp x y H 0%Q 0%Q (Qeq_refl 0%Q)).
  unfold overflows.
  rewrite (Qleb_comp _ _ (Qeq_refl _) (360 / x)%Q (360 / y)%Q
             (Qdiv_comp _ _ (Qeq_refl 360%Q) x y H)).
  unfold zoom_of_span. now rewrite (Qeq_eqR _ _ H).
Qed.

End WebOrphan.

Module NativeSteps.
Import Native NativeSpec NativeFacts NativeMore.

Lemma mount_deps p os :
  deps_location (mount p (fresh_device os)) = showUserLocation_or_default p
  /\ props (mount p (fresh_device os)) = p.
Proof.
  unfold mount, location_effect. cbn.
  destruct (showUserLocation_or_default p) eqn:E; cbn; rewrite ?E; auto.
Qed.

Lemma step_deps s e s' :
  deps_location s = showUserLocation_or_default (props s) ->
  step s e = Some s' ->
  deps_location s' = showUserLocation_or_default (props s').
Proof.
  intros D.
  destruct e as [status|l| |r|p]; cbn.
  - destruct (permission_pending (device s)); [discriminate|].
    destruct status; cbn; intros [= <-]; exact D.
  - destruct (position_pending (device s)); [discriminate|].
    intros [= <-]; exact D.
  - destruct (position_pending (device s)); [discriminate|].
    intros [= <-]; exact D.
  - destruct (truthy (errorMsg s)); [discriminate|].
    intros [= <-]; exact D.
  - intros [= <-]. unfold location_effect. cbn.
    destruct (Bool.eqb _ _), (showUserLocation_or_default p) eqn:E; cbn;
      rewrite ?E; auto.
Qed.

Lemma reachable_deps s :
  reachable s -> deps_location s = showUserLocation_or_default (props s).
Proof.
  intros (p & os & es & H). revert H.
  assert (D : deps_location (mount p (fresh_device os))
              = showUserLocation_or_default
                  (props (mount p (fresh_device os)))).
  { destruct (mount_deps p os) as [-> ->]. reflexivity. }
  revert D. generalize (mount p (fresh_device os)).
  induction es as [|e es IH]; cbn; intros s0 D H.
  - now injection H as <-.
  - destruct (step s0 e) as [s1|] eqn:Hs; [|discriminate].
    apply (IH s1); [|exact H]. now apply (step_deps s0 e).
Qed.

Lemma step_permission_requests s e s' :
  deps_location s = showUserLocation_or_default (props s) ->
  step s e = Some s' ->
  permission_requests s'
  = permission_requests s + (if turns_location_on s e then 1 else 0).
Proof.
  intros D. unfold permission_requests.
  destruct e as [status|l| |r|p]; cbn.
  - destruct (permission_pending (device s)); [discriminate|].
    destruct status; cbn; intros [= <-]; cbn; lia.
  - destruct (position_pending (device s)); [discriminate|].
    intros [= <-]; cbn; lia.
  - destruct (position_pending (device s)); [discriminate|].
    intros [= <-]; cbn; lia.
  - destruct (truthy (errorMsg s)); [discriminate|].
    intros [= <-]; cbn; lia.
  - intros [= <-]. unfold location_effect. cbn. rewrite D.
    destruct (showUserLocation_or_default (props s)),
      (showUserLocation_or_default p) eqn:E; cbn; rewrite ?E; cbn; lia.
Qed.

Lemma run_keeps es : forall s s',
  run s es = Some s' ->
  (location s <> None -> location s' <> None)
  /\ (errorMsg s <> None -> errorMsg s' <> None).
Proof.
  induction es as [|e es IH]; cbn; intros s s' H.
  - injection H as <-. auto.
  - destruct (step s e) as [s1|] eqn:Hs; [|discriminate].
    destruct (step_keeps s e s1 Hs) as [A B].
    destruct (IH s1 s' H) as [A' B']. auto.
Qed.

Lemma run_reachable s es s' :
  reachable s -> run s es = Some s' -> reachable s'.
Proof.
  intros (p & os & es0 & H0) H. exists p, os, (es0 ++ es).
  revert H0. generalize (mount p (fresh_device os)).
  induction es0 as [|e es0 IH]; cbn; intros s0 H0.
  - injection H0 as ->. exact H.
  - destruct (step s0 e) as [s1|]; [|discriminate]. now apply IH.
Qed.

End NativeSteps.

Module WebUnsupported.
Import Web WebSpec WebFacts WebSteps WebMore WebMount.

Lemma mount_unsupported p google key scripts :
  showUserLocation_or_default p = true ->
  errorMsg (hooks (mount p (fresh_page google NavigatorWithoutGeolocation
                              key scripts))) <> None
  /\ maps (page (mount p (fresh_page google NavigatorWithoutGeolocation
                            key scripts))) = [].
Proof.
  intros Hshow. rewrite mount_settle.
  set (pg := fresh_page google NavigatorWithoutGeolocation key scripts).
  pose proof (commit_queue_first true (initial p pg) eq_refl) as Hq.
  assert (Hu : commit_reports_unsupported true (initial p pg) = true).
  { unfold commit_reports_unsupported, reports_unsupported, asks_position,
      location_runs. cbn. now rewrite Hshow. }
  rewrite Hu in Hq.
  destruct (initial_queue p pg) as (_ & Hmaps & _).
  pose proof (commit_hooks true (initial p pg)) as Hh.
  pose proof (commit_result true (initial p pg)) as Hpg.
  apply (f_equal (fun s => google_maps (page s))) in Hpg. cbn in Hpg.
  revert Hq Hmaps Hh Hpg. generalize (commit true (initial p pg)).
  intros c Hq Hmaps Hh Hpg. change (maps pg) with (@nil GoogleMap) in Hmaps.
  unfold settle. rewrite Hq. cbn [app].
  unfold rerender. rewrite commit_hooks, commit_maps.
  assert (He : errorMsg (hooks (apply_queue c))
               = Some "Geolocation is not supported by this browser").
  { unfold apply_queue. cbn. rewrite Hq.
    destruct (true && google_maps (page (initial p pg)))%bool; reflexivity. }
  split; [rewrite He; discriminate|].
  assert (Hb : commit_builds_map false (apply_queue c) = false).
  { unfold commit_builds_map, init_ready, container_rendered.
    rewrite He. cbn. now rewrite andb_false_r, andb_false_r. }
  rewrite Hb, app_nil_r. exact Hmaps.
Qed.

Lemma run_after_error es : forall s s',
  invariant s -> errorMsg (hooks s) <> None -> run s es = Some s' ->
  errorMsg (hooks s') <> None /\ maps (page s') = maps (page s).
Proof.
  induction es as [|e es IH]; cbn; intros s s' I He H.
  - injection H as <-. auto.
  - destruct (step s e) as [s1|] eqn:Hs; [|discriminate].
    destruct (step_never_clears s e s1 I Hs) as (_ & He1 & _).
    destruct (step_no_map_after_error s e s1 I Hs He) as [Hm _].
    destruct (IH s1 s' (step_invariant s e s1 I Hs) (He1 He) H) as [A B].
    split; [exact A | congruence].
Qed.

Lemma step_loaded s e s' :
  invariant s -> step s e = Some s' ->
  mapLoaded (hooks s) = false -> mapLoaded (hooks s') = true ->
  e = ScriptLoaded.
Proof.
  intros I Hs Hf Ht.
  destruct (commits e) eqn:Hc.
  - destruct (step_committed s e s' I Hs Hc) as [_ C].
    pose proof (cm_loaded _ _ C) as Hl. rewrite Ht in Hl.
    destruct e; try reflexivity; try discriminate Hc;
      cbn in Hl; try destruct (own_script_loading s); cbn in Hl; congruence.
  - destruct (quiet_step s e s' Hs Hc) as (_ & Hh & _). congruence.
Qed.

End WebUnsupported.

Module WebMarkerMap.
Import Web WebSpec WebFacts WebSteps WebMore WebMaps WebHandles WebMount.

(** While the marker exists, only a reading that moves the center changes
    what the map effect depends on. *)
Lemma marked_map_deps s e :
  invariant s -> userMarkerRef (refs s) <> None ->
  moves_marked_map s e = false ->
  same_deps_init (init_deps (props s) (hooks s))
    (init_deps (props (handled s e)) (hooks (handled s e))) = true.
Proof.
  intros [_ C] Hu Hm.
  destruct (cons_marker_needs s C Hu) as (Hg & Hp & _).
  destruct (googleMapRef (refs s)) as [g|] eqn:Eg; [|congruence].
  destruct (cons_map s C g Eg) as [Hl _].
  destruct (position (hooks s)) as [old|] eqn:Ep; [|congruence].
  destruct (userMarkerRef (refs s)) as [i|] eqn:Ei; [|congruence].
  assert (Hsame : forall h,
             mapLoaded h = true -> position h = Some old ->
             forall p, same_deps_init (init_deps (props s) (hooks s))
                         (init_deps p h) = true).
  { intros h Hlh Hph p. unfold init_deps, mapRegion.
    rewrite Ep, Hl, Hlh, Hph. unfold same_deps_init.
    cbn [latitude longitude latitudeDelta Bool.eqb andb].
    now rewrite !same_number_refl. }
  destruct e as [pos|message| | | |p|]; cbn.
  - unfold moves_marked_map in Hm. rewrite Ep, Ei in Hm.
    unfold moved in Hm. apply negb_false_iff in Hm.
    unfold init_deps, mapRegion. cbn. rewrite Ep, Hl.
    unfold same_deps_init.
    cbn [latitude longitude latitudeDelta Bool.eqb andb].
    now rewrite Hm, same_number_refl.
  - now apply Hsame.
  - destruct (own_script_loading s); now apply Hsame.
  - destruct (own_script_loading s); now apply Hsame.
  - now apply Hsame.
  - now apply Hsame.
  - now apply Hsame.
Qed.

Lemma nth_error_app_new {A : Type} (l : list A) (x : A) :
  nth_error (l ++ [x]) (length l) = Some x.
Proof. induction l; cbn; auto. Qed.

Lemma nth_error_update_same {A : Type} (f : A -> A) (l : list A) n :
  nth_error (update_nth n f l) n = option_map f (nth_error l n).
Proof.
  revert l; induction n as [|n IH]; intros [|y l]; cbn; auto.
Qed.

(** One commit keeps the marker on the displayed map, when it builds no
    map while the marker exists. *)
Lemma commit_marker_on_displayed_map s0 :
  marker_on_displayed_map s0 ->
  (userMarkerRef (refs s0) <> None -> commit_builds_map false s0 = false) ->
  marker_on_displayed_map (commit false s0).
Proof.
  intros Hon Hnb m. unfold user_marker.
  rewrite commit_userMarkerRef, commit_markers, commit_googleMapRef.
  assert (Hkeep : forall i m0,
             userMarkerRef (refs s0) = Some i ->
             nth_error (markers (page s0)) i = Some m0 ->
             marker_map m0 = commit_map_handle false s0).
  { intros i m0 Ei En. unfold commit_map_handle.
    rewrite Hnb by congruence. apply Hon. unfold user_marker.
    now rewrite Ei. }
  destruct (commit_marker_action false s0) as [map pos|i pos|i|] eqn:Ea;
    unfold marker_ref_after, markers_after.
  - rewrite nth_error_app_new. intros [= <-]. cbn.
    unfold commit_marker_action in Ea.
    destruct (marker_runs false (fiber s0) (props s0) (hooks s0));
      [|discriminate].
    unfold marker_action in Ea.
    destruct (commit_map_handle false s0) as [map'|],
      (position (hooks s0)),
      (showUserLocation_or_default (props s0) && google_maps (page s0))%bool,
      (userMarkerRef (refs s0));
      try destruct (negb (showUserLocation_or_default (props s0)));
      try discriminate.
    all: now injection Ea as -> _.
  - assert (Ei : userMarkerRef (refs s0) = Some i).
    { unfold commit_marker_action in Ea.
      destruct (marker_runs false (fiber s0) (props s0) (hooks s0));
        [|discriminate].
      unfold marker_action in Ea.
      destruct (commit_map_handle false s0),
        (position (hooks s0)),
        (showUserLocation_or_default (props s0) && google_maps (page s0))%bool,
        (userMarkerRef (refs s0));
        try destruct (negb (showUserLocation_or_default (props s0)));
        try discriminate.
      all: now injection Ea as -> _. }
    rewrite Ei, nth_error_update_same.
    destruct (nth_error (markers (page s0)) i) as [m0|] eqn:En;
      [|discriminate].
    cbn. intros [= <-]. cbn. now apply (Hkeep i).
  - discriminate.
  - destruct (userMarkerRef (refs s0)) as [i|] eqn:Ei; [|discriminate].
    intros En. now apply (Hkeep i).
Qed.

Lemma step_marker_on_displayed_map s e s' :
  invariant s -> marker_on_displayed_map s ->
  moves_marked_map s e = false -> step s e = Some s' ->
  marker_on_displayed_map s'.
Proof.
  intros I Hon Hm Hs. destruct (commits e) eqn:Hc.
  - destruct (step_committed s e s' I Hs Hc) as [E K].
    assert (H0 : marker_on_displayed_map (commit false (handled s e))).
    { apply commit_marker_on_displayed_map.
      - intros m. unfold user_marker.
        rewrite (ev_refs _ _ E), (ev_markers _ _ E). apply Hon.
      - rewrite (ev_refs _ _ E). intros Hu.
        apply (commit_builds_map_quiet s).
        + rewrite (ev_deps_init _ _ E).
          destruct I as [_ C]. now destruct (cons_deps s C) as (_ & D & _).
        + now apply marked_map_deps. }
    intros m. unfold user_marker.
    rewrite (cm_marker _ _ K), (cm_page _ _ K), (cm_map _ _ K). apply H0.
  - destruct (quiet_step s e s' Hs Hc) as (_ & _ & Hg & Hu & _ & Hk & _).
    intros m. unfold user_marker. rewrite Hu, Hk, Hg. apply Hon.
Qed.

Lemma run_marker_on_displayed_map es : forall s s',
  invariant s -> marker_on_displayed_map s ->
  keeps_marked_map s es = true -> run s es = Some s' ->
  marker_on_displayed_map s'.
Proof.
  induction es as [|e es IH]; cbn; intros s s' I Hon Hk Hr.
  - now injection Hr as <-.
  - destruct (step s e) as [s1|] eqn:Hs; [|discriminate].
    apply andb_true_iff in Hk. destruct Hk as [Hm Hk].
    apply negb_true_iff in Hm.
    apply (IH s1 s'); auto.
    + now apply (step_invariant s e).
    + now apply (step_marker_on_displayed_map s e).
Qed.

Lemma no_reading_no_marker s :
  consistent s -> position (hooks s) = None -> marker_on_displayed_map s.
Proof.
  intros C Hp m Hm. unfold user_marker in Hm.
  destruct (userMarkerRef (refs s)) eqn:Hu; [|discriminate].
  destruct (cons_marker_needs s C) as (_ & Hpos & _); congruence.
Qed.

Lemma mount_marker_on_displayed_map p google nav key scripts :
  marker_on_displayed_map (mount p (fresh_page google nav key scripts)).
Proof.
  pose proof (mount_invariant p google nav key scripts) as [_ C].
  destruct (mount_summary p google nav key scripts) as (_ & Hp & _).
  revert C Hp. generalize (mount p (fresh_page google nav key scripts)).
  exact no_reading_no_marker.
Qed.

End WebMarkerMap.

Module WebHidden.
Import Web WebSpec WebFacts WebSteps WebMore WebHandles.

(** Hiding the location detaches the marker that exists. *)
Lemma hide_removes_marker s p s' i :
  invariant s -> userMarkerRef (refs s) = Some i ->
  showUserLocation_or_default p = false ->
  step s (PropsChanged p) = Some s' ->
  exists m, nth_error (markers (page s)) i = Some m
            /\ markers (page s')
               = update_nth i setMap_null (markers (page s))
            /\ nth_error (markers (page s')) i = Some (setMap_null m).
Proof.
  intros I Hu Hp Hstep. rewrite (step_next s _ I) in Hstep.
  unfold next in Hstep.
  destruct (negb (mounted (fiber s))); [discriminate|].
  injection Hstep as <-.
  destruct (settle_commit_props s p I)
    as (_ & _ & _ & _ & _ & _ & -> & _).
  pose proof I as [_ C].
  destruct (cons_marker_needs s C) as (_ & _ & Hshow); [congruence|].
  destruct (cons_deps s C) as (_ & _ & Dm).
  assert (Ha : commit_marker_action false (with_props p s) = RemoveMarker i).
  { unfold commit_marker_action, marker_runs. cbn.
    rewrite Dm. unfold marker_deps, same_deps_marker.
    rewrite Hshow, Hp, Nat.eqb_refl. cbn.
    unfold marker_action. rewrite Hu, Hp. cbn.
    destruct (commit_map_handle false (with_props p s)),
      (position (hooks s)); reflexivity. }
  rewrite commit_markers, Ha. cbn. unfold markers_after.
  pose proof (cons_markers s C) as Hm. rewrite Hu in Hm.
  destruct Hm as (l1 & m & l2 & -> & <- & _).
  exists m. rewrite nth_error_middle, update_nth_middle, nth_error_middle.
  auto.
Qed.

(** A commit with location display off makes no marker. *)
Lemma commit_hidden_markers s0 :
  showUserLocation_or_default (props s0) = false ->
  length (markers (page (commit false s0))) = length (markers (page s0)).
Proof.
  intros Hs. rewrite commit_markers. unfold commit_marker_action.
  destruct (marker_runs false (fiber s0) (props s0) (hooks s0));
    [|reflexivity].
  unfold marker_action. rewrite Hs. cbn.
  destruct (commit_map_handle false s0), (position (hooks s0)),
    (userMarkerRef (refs s0)); cbn; unfold markers_after;
    try reflexivity; apply update_nth_length.
Qed.

(** A step that ends with location display off asks for no position and
    makes no marker, and leaves no marker on a map. *)
Lemma step_hidden s e s' :
  invariant s -> step s e = Some s' ->
  showUserLocation_or_default (props s') = false ->
  position_requests s' = position_requests s
  /\ length (markers (page s')) = length (markers (page s))
  /\ userMarkerRef (refs s') = None
  /\ attached_markers s' = [].
Proof.
  intros I Hs Hoff.
  pose proof (step_invariant s e s' I Hs) as I'.
  pose proof (step_props s e s' I Hs) as Hp.
  split; [|split; [|now apply no_marker_when_hidden]].
  - rewrite (step_requests s e s' I Hs).
    destruct e; cbn; try lia.
    rewrite Hp in Hoff. rewrite Hoff, andb_false_r. cbn. lia.
  - destruct (commits e) eqn:Hc.
    + destruct (step_committed s e s' I Hs Hc) as [E K].
      rewrite (cm_page _ _ K), commit_hidden_markers.
      * now rewrite (ev_markers _ _ E).
      * now rewrite <- (cm_props _ _ K).
    + destruct (quiet_step s e s' Hs Hc) as (_ & _ & _ & _ & _ & Hk & _).
      now rewrite Hk.
Qed.

End WebHidden.

Module NativeHidden.
Import Native NativeSpec NativeFacts NativeMore NativeSteps.

(** A step that ends with location display off requests no permission. *)
Lemma native_step_hidden s e s' :
  reachable s -> step s e = Some s' ->
  showUserLocation_or_default (props s') = false ->
  permission_requests s' = permission_requests s.
Proof.
  intros R Hs Hoff.
  rewrite (step_permission_requests s e s' (reachable_deps s R) Hs).
  destruct e; cbn; try lia.
  destruct (props_changed_keeps s p s' Hs) as (_ & _ & _ & Hp & _).
  rewrite Hp in Hoff. rewrite Hoff, andb_false_r. lia.
Qed.

End NativeHidden.

(** * The claims *)

(** Claim C1.  Mounted without a caller-supplied [initialRegion], and with
    no position reading obtained, either implementation starts on the fixed
    default region: latitude 37.78825, longitude -122.4324, latitudeDelta
    0.0922, longitudeDelta 0.0421.  On the web the region computed for the
    map is the default one and a map built during the mount is centered on
    it at the zoom of 0.0922; on native the region state, which is the
    region handed to the map view, is the default one. *)
Theorem C1_default_region_is_initial_viewport (p : MapProps) :
  initialRegion p = None ->
  (forall google nav key scripts,
      let s := Web.mount p (Web.fresh_page google nav key scripts) in
      Web.position (Web.hooks s) = None
      /\ Web.mapRegion (Web.props s) (Web.hooks s) = defaultRegion
      /\ Forall (fun m => m = {| Web.map_center :=
                                   {| lat := 37.78825; lng := -122.4324 |};
                                 Web.map_zoom := zoom 0.0922 |})
           (Web.maps (Web.page s)))
  /\ (forall os,
         let s := Native.mount p (Native.fresh_device os) in
         Native.location s = None
         /\ Native.region s = defaultRegion
         /\ exists mv, Native.render s = View [MapView mv []]
                       /\ mv_region mv = defaultRegion)
  /\ defaultRegion = mkRegion 37.78825 (-122.4324) 0.0922 0.0421.
Proof.
  intros Hp. split; [|split; [|reflexivity]].
  - intros google nav key scripts s.
    destruct (WebMount.mount_summary p google nav key scripts)
      as (Hprops & Hpos & built & Hmaps).
    fold s in Hprops, Hpos, Hmaps.
    assert (Hr : Web.mapRegion (Web.props s) (Web.hooks s) = defaultRegion).
    { unfold Web.mapRegion. now rewrite Hpos, Hprops, Hp. }
    repeat split; auto.
    rewrite Hmaps. destruct built; constructor; [|constructor].
    rewrite Hprops in Hr. rewrite Hr.
    unfold WebSpec.spec_center. now rewrite Hp.
  - intros os s. unfold s, Native.mount, Native.location_effect,
      Native.render. cbn. rewrite Hp.
    destruct (showUserLocation_or_default p); cbn;
      (repeat split; auto; eexists; split; reflexivity).
Qed.

Lemma C1_witness :
  Native.region
    (Native.mount Examples.no_props (Native.fresh_device android))
  = defaultRegion.
Proof.
  destruct (C1_default_region_is_initial_viewport Examples.no_props)
    as (_ & H & _); [reflexivity|].
  exact (proj1 (proj2 (H android))).
Defined.

(** Claim C2.  In every state of either implementation in which an error
    message has been recorded (permission denied, location unavailable,
    geolocation unsupported, script load failure), the component renders
    that message as text and no map surface; and in no reachable state does
    the rendered tree hold both a text and a map surface. *)
Theorem C2_error_message_excludes_map (ws : Web.State) (ns : Native.State) :
  WebSpec.reachable ws -> NativeSpec.reachable ns ->
  ((forall msg, Web.errorMsg (Web.hooks ws) = Some msg ->
                Web.render ws = View [Text msg])
   /\ ~ (0 < count_elements is_text (Web.render ws)
         /\ 0 < count_elements is_map_surface (Web.render ws)))
  /\ ((forall msg, Native.errorMsg ns = Some msg ->
                   Native.render ns = View [Text msg])
      /\ ~ (0 < count_elements is_text (Native.render ns)
            /\ 0 < count_elements is_map_surface (Native.render ns))).
Proof.
  intros Rw Rn. split; split.
  - intros msg H. unfold Web.render. rewrite H.
    pose proof (WebFacts.reachable_invariant ws Rw) as [_ C].
    now rewrite (NativeFacts.truthy_nonempty msg
                   (WebSpec.cons_error ws C msg H)).
  - unfold Web.render.
    destruct (truthy (Web.errorMsg (Web.hooks ws))); cbn; lia.
  - intros msg H. now apply NativeFacts.native_render_error.
  - unfold Native.render. destruct (truthy (Native.errorMsg ns)); cbn.
    + lia.
    + destruct (Native.location ns); cbn; lia.
Qed.

Lemma C2_witness :
  Web.render (Examples.web_after [Web.ScriptFailed])
  = View [Text "Failed to load Google Maps"]
  /\ Native.render
       (Examples.native_after [Native.PermissionAnswered Native.denied])
     = View [Text "Permission to access location was denied"].
Proof.
  destruct (C2_error_message_excludes_map
              (Examples.web_after [Web.ScriptFailed])
              (Examples.native_after [Native.PermissionAnswered Native.denied]))
    as [[Hw _] [Hn _]].
  - exists Examples.no_props, false, Web.NavigatorWithGeolocation, "", [],
      [Web.ScriptFailed]. vm_compute. reflexivity.
  - exists Examples.no_props, ios,
      [Native.PermissionAnswered Native.denied]. vm_compute. reflexivity.
  - split; [apply Hw | apply Hn]; vm_compute; reflexivity.
Defined.

(** Claim C3 (as amended).  The zoom level is computed from the latitude
    delta alone, as log2(360 / latitudeDelta) - 2.5.  For latitudeDelta =
    0.0922 it is a finite number that lies between 9.43 and 9.435, that is
    9.43 to two decimals. *)
Theorem C3_zoom_of_the_default_span :
  exists z : R,
    zoom 0.0922 = Real z
    /\ (9.43 < z < 9.435)%R
    /\ WebSpec.agrees_to_two_decimals z 9.43.
Proof.
  exists (zoom_of_span 0.0922).
  pose proof ZoomFacts.zoom_default_bounds as [Hlo Hhi].
  split; [exact ZoomFacts.zoom_default|]. split; [now split|].
  unfold WebSpec.agrees_to_two_decimals. apply Rabs_le. lra.
Qed.

(** Claim C3 as stated fails: the zoom of latitudeDelta 0.0922 is not 9.47
    to two decimals; it is below 9.435. *)
Lemma C3_counterexample :
  ~ (exists z : R,
        zoom 0.0922 = Real z /\ WebSpec.agrees_to_two_decimals z 9.47).
Proof.
  intros (z & Hz & H). rewrite ZoomFacts.zoom_default in Hz.
  injection Hz as <-.
  unfold WebSpec.agrees_to_two_decimals in H.
  pose proof ZoomFacts.zoom_default_bounds as [Hlo Hhi].
  rewrite Rabs_minus_sym in H.
  pose proof (Rle_abs (9.47 - zoom_of_span 0.0922)) as Habs. lra.
Qed.

(** Claim C4 (as amended).  The map object is built by the map effect each
    time that effect runs with the script loaded and the container mounted,
    and the effect runs whenever one of its tracked inputs changed:
    [mapLoaded] or the latitude, longitude or latitudeDelta of the region.
    So no step builds more than one map, a step that leaves the tracked
    inputs as they were builds none, and a position reading that arrives
    while the map is shown and moves the center builds a new map object,
    centered on the reading, which replaces the handle in [googleMapRef]. *)
Theorem C4_map_rebuilt_when_tracked_inputs_change
    (s : Web.State) (e : Web.Event) (s' : Web.State) :
  WebSpec.reachable s -> Web.step s e = Some s' ->
  length (Web.maps (Web.page s')) <= S (length (Web.maps (Web.page s)))
  /\ (Web.same_deps_init
        (WebSpec.init_deps (Web.props s) (Web.hooks s))
        (WebSpec.init_deps (Web.props s') (Web.hooks s')) = true ->
      Web.maps (Web.page s') = Web.maps (Web.page s))
  /\ (forall pos,
         e = Web.PositionReceived pos ->
         Web.mapLoaded (Web.hooks s) = true ->
         Web.errorMsg (Web.hooks s) = None ->
         Web.same_deps_init
           (WebSpec.init_deps (Web.props s) (Web.hooks s))
           (WebSpec.init_deps (Web.props s') (Web.hooks s')) = false ->
         Web.maps (Web.page s')
         = Web.maps (Web.page s)
           ++ [{| Web.map_center := WebSpec.latlng_of pos;
                  Web.map_zoom := zoom 0.0922 |}]
         /\ Web.googleMapRef (Web.refs s')
            = Some (length (Web.maps (Web.page s)))).
Proof.
  intros R Hstep. pose proof (WebFacts.reachable_invariant s R) as I.
  destruct (WebFacts.step_maps s e s' I Hstep) as (built & Hm & Hq & _).
  split; [|split].
  - rewrite Hm, length_app. destruct built; cbn; lia.
  - intros Hsame. rewrite Hm, (Hq Hsame). apply app_nil_r.
  - intros pos He Hl Herr Hd. subst e.
    now apply (WebFacts.reading_rebuilds_map s pos s').
Qed.

Lemma C4_witness :
  Web.googleMapRef
    (Web.refs (Examples.web_after
                 [Web.ScriptLoaded; Web.PositionReceived Examples.reading_1]))
  = Some 1.
Proof.
  destruct (C4_map_rebuilt_when_tracked_inputs_change
              (Examples.web_after [Web.ScriptLoaded])
              (Web.PositionReceived Examples.reading_1)
              (Examples.web_after
                 [Web.ScriptLoaded; Web.PositionReceived Examples.reading_1]))
    as (_ & _ & H).
  - exists Examples.no_props, false, Web.NavigatorWithGeolocation, "", [],
      [Web.ScriptLoaded]. vm_compute. reflexivity.
  - vm_compute. reflexivity.
  - refine (proj2 (H Examples.reading_1 eq_refl _ _ _));
      vm_compute; reflexivity.
Defined.

(** Claim C4 as stated fails: when the script loads first and the reading
    arrives afterwards, the component has built two map objects. *)
Lemma C4_counterexample :
  ~ (forall s, WebSpec.reachable s -> length (Web.maps (Web.page s)) <= 1).
Proof.
  intros H.
  specialize (H (Examples.web_after
                   [Web.ScriptLoaded; Web.PositionReceived Examples.reading_1])).
  assert (Hlen : length (Web.maps (Web.page (Examples.web_after
                   [Web.ScriptLoaded; Web.PositionReceived Examples.reading_1])))
                 = 2) by (vm_compute; reflexivity).
  rewrite Hlen in H. 
  assert (2 <= 1) as Habs; [|lia].
  apply H.
  exists Examples.no_props, false, Web.NavigatorWithGeolocation, "", [],
    [Web.ScriptLoaded; Web.PositionReceived Examples.reading_1].
  vm_compute. reflexivity.
Qed.

(** The tracked inputs are compared as React compares them, with
    [Object.is]: [0] and [-0] are two values.  When the latitude asked for
    goes from [0] to [-0] the map effect runs again and a second map is
    built. *)
Lemma zero_to_negative_zero_rebuilds_the_map :
  same_number 0 NegativeZero = false
  /\ length (Web.maps (Web.page (Examples.web_at_zero_after
                                   [Web.ScriptLoaded]))) = 1
  /\ length (Web.maps (Web.page (Examples.web_at_zero_after
                                   [Web.ScriptLoaded;
                                    Web.PropsChanged
                                      Examples.at_negative_zero]))) = 2.
Proof. repeat split; vm_compute; reflexivity. Qed.

(** Claim C5 (as amended).  Whenever a position reading has been received
    and the map exists -- on the web: the map object has been built and
    location display is on; on native: no error is recorded, so the map
    view is rendered -- exactly one user-location marker exists, positioned
    at the coordinates of the latest reading.  On the web that marker is on
    the map on display, the one [googleMapRef] points to, in every
    execution in which no reading has moved the map while the marker
    existed; what the marker effect does after such a reading is left out
    here.  A further reading repositions the marker object that exists and
    builds no second one. *)
Theorem C5_one_marker_at_the_reading
    (p : MapProps) (google : bool) (nav : Web.Navigator) (key : string)
    (scripts : list Web.ScriptElement) (es : list Web.Event)
    (ws : Web.State) (ns : Native.State) :
  Web.run (Web.mount p (Web.fresh_page google nav key scripts)) es
  = Some ws ->
  NativeSpec.reachable ns ->
  (forall pos,
      Web.googleMapRef (Web.refs ws) <> None ->
      Web.position (Web.hooks ws) = Some pos ->
      showUserLocation_or_default (Web.props ws) = true ->
      exists m,
        WebSpec.user_marker ws = Some m
        /\ WebSpec.attached_markers ws = [m]
        /\ Web.marker_position m = WebSpec.latlng_of pos
        /\ (WebSpec.keeps_marked_map
              (Web.mount p (Web.fresh_page google nav key scripts)) es
            = true ->
            Web.marker_map m = Web.googleMapRef (Web.refs ws)))
  /\ (forall i pos ws',
         Web.userMarkerRef (Web.refs ws) = Some i ->
         Web.step ws (Web.PositionReceived pos) = Some ws' ->
         Web.userMarkerRef (Web.refs ws') = Some i
         /\ length (Web.markers (Web.page ws'))
            = length (Web.markers (Web.page ws))
         /\ exists m,
              WebSpec.user_marker ws' = Some m
              /\ WebSpec.attached_markers ws' = [m]
              /\ Web.marker_position m = WebSpec.latlng_of pos)
  /\ (forall l,
         Native.location ns = Some l -> Native.errorMsg ns = None ->
         NativeSpec.marker_coordinates (Native.render ns)
         = [NativeSpec.latlng_of l]
         /\ count_elements is_marker (Native.render ns) = 1).
Proof.
  intros Hrun Rn.
  pose proof (WebFacts.mount_invariant p google nav key scripts) as I0.
  pose proof (WebFacts.run_invariant es _ ws I0 Hrun) as I.
  split; [|split].
  - intros pos Hg Hp Hs.
    destruct (WebFacts.marker_shown ws pos I Hg Hp Hs) as (m & Hm & Ha & Hc).
    exists m. repeat split; auto.
    intros Hk.
    apply (WebMarkerMap.run_marker_on_displayed_map es _ ws I0
             (WebMarkerMap.mount_marker_on_displayed_map _ _ _ _ _) Hk Hrun).
    exact Hm.
  - intros i pos ws' Hu Hstep.
    destruct (WebFacts.reading_moves_marker ws pos ws' i I Hu Hstep)
      as [Hu' Hm'].
    pose proof (WebFacts.step_invariant ws _ ws' I Hstep) as I'.
    split; [exact Hu'|]. split.
    + rewrite Hm'. apply WebFacts.update_nth_length.
    + pose proof I' as [Hq' C'].
      destruct (WebSpec.cons_marker_needs ws' C') as (Hg' & _ & Hs');
        [congruence|].
      apply WebFacts.marker_shown; auto.
      now apply (WebFacts.step_reading ws pos ws').
  - intros l Hl He. unfold Native.render. rewrite He, Hl. cbn.
    split; reflexivity.
Qed.

Lemma C5_witness :
  exists m,
    WebSpec.attached_markers
      (Examples.web_after
         [Web.ScriptLoaded; Web.PositionReceived Examples.reading_1]) = [m]
    /\ Web.marker_position m = WebSpec.latlng_of Examples.reading_1
    /\ Web.marker_map m
       = Web.googleMapRef
           (Web.refs
              (Examples.web_after
                 [Web.ScriptLoaded; Web.PositionReceived Examples.reading_1])).
Proof.
  destruct (C5_one_marker_at_the_reading
              Examples.no_props false Web.NavigatorWithGeolocation "" []
              [Web.ScriptLoaded; Web.PositionReceived Examples.reading_1]
              (Examples.web_after
                 [Web.ScriptLoaded; Web.PositionReceived Examples.reading_1])
              (Examples.native_after
                 [Native.PermissionAnswered Native.granted;
                  Native.PositionResolved Examples.native_reading]))
    as (H & _ & _).
  - vm_compute. reflexivity.
  - exists Examples.no_props, ios,
      [Native.PermissionAnswered Native.granted;
       Native.PositionResolved Examples.native_reading].
    vm_compute. reflexivity.
  - destruct (H Examples.reading_1) as (m & _ & Hm & Hpos & Hmap).
    + vm_compute. discriminate.
    + vm_compute. reflexivity.
    + vm_compute. reflexivity.
    + exists m. split; [exact Hm|]. split; [exact Hpos|].
      apply Hmap. vm_compute. reflexivity.
Defined.

(** Claim C5 as stated fails: permission granted and a reading received do
    not by themselves give a marker.  When the provider's script then fails
    to load there is no map and no marker. *)
Lemma C5_counterexample :
  ~ (forall s pos,
        WebSpec.reachable s -> Web.position (Web.hooks s) = Some pos ->
        exists m, WebSpec.attached_markers s = [m]
                  /\ Web.marker_position m = WebSpec.latlng_of pos).
Proof.
  intros H.
  destruct (H (Examples.web_after
                 [Web.PositionReceived Examples.reading_1; Web.ScriptFailed])
              Examples.reading_1) as (m & Hm & _).
  - exists Examples.no_props, false, Web.NavigatorWithGeolocation, "", [],
      [Web.PositionReceived Examples.reading_1; Web.ScriptFailed].
    vm_compute. reflexivity.
  - vm_compute. reflexivity.
  - vm_compute in Hm. discriminate Hm.
Qed.

(** Claim C6 (a defect of the code).  Turning [showUserLocation] off
    removes the marker and releases its handle, and no state has two
    markers on a map; but turning it on again with a fresh reading does
    not put the marker on the map.  In the execution below the script
    loads, a reading arrives, location display is turned off and on again,
    and a fresh reading with other coordinates arrives.  After the turn off
    the handle is null and no marker is on a map.  After the turn on the
    marker is made anew on the map on display.  After the fresh reading
    the map effect has built a map anew and the update branch of the marker
    effect has only moved the marker: it is at the fresh reading, but on
    the map that was replaced, and the map on display has no marker. *)
Theorem C6_marker_left_on_the_replaced_map :
  (Web.userMarkerRef
     (Web.refs
        (Examples.web_after
           [Web.ScriptLoaded; Web.PositionReceived Examples.reading_1;
            Web.PropsChanged Examples.hidden])) = None
   /\ WebSpec.attached_markers
        (Examples.web_after
           [Web.ScriptLoaded; Web.PositionReceived Examples.reading_1;
            Web.PropsChanged Examples.hidden]) = [])
  /\ (Web.googleMapRef
        (Web.refs
           (Examples.web_after
              [Web.ScriptLoaded; Web.PositionReceived Examples.reading_1;
               Web.PropsChanged Examples.hidden;
               Web.PropsChanged Examples.shown])) = Some 1
      /\ WebSpec.attached_markers
           (Examples.web_after
              [Web.ScriptLoaded; Web.PositionReceived Examples.reading_1;
               Web.PropsChanged Examples.hidden;
               Web.PropsChanged Examples.shown])
         = [{| Web.marker_position := WebSpec.latlng_of Examples.reading_1;
               Web.marker_map := Some 1;
               Web.marker_title := "You are here";
               Web.marker_click_listener := true |}])
  /\ (Web.googleMapRef
        (Web.refs
           (Examples.web_after
              [Web.ScriptLoaded; Web.PositionReceived Examples.reading_1;
               Web.PropsChanged Examples.hidden;
               Web.PropsChanged Examples.shown;
               Web.PositionReceived Examples.reading_2])) = Some 2
      /\ WebSpec.user_marker
           (Examples.web_after
              [Web.ScriptLoaded; Web.PositionReceived Examples.reading_1;
               Web.PropsChanged Examples.hidden;
               Web.PropsChanged Examples.shown;
               Web.PositionReceived Examples.reading_2])
         = Some {| Web.marker_position :=
                     WebSpec.latlng_of Examples.reading_2;
                   Web.marker_map := Some 1;
                   Web.marker_title := "You are here";
                   Web.marker_click_listener := true |}
      /\ WebSpec.attached_markers
           (Examples.web_after
              [Web.ScriptLoaded; Web.PositionReceived Examples.reading_1;
               Web.PropsChanged Examples.hidden;
               Web.PropsChanged Examples.shown;
               Web.PositionReceived Examples.reading_2])
         = [{| Web.marker_position := WebSpec.latlng_of Examples.reading_2;
               Web.marker_map := Some 1;
               Web.marker_title := "You are here";
               Web.marker_click_listener := true |}]
      /\ ~ WebSpec.marker_on_displayed_map
             (Examples.web_after
                [Web.ScriptLoaded; Web.PositionReceived Examples.reading_1;
                 Web.PropsChanged Examples.hidden;
                 Web.PropsChanged Examples.shown;
                 Web.PositionReceived Examples.reading_2])).
Proof.
  split; [split; vm_compute; reflexivity|].
  split; [split; vm_compute; reflexivity|].
  split; [vm_compute; reflexivity|].
  split; [vm_compute; reflexivity|].
  split; [vm_compute; reflexivity|].
  intros H.
  specialize (H (WebSpec.new_marker 1 Examples.reading_2)
                ltac:(vm_compute; reflexivity)).
  vm_compute in H. discriminate H.
Qed.

(** Claim C7 (as amended).  Within one mount the component injects the
    provider's script element at most once.  It injects none when the
    provider is already loaded ([window.google.maps] is defined) as it
    mounts; a script element that is in the page but has not finished
    loading does not stop it.  If the component unmounts before its script
    has finished loading, the element it injected is removed from the
    head of the document. *)
Theorem C7_script_injected_at_most_once (s : Web.State) :
  WebSpec.reachable s ->
  WebSpec.injections s <= 1
  /\ (forall el s',
         Web.own_script_loading s = Some el ->
         Web.step s Web.Unmounted = Some s' ->
         In el (Web.head (Web.page s))
         /\ (forall e, In e (Web.head (Web.page s')) ->
                       Web.script_id e <> Web.script_id el)
         /\ Web.calls (Web.page s')
            = Web.RemoveChild el :: Web.calls (Web.page s))
  /\ (forall p nav key scripts es s0,
         Web.run (Web.mount p (Web.fresh_page true nav key scripts)) es
         = Some s0 ->
         WebSpec.injections s0 = 0).
Proof.
  intros R. pose proof (WebFacts.reachable_invariant s R) as I.
  split; [now apply WebFacts.injections_at_most_one|]. split.
  - intros el s' Hl Hstep.
    apply (WebFacts.unmount_removes_script s el s' I); [|exact Hstep].
    now apply WebFacts.own_script_loading_cleanup.
  - intros p nav key scripts es s0.
    apply WebFacts.no_injection_when_loaded.
Qed.

Lemma C7_witness :
  WebSpec.injections
    (Examples.web_after
       [Web.PositionReceived Examples.reading_1; Web.ScriptLoaded;
        Web.PropsChanged Examples.hidden; Web.PropsChanged Examples.shown])
  <= 1.
Proof.
  refine (proj1 (C7_script_injected_at_most_once _ _)).
  exists Examples.no_props, false, Web.NavigatorWithGeolocation, "", [],
    [Web.PositionReceived Examples.reading_1; Web.ScriptLoaded;
     Web.PropsChanged Examples.hidden; Web.PropsChanged Examples.shown].
  vm_compute. reflexivity.
Defined.

(** Claim C7 as stated fails: with the provider's script element already
    in the page, put there by another consumer and still loading, the
    component injects a second one. *)
Lemma C7_counterexample :
  ~ (forall p google nav key scripts,
        WebSpec.provider_script_present
          (Web.fresh_page google nav key scripts) = true ->
        WebSpec.injections
          (Web.mount p (Web.fresh_page google nav key scripts)) = 0).
Proof.
  intros H.
  specialize (H Examples.no_props false Web.NavigatorWithGeolocation ""
                [Examples.foreign_script]).
  assert (Hp : WebSpec.provider_script_present
                 (Web.fresh_page false Web.NavigatorWithGeolocation ""
                    [Examples.foreign_script]) = true)
    by (vm_compute; reflexivity).
  specialize (H Hp). vm_compute in H. discriminate H.
Qed.

(** Claim C8.  On the web the map is centered by precedence: on the
    coordinates of the position reading if there is one, else on the
    caller-supplied [initialRegion] if present, else on the default
    region.  This is the center of the region computed at every render; of
    the map on display, the one [googleMapRef] points to, in every state in
    which there is one, after the mount and before and after every step;
    and of every map object built, at the mount or in a later step. *)
Theorem C8_center_by_precedence
    (s : Web.State) (e : Web.Event) (s' : Web.State) :
  WebSpec.reachable s -> Web.step s e = Some s' ->
  (forall p h,
      WebSpec.center_of (Web.mapRegion p h)
      = WebSpec.spec_center p (Web.position h))
  /\ WebSpec.centered_by_precedence s
  /\ WebSpec.centered_by_precedence s'
  /\ (exists new,
         Web.maps (Web.page s') = Web.maps (Web.page s) ++ new
         /\ Forall (fun m => Web.map_center m
                             = WebSpec.spec_center (Web.props s')
                                 (Web.position (Web.hooks s'))) new)
  /\ (forall p google nav key scripts,
         WebSpec.centered_by_precedence
           (Web.mount p (Web.fresh_page google nav key scripts))
         /\ Forall (fun m => Web.map_center m = WebSpec.spec_center p None)
              (Web.maps
                 (Web.page
                    (Web.mount p (Web.fresh_page google nav key scripts))))).
Proof.
  intros R Hstep. pose proof (WebFacts.reachable_invariant s R) as I.
  assert (Hc : forall t, WebSpec.map_follows_region t ->
                         WebSpec.centered_by_precedence t).
  { intros t F He Hl. destruct (F He Hl) as (m & Hm & Hlat & Hlng & _).
    exists m. split; [exact Hm|].
    rewrite <- (WebFacts.center_of_mapRegion (Web.props t) (Web.hooks t)).
    now split. }
  pose proof (WebOrphan.reachable_map_follows_region s R) as F.
  split; [exact WebFacts.center_of_mapRegion|].
  split; [now apply Hc|].
  split; [apply Hc; now apply (WebMaps.step_map_follows_region s e s')|].
  split.
  - destruct (WebFacts.step_maps s e s' I Hstep) as (built & Hm & _).
    eexists. split; [exact Hm|].
    destruct built; constructor; [|constructor].
    apply WebFacts.center_of_mapRegion.
  - intros p google nav key scripts. split.
    + apply Hc. apply WebMaps.mount_map_follows_region.
    + destruct (WebMount.mount_summary p google nav key scripts)
        as (_ & _ & built & ->).
      destruct built; constructor; [reflexivity | constructor].
Qed.

Lemma C8_witness :
  exists m,
    WebSpec.current_map
      (Examples.web_after
         [Web.ScriptLoaded; Web.PositionReceived Examples.reading_1])
    = Some m
    /\ same_number (lat (Web.map_center m))
         (Web.coords_latitude Examples.reading_1) = true
    /\ same_number (lng (Web.map_center m))
         (Web.coords_longitude Examples.reading_1) = true.
Proof.
  destruct (C8_center_by_precedence
              (Examples.web_after [Web.ScriptLoaded])
              (Web.PositionReceived Examples.reading_1)
              (Examples.web_after
                 [Web.ScriptLoaded; Web.PositionReceived Examples.reading_1]))
    as (_ & _ & H & _).
  - exists Examples.no_props, false, Web.NavigatorWithGeolocation, "", [],
      [Web.ScriptLoaded]. vm_compute. reflexivity.
  - vm_compute. reflexivity.
  - apply H; vm_compute; reflexivity.
Defined.

(** Claim C9.  [PlatformMap] accepts [initialRegion] and [showUserLocation]
    and forwards neither: whatever props the screen is given, the [Maps] it
    mounts is the one mounted with no props at all, so location display is
    on and the region is the default one. *)
Theorem C9_platform_map_forwards_no_props (p : Screen.PlatformMapProps) :
  Screen.maps_mounted 8 (Screen.PlatformMap p) = [Screen.no_props]
  /\ (forall pg,
         Screen.mount_web (Screen.PlatformMap p) pg
         = [Web.mount Screen.no_props pg])
  /\ (forall d,
         Screen.mount_native (Screen.PlatformMap p) d
         = [Native.mount Screen.no_props d])
  /\ Screen.maps_mounted 8 Screen.HomeScreen = [Screen.no_props]
  /\ showUserLocation_or_default Screen.no_props = true
  /\ (forall h, Web.position h = None ->
                Web.mapRegion Screen.no_props h = defaultRegion)
  /\ (forall d, Native.region (Native.mount Screen.no_props d)
                = defaultRegion).
Proof.
  repeat split.
  intros h Hh. unfold Web.mapRegion. now rewrite Hh.
Qed.

(** Claim C10 (as amended).  In both implementations [showUserLocation] is
    [true] when it is omitted.  While it is [false] the location effect
    starts nothing: a step that ends with the flag [false] issues no
    permission request (native) and no position query (web), and on the
    web it makes no marker and leaves none on a map.  When the flag is
    [false] at the mount and in every later props, the component issues no
    permission request and no position query at all, never records a
    message of the location path (on the web the only message it can hold
    is that of the script), and builds no user-location marker.  A request
    started while the flag was [true] is not given up when the flag is
    turned off: what its outcome does then is not part of this claim. *)
Theorem C10_location_display_off
    (p : MapProps) (wes : list Web.Event) (nes : list Native.Event) :
  showUserLocation_or_default p = false ->
  Forall WebSpec.keeps_location_off wes ->
  Forall NativeSpec.keeps_location_off nes ->
  (forall q, showUserLocation q = None ->
             showUserLocation_or_default q = true)
  /\ (forall google nav key scripts s,
         Web.run (Web.mount p (Web.fresh_page google nav key scripts)) wes
         = Some s ->
         WebSpec.position_requests s = 0
         /\ Web.geo_pending (Web.page s) = 0
         /\ (Web.errorMsg (Web.hooks s) = None
             \/ Web.errorMsg (Web.hooks s) = Some "Failed to load Google Maps")
         /\ Web.markers (Web.page s) = []
         /\ Web.userMarkerRef (Web.refs s) = None)
  /\ (forall os s,
         Native.run (Native.mount p (Native.fresh_device os)) nes = Some s ->
         Native.calls (Native.device s) = []
         /\ Native.errorMsg s = None
         /\ Native.location s = None
         /\ count_elements is_marker (Native.render s) = 0)
  /\ (forall s e s',
         WebSpec.reachable s -> Web.step s e = Some s' ->
         showUserLocation_or_default (Web.props s') = false ->
         WebSpec.position_requests s' = WebSpec.position_requests s
         /\ length (Web.markers (Web.page s'))
            = length (Web.markers (Web.page s))
         /\ Web.userMarkerRef (Web.refs s') = None
         /\ WebSpec.attached_markers s' = [])
  /\ (forall s e s',
         NativeSpec.reachable s -> Native.step s e = Some s' ->
         showUserLocation_or_default (Native.props s') = false ->
         NativeSpec.permission_requests s'
         = NativeSpec.permission_requests s).
Proof.
  intros Hp Hw Hn. split; [|split; [|split; [|split]]].
  - intros q Hq. unfold showUserLocation_or_default. now rewrite Hq.
  - intros google nav key scripts s Hrun.
    pose proof (WebFacts.mount_invariant p google nav key scripts) as I0.
    pose proof (WebFacts.mount_location_untouched p google nav key scripts Hp)
      as L0.
    destruct (WebFacts.run_location_untouched wes _ s I0 L0 Hw Hrun)
      as [L1 L2 L3 L4 L5 L6 L7].
    auto.
  - intros os s Hrun.
    pose proof (NativeFacts.native_mount_location_untouched p os Hp) as L0.
    destruct (NativeFacts.native_run_location_untouched nes _ s L0 Hn Hrun)
      as [L1 L2 L3 L4 L5 L6 L7].
    repeat split; auto.
    unfold Native.render. rewrite L7, L6. reflexivity.
  - intros s e s' R Hs Hoff.
    apply (WebHidden.step_hidden s e s'); auto.
    now apply WebFacts.reachable_invariant.
  - intros s e s' R Hs Hoff.
    now apply (NativeHidden.native_step_hidden s e s').
Qed.

Lemma C10_witness :
  Web.markers
    (Web.page
       (Examples.web_hidden_after
          [Web.ScriptLoaded; Web.PropsChanged Examples.hidden])) = [].
Proof.
  destruct (C10_location_display_off Examples.hidden
              [Web.ScriptLoaded; Web.PropsChanged Examples.hidden]
              [Native.PropsChanged Examples.hidden])
    as (_ & H & _).
  - reflexivity.
  - repeat constructor.
  - repeat constructor.
  - refine (proj1 (proj2 (proj2 (proj2
              (H false Web.NavigatorWithGeolocation "" []
                 (Examples.web_hidden_after
                    [Web.ScriptLoaded; Web.PropsChanged Examples.hidden])
                 _))))).
    vm_compute. reflexivity.
Defined.

(** Claim C10 as stated fails: a request started while the flag was [true]
    goes on after the flag is turned off.  On native, with the flag turned
    off before the permission is answered, the grant makes the component
    query the position while the flag is [false]; on the web, with the flag
    turned off before the browser answers, its failure records the message
    of the location path while the flag is [false]. *)
Lemma C10_counterexample :
  ~ (forall s e s',
        NativeSpec.reachable s -> Native.step s e = Some s' ->
        showUserLocation_or_default (Native.props s) = false ->
        showUserLocation_or_default (Native.props s') = false ->
        NativeSpec.position_queries s' = NativeSpec.position_queries s)
  /\ ~ (forall s e s',
           WebSpec.reachable s -> Web.step s e = Some s' ->
           showUserLocation_or_default (Web.props s) = false ->
           showUserLocation_or_default (Web.props s') = false ->
           Web.errorMsg (Web.hooks s') = Web.errorMsg (Web.hooks s)).
Proof.
  split; intros H.
  - specialize (H (Examples.native_after [Native.PropsChanged Examples.hidden])
                  (Native.PermissionAnswered Native.granted)
                  (Examples.native_after
                     [Native.PropsChanged Examples.hidden;
                      Native.PermissionAnswered Native.granted])).
    assert (Hq : NativeSpec.position_queries
                   (Examples.native_after
                      [Native.PropsChanged Examples.hidden;
                       Native.PermissionAnswered Native.granted])
                 = NativeSpec.position_queries
                     (Examples.native_after
                        [Native.PropsChanged Examples.hidden])).
    { apply H;
        [exists Examples.no_props, ios, [Native.PropsChanged Examples.hidden]
        | ..]; vm_compute; reflexivity. }
    vm_compute in Hq. discriminate Hq.
  - specialize (H (Examples.web_after [Web.PropsChanged Examples.hidden])
                  (Web.PositionFailed "denied")
                  (Examples.web_after
                     [Web.PropsChanged Examples.hidden;
                      Web.PositionFailed "denied"])).
    assert (Hq : Web.errorMsg
                   (Web.hooks
                      (Examples.web_after
                         [Web.PropsChanged Examples.hidden;
                          Web.PositionFailed "denied"]))
                 = Web.errorMsg
                     (Web.hooks
                        (Examples.web_after
                           [Web.PropsChanged Examples.hidden]))).
    { apply H;
        [exists Examples.no_props, false, Web.NavigatorWithGeolocation, "",
           [], [Web.PropsChanged Examples.hidden]
        | ..]; vm_compute; reflexivity. }
    vm_compute in Hq. discriminate Hq.
Qed.

(** * Further properties of the web implementation *)

(** X1 (web [Maps], the state updates of its effects and handlers): after
    every event the component comes to rest.  No state update is left
    queued, so the limit on nested updates is never reached; the
    dependencies React holds are those of the last render; and the event
    took one commit after its handler, at most two when the props
    changed. *)
Theorem web_component_comes_to_rest (s : Web.State) (e : Web.Event)
    (s' : Web.State) :
  WebSpec.reachable s -> Web.step s e = Some s' ->
  Web.queue (Web.fiber s') = []
  /\ WebSpec.deps_settled s'
  /\ Web.step s e = WebSpec.next s e.
Proof.
  intros R Hs. pose proof (WebFacts.reachable_invariant s R) as I.
  destruct (WebFacts.step_invariant s e s' I Hs) as [Q C].
  split; [exact Q|]. split; [apply (WebSpec.cons_deps s' C)|].
  now apply WebFacts.step_next.
Qed.

Lemma web_component_comes_to_rest_witness :
  Web.queue
    (Web.fiber
       (Examples.web_after
          [Web.ScriptLoaded; Web.PositionReceived Examples.reading_1])) = [].
Proof.
  refine (proj1 (web_component_comes_to_rest
                   (Examples.web_after [Web.ScriptLoaded])
                   (Web.PositionReceived Examples.reading_1) _ _ _)).
  - exists Examples.no_props, false, Web.NavigatorWithGeolocation, "", [],
      [Web.ScriptLoaded].
    vm_compute. reflexivity.
  - vm_compute. reflexivity.
Defined.

(** X2 (web [Maps], [setPosition], [setErrorMsg], [setMapLoaded]): nothing
    the component has learnt is ever taken back.  A reading, an error
    message and the fact that the provider is loaded stay for good, and
    once there is an error message the container of the map is never
    rendered again. *)
Theorem web_state_is_never_cleared (s : Web.State) (e : Web.Event)
    (s' : Web.State) :
  WebSpec.reachable s -> Web.step s e = Some s' ->
  (Web.position (Web.hooks s) <> None ->
   Web.position (Web.hooks s') <> None)
  /\ (Web.errorMsg (Web.hooks s) <> None ->
      Web.errorMsg (Web.hooks s') <> None)
  /\ (Web.mapLoaded (Web.hooks s) = true ->
      Web.mapLoaded (Web.hooks s') = true)
  /\ (Web.errorMsg (Web.hooks s) <> None ->
      Web.mapRef (Web.refs s') = false).
Proof.
  intros R Hs. apply (WebMore.step_never_clears s e s'); [|exact Hs].
  now apply WebFacts.reachable_invariant.
Qed.

Lemma web_state_is_never_cleared_witness :
  Web.errorMsg
    (Web.hooks
       (Examples.web_after [Web.PositionFailed "denied"; Web.ScriptLoaded]))
  <> None.
Proof.
  refine (proj1 (proj2 (web_state_is_never_cleared
                          (Examples.web_after [Web.PositionFailed "denied"])
                          Web.ScriptLoaded _ _ _)) _).
  - exists Examples.no_props, false, Web.NavigatorWithGeolocation, "", [],
      [Web.PositionFailed "denied"].
    vm_compute. reflexivity.
  - vm_compute. reflexivity.
  - vm_compute. discriminate.
Defined.

(** X3 (web [Maps], the effect that builds the map): once there is an
    error message no map is built any more, whatever happens next; the
    maps of the page and the map the component refers to stay as they
    are. *)
Theorem web_no_map_is_built_after_an_error (s : Web.State) (e : Web.Event)
    (s' : Web.State) :
  WebSpec.reachable s -> Web.step s e = Some s' ->
  Web.errorMsg (Web.hooks s) <> None ->
  Web.maps (Web.page s') = Web.maps (Web.page s)
  /\ Web.googleMapRef (Web.refs s') = Web.googleMapRef (Web.refs s).
Proof.
  intros R Hs He. apply (WebMore.step_no_map_after_error s e s'); auto.
  now apply WebFacts.reachable_invariant.
Qed.

Lemma web_no_map_is_built_after_an_error_witness :
  Web.maps
    (Web.page
       (Examples.web_after [Web.PositionFailed "denied"; Web.ScriptLoaded]))
  = Web.maps (Web.page (Examples.web_after [Web.PositionFailed "denied"])).
Proof.
  refine (proj1 (web_no_map_is_built_after_an_error
                   (Examples.web_after [Web.PositionFailed "denied"])
                   Web.ScriptLoaded _ _ _ _)).
  - exists Examples.no_props, false, Web.NavigatorWithGeolocation, "", [],
      [Web.PositionFailed "denied"].
    vm_compute. reflexivity.
  - vm_compute. reflexivity.
  - vm_compute. discriminate.
Defined.

(** X4 (web [Maps], [mapRegion] and the effect that builds the map):
    whenever the provider is loaded and there is no error message, the
    component refers to a map, and that map was built for the current
    region: centered on it and zoomed for its latitude span.  With a
    reading the map is centered on the reading and zoomed for the span
    0.0922, whatever span [initialRegion] asked for. *)
Theorem web_map_on_display_is_that_of_the_region (s : Web.State) :
  WebSpec.reachable s ->
  WebSpec.map_follows_region s
  /\ (forall pos,
         Web.position (Web.hooks s) = Some pos ->
         Web.errorMsg (Web.hooks s) = None ->
         Web.mapLoaded (Web.hooks s) = true ->
         exists m,
           WebSpec.current_map s = Some m
           /\ same_number (lat (Web.map_center m))
                (Web.coords_latitude pos) = true
           /\ same_number (lng (Web.map_center m))
                (Web.coords_longitude pos) = true
           /\ Web.map_zoom m = zoom 0.0922).
Proof.
  intros R. pose proof (WebOrphan.reachable_map_follows_region s R) as F.
  split; [exact F|]. intros pos Hp He Hl.
  destruct (F He Hl) as (m & Hm & Hlat & Hlng & d & Hd & Hz).
  unfold Web.mapRegion in Hlat, Hlng, Hd. rewrite Hp in Hlat, Hlng, Hd.
  cbn [latitude longitude latitudeDelta] in Hlat, Hlng, Hd.
  exists m. repeat split; auto.
  rewrite Hz. now apply WebOrphan.zoom_same.
Qed.

Lemma web_map_on_display_is_that_of_the_region_witness :
  exists m,
    WebSpec.current_map
      (Examples.web_after
         [Web.ScriptLoaded; Web.PositionReceived Examples.reading_1])
    = Some m
    /\ Web.map_zoom m = zoom 0.0922.
Proof.
  assert (R : WebSpec.reachable
                (Examples.web_after
                   [Web.ScriptLoaded;
                    Web.PositionReceived Examples.reading_1])).
  { exists Examples.no_props, false, Web.NavigatorWithGeolocation, "", [],
      [Web.ScriptLoaded; Web.PositionReceived Examples.reading_1].
    vm_compute. reflexivity. }
  destruct (proj2 (web_map_on_display_is_that_of_the_region _ R)
              Examples.reading_1)
    as (m & Hm & _ & _ & Hz).
  - vm_compute. reflexivity.
  - vm_compute. reflexivity.
  - vm_compute. reflexivity.
  - exists m. now split.
Defined.

(** X5 (web [Maps], the location effect): the browser is asked for the
    position once at the mount, when location display is on and the
    browser can locate, and afterwards once each time location display is
    turned on, and at no other moment. *)
Theorem web_position_asked_once_per_turn_on (p : MapProps) (google : bool)
    (nav : Web.Navigator) (key : string) (scripts : list Web.ScriptElement)
    (es : list Web.Event) (s : Web.State) (e : Web.Event) (s' : Web.State) :
  Web.run (Web.mount p (Web.fresh_page google nav key scripts)) es = Some s ->
  Web.step s e = Some s' ->
  WebSpec.position_requests
    (Web.mount p (Web.fresh_page google nav key scripts))
  = (if WebSpec.asks_position p nav then 1 else 0)
  /\ WebSpec.position_requests s'
     = WebSpec.position_requests s
       + (if WebSpec.turns_location_on s e then 1 else 0).
Proof.
  intros Hr Hs. split; [apply WebHandles.mount_requests|].
  apply WebHandles.step_requests; [|exact Hs].
  apply (WebFacts.run_invariant es _ s (WebFacts.mount_invariant _ _ _ _ _) Hr).
Qed.

Lemma web_position_asked_once_per_turn_on_witness :
  WebSpec.position_requests
    (Examples.web_hidden_after
       [Web.ScriptLoaded; Web.PropsChanged Examples.shown])
  = WebSpec.position_requests (Examples.web_hidden_after [Web.ScriptLoaded])
    + 1.
Proof.
  refine (proj2 (web_position_asked_once_per_turn_on Examples.hidden false
                   Web.NavigatorWithGeolocation "" [] [Web.ScriptLoaded]
                   (Examples.web_hidden_after [Web.ScriptLoaded])
                   (Web.PropsChanged Examples.shown) _ _ _));
    vm_compute; reflexivity.
Defined.

(** X6 (web [Maps], the cleanup of the script effect): unmounting gives
    the document head back as the component found it.  Whatever happened
    while it was mounted, the scripts of the head after the unmount are
    those that were there before the mount. *)
Theorem web_unmount_restores_the_head (p : MapProps) (google : bool)
    (nav : Web.Navigator) (key : string) (scripts : list Web.ScriptElement)
    (es : list Web.Event) (s s' : Web.State) :
  Web.run (Web.mount p (Web.fresh_page google nav key scripts)) es = Some s ->
  Web.step s Web.Unmounted = Some s' ->
  Web.head (Web.page s') = scripts.
Proof. apply WebHead.unmount_restores_head. Qed.

Lemma web_unmount_restores_the_head_witness :
  Web.head
    (Web.page
       (Examples.web_after
          [Web.ScriptLoaded; Web.PositionReceived Examples.reading_1;
           Web.Unmounted])) = [].
Proof.
  refine (web_unmount_restores_the_head Examples.no_props false
            Web.NavigatorWithGeolocation "" []
            [Web.ScriptLoaded; Web.PositionReceived Examples.reading_1]
            (Examples.web_after
               [Web.ScriptLoaded; Web.PositionReceived Examples.reading_1])
            _ _ _);
    vm_compute; reflexivity.
Defined.

(** X7 (web [Maps], [googleMapRef] and [userMarkerRef]): the component
    never refers to a map or puts a marker on a map that does not exist.
    The map it refers to is the newest map it built, and every marker
    that is on a map is on one of the maps it built. *)
Theorem web_handles_are_valid (s : Web.State) :
  WebSpec.reachable s -> WebSpec.handles_valid s.
Proof. apply WebOrphan.reachable_handles_valid. Qed.

Lemma web_handles_are_valid_witness :
  WebSpec.handles_valid
    (Examples.web_after
       [Web.ScriptLoaded; Web.PositionReceived Examples.reading_1]).
Proof.
  apply web_handles_are_valid.
  exists Examples.no_props, false, Web.NavigatorWithGeolocation, "", [],
    [Web.ScriptLoaded; Web.PositionReceived Examples.reading_1].
  vm_compute. reflexivity.
Defined.

(** X8 (web [Maps], the marker effect after the map effect): when a new
    reading with other coordinates arrives while the marker exists, the
    map is built anew and the marker is only moved with [setPosition]: it
    stays on the map it was on, which is no longer the map the component
    refers to. *)
Theorem web_marker_stays_on_the_replaced_map (s : Web.State)
    (old pos : Web.GeolocationPosition) (s' : Web.State)
    (m : Web.GoogleMarker) (g : nat) :
  WebSpec.reachable s ->
  Web.position (Web.hooks s) = Some old -> WebSpec.moved old pos = true ->
  Web.mapLoaded (Web.hooks s) = true -> Web.errorMsg (Web.hooks s) = None ->
  WebSpec.user_marker s = Some m -> Web.marker_map m = Some g ->
  Web.step s (Web.PositionReceived pos) = Some s' ->
  exists g' m',
    Web.googleMapRef (Web.refs s') = Some g' /\ g < g'
    /\ WebSpec.user_marker s' = Some m'
    /\ Web.marker_position m' = WebSpec.latlng_of pos
    /\ Web.marker_map m' = Some g.
Proof.
  intros R Ho Hm Hl He Hu Hg Hs.
  pose proof (WebFacts.reachable_invariant s R) as I.
  pose proof (WebOrphan.moved_deps s old pos s' I Ho Hm Hl Hs) as Hd.
  destruct (WebFacts.reading_rebuilds_map s pos s' I Hs Hl He Hd)
    as [_ Href].
  unfold WebSpec.user_marker in Hu.
  destruct (Web.userMarkerRef (Web.refs s)) as [i|] eqn:Hi; [|discriminate].
  destruct (WebFacts.reading_moves_marker s pos s' i I Hi Hs) as [Hi' Hms].
  exists (length (Web.maps (Web.page s))),
    (Web.setPosition (WebSpec.latlng_of pos) m).
  split; [exact Href|]. split.
  - apply (WebSpec.hv_markers s (WebOrphan.reachable_handles_valid s R) m g);
      [|exact Hg].
    now apply nth_error_In with i.
  - unfold WebSpec.user_marker. rewrite Hi', Hms.
    split; [now apply WebOrphan.nth_error_update_nth|].
    split; [reflexivity | exact Hg].
Qed.

Lemma web_marker_stays_on_the_replaced_map_witness :
  exists g' m',
    Web.googleMapRef
      (Web.refs
         (Examples.web_after
            [Web.ScriptLoaded; Web.PositionReceived Examples.reading_1;
             Web.PropsChanged Examples.hidden;
             Web.PropsChanged Examples.shown;
             Web.PositionReceived Examples.reading_2])) = Some g'
    /\ 1 < g'
    /\ WebSpec.user_marker
         (Examples.web_after
            [Web.ScriptLoaded; Web.PositionReceived Examples.reading_1;
             Web.PropsChanged Examples.hidden;
             Web.PropsChanged Examples.shown;
             Web.PositionReceived Examples.reading_2]) = Some m'
    /\ Web.marker_position m' = WebSpec.latlng_of Examples.reading_2
    /\ Web.marker_map m' = Some 1.
Proof.
  refine (web_marker_stays_on_the_replaced_map
            (Examples.web_after
               [Web.ScriptLoaded; Web.PositionReceived Examples.reading_1;
                Web.PropsChanged Examples.hidden;
                Web.PropsChanged Examples.shown])
            Examples.reading_1 Examples.reading_2 _
            {| Web.marker_position := WebSpec.latlng_of Examples.reading_1;
               Web.marker_map := Some 1;
               Web.marker_title := "You are here";
               Web.marker_click_listener := true |}
            1 _ _ _ _ _ _ _ _).
  - exists Examples.no_props, false, Web.NavigatorWithGeolocation, "", [],
      [Web.ScriptLoaded; Web.PositionReceived Examples.reading_1;
       Web.PropsChanged Examples.hidden; Web.PropsChanged Examples.shown].
    vm_compute. reflexivity.
  - vm_compute. reflexivity.
  - vm_compute. reflexivity.
  - vm_compute. reflexivity.
  - vm_compute. reflexivity.
  - vm_compute. reflexivity.
  - reflexivity.
  - vm_compute. reflexivity.
Defined.

(** X16 (web [Maps], the removal branch of the marker effect): no state
    has two markers on a map, and turning [showUserLocation] off when a
    marker exists takes that marker off its map with [setMap(null)] and
    releases the handle. *)
Theorem web_hiding_removes_the_marker (s : Web.State) :
  WebSpec.reachable s ->
  length (WebSpec.attached_markers s) <= 1
  /\ (forall i p s',
         Web.userMarkerRef (Web.refs s) = Some i ->
         showUserLocation_or_default p = false ->
         Web.step s (Web.PropsChanged p) = Some s' ->
         Web.userMarkerRef (Web.refs s') = None
         /\ WebSpec.attached_markers s' = []
         /\ exists m, nth_error (Web.markers (Web.page s')) i = Some m
                      /\ Web.marker_map m = None).
Proof.
  intros R. pose proof (WebFacts.reachable_invariant s R) as I.
  split; [now apply WebFacts.at_most_one_marker|].
  intros i p s' Hu Hp Hstep.
  pose proof (WebFacts.step_invariant s _ s' I Hstep) as I'.
  pose proof (WebFacts.step_props s _ s' I Hstep) as Hprops. cbn in Hprops.
  destruct (WebFacts.no_marker_when_hidden s' I') as [H1 H2];
    [now rewrite Hprops|].
  split; [exact H1|]. split; [exact H2|].
  destruct (WebHidden.hide_removes_marker s p s' i I Hu Hp Hstep)
    as (m & _ & _ & Hn).
  exists (Web.setMap_null m). now split.
Qed.

Lemma web_hiding_removes_the_marker_witness :
  WebSpec.attached_markers
    (Examples.web_after
       [Web.ScriptLoaded; Web.PositionReceived Examples.reading_1;
        Web.PropsChanged Examples.hidden]) = [].
Proof.
  destruct (web_hiding_removes_the_marker
              (Examples.web_after
                 [Web.ScriptLoaded; Web.PositionReceived Examples.reading_1]))
    as (_ & H).
  - exists Examples.no_props, false, Web.NavigatorWithGeolocation, "", [],
      [Web.ScriptLoaded; Web.PositionReceived Examples.reading_1].
    vm_compute. reflexivity.
  - refine (proj1 (proj2 (H 0 Examples.hidden _ _ _ _)));
      vm_compute; reflexivity.
Defined.

(** * Further properties of the native implementation *)

(** X10 (native [Maps], the location effect): the device is asked for the
    position only after a permission request was answered, so never more
    often than for the permission; every reading held or awaited comes
    from such a query; and every query carries the options of the
    platform, the balanced accuracy on iOS and none on Android. *)
Theorem native_calls_are_accounted_for (s : Native.State) :
  NativeSpec.reachable s -> NativeSpec.accounted s.
Proof. apply NativeMore.reachable_accounted. Qed.

Lemma native_calls_are_accounted_for_witness :
  NativeSpec.accounted
    (Examples.native_after
       [Native.PermissionAnswered Native.granted;
        Native.PositionResolved Examples.native_reading]).
Proof.
  apply native_calls_are_accounted_for.
  exists Examples.no_props, ios,
    [Native.PermissionAnswered Native.granted;
     Native.PositionResolved Examples.native_reading].
  vm_compute. reflexivity.
Defined.

(** X11 (native [Maps], the dependency of the location effect): the
    permission is requested once at the mount when location display is
    on, and afterwards once each time location display is turned on, and
    at no other moment. *)
Theorem native_permission_asked_once_per_turn_on (p : MapProps)
    (os : Platform) (es : list Native.Event) (s : Native.State)
    (e : Native.Event) (s' : Native.State) :
  Native.run (Native.mount p (Native.fresh_device os)) es = Some s ->
  Native.step s e = Some s' ->
  NativeSpec.permission_requests (Native.mount p (Native.fresh_device os))
  = (if showUserLocation_or_default p then 1 else 0)
  /\ NativeSpec.permission_requests s'
     = NativeSpec.permission_requests s
       + (if NativeSpec.turns_location_on s e then 1 else 0).
Proof.
  intros Hr Hs. split.
  - unfold Native.mount, Native.location_effect,
      NativeSpec.permission_requests. cbn.
    destruct (showUserLocation_or_default p); reflexivity.
  - apply NativeSteps.step_permission_requests; [|exact Hs].
    apply NativeSteps.reachable_deps. now exists p, os, es.
Qed.

Lemma native_permission_asked_once_per_turn_on_witness :
  NativeSpec.permission_requests
    (Examples.native_after
       [Native.PropsChanged Examples.hidden;
        Native.PropsChanged Examples.shown])
  = NativeSpec.permission_requests
      (Examples.native_after [Native.PropsChanged Examples.hidden])
    + 1.
Proof.
  refine (proj2 (native_permission_asked_once_per_turn_on Examples.no_props
                   ios [Native.PropsChanged Examples.hidden]
                   (Examples.native_after
                      [Native.PropsChanged Examples.hidden])
                   (Native.PropsChanged Examples.shown) _ _ _));
    vm_compute; reflexivity.
Defined.

(** X12 (native [Maps], [setErrorMsg], [setLocation] and the render): an
    error is final.  Once the component holds an error message, whatever
    happens next it shows a message and no map; and a reading it holds is
    never dropped. *)
Theorem native_error_is_final (s : Native.State) (es : list Native.Event)
    (s' : Native.State) :
  NativeSpec.reachable s -> Native.run s es = Some s' ->
  (Native.errorMsg s <> None ->
   exists msg, Native.render s' = View [Text msg])
  /\ (Native.location s <> None -> Native.location s' <> None).
Proof.
  intros R Hr.
  destruct (NativeSteps.run_keeps es s s' Hr) as [Hl He].
  split; [|exact Hl]. intros H. specialize (He H).
  destruct (Native.errorMsg s') as [msg|] eqn:E; [|congruence].
  exists msg. apply NativeFacts.native_render_error; [|exact E].
  now apply (NativeSteps.run_reachable s es).
Qed.

Lemma native_error_is_final_witness :
  exists msg,
    Native.render
      (Examples.native_after
         [Native.PermissionAnswered Native.denied;
          Native.PropsChanged Examples.hidden;
          Native.PropsChanged Examples.shown;
          Native.PermissionAnswered Native.granted;
          Native.PositionResolved Examples.native_reading])
    = View [Text msg].
Proof.
  refine (proj1 (native_error_is_final
                   (Examples.native_after
                      [Native.PermissionAnswered Native.denied])
                   [Native.PropsChanged Examples.hidden;
                    Native.PropsChanged Examples.shown;
                    Native.PermissionAnswered Native.granted;
                    Native.PositionResolved Examples.native_reading]
                   _ _ _) _).
  - exists Examples.no_props, ios, [Native.PermissionAnswered Native.denied].
    vm_compute. reflexivity.
  - vm_compute. reflexivity.
  - vm_compute. discriminate.
Defined.

(** X13 (native [Maps], the marker in the render): the marker of the
    reading does not depend on [showUserLocation].  While there is no
    error message, a component that holds a reading shows its marker at
    the reading after any change of props, also after location display is
    turned off. *)
Theorem native_marker_outlives_the_flag (s : Native.State)
    (l : Native.LocationObject) (p : MapProps) (s' : Native.State) :
  Native.location s = Some l -> Native.errorMsg s = None ->
  Native.step s (Native.PropsChanged p) = Some s' ->
  NativeSpec.marker_coordinates (Native.render s')
  = [NativeSpec.latlng_of l]
  /\ count_elements is_marker (Native.render s') = 1.
Proof.
  intros Hl He Hs.
  destruct (NativeMore.props_changed_keeps s p s' Hs)
    as (Hl' & He' & _).
  rewrite Hl in Hl'. rewrite He in He'.
  destruct (NativeFacts.native_render_map s') as (mv & Hr & _).
  { rewrite He'. reflexivity. }
  rewrite Hr, Hl'. split; reflexivity.
Qed.

Lemma native_marker_outlives_the_flag_witness :
  NativeSpec.marker_coordinates
    (Native.render
       (Examples.native_after
          [Native.PermissionAnswered Native.granted;
           Native.PositionResolved Examples.native_reading;
           Native.PropsChanged Examples.hidden]))
  = [NativeSpec.latlng_of Examples.native_reading].
Proof.
  refine (proj1 (native_marker_outlives_the_flag
                   (Examples.native_after
                      [Native.PermissionAnswered Native.granted;
                       Native.PositionResolved Examples.native_reading])
                   Examples.native_reading Examples.hidden _ _ _ _));
    vm_compute; reflexivity.
Defined.

(** X14 (web [Maps], the branch of the location effect for a browser
    without geolocation): with location display on, in a browser whose
    navigator has no geolocation the component never builds a map.  It
    holds an error message from the mount on, whatever happens next. *)
Theorem web_no_map_without_geolocation (p : MapProps) (google : bool)
    (key : string) (scripts : list Web.ScriptElement)
    (es : list Web.Event) (s : Web.State) :
  showUserLocation_or_default p = true ->
  Web.run
    (Web.mount p
       (Web.fresh_page google Web.NavigatorWithoutGeolocation key scripts))
    es = Some s ->
  Web.errorMsg (Web.hooks s) <> None
  /\ Web.maps (Web.page s) = []
  /\ count_elements is_map_surface (Web.render s) = 0.
Proof.
  intros Hshow Hr.
  destruct (WebUnsupported.mount_unsupported p google key scripts Hshow)
    as [He Hm].
  destruct (WebUnsupported.run_after_error es _ s
              (WebFacts.mount_invariant _ _ _ _ _) He Hr) as [He' Hm'].
  split; [exact He'|]. split; [congruence|].
  assert (I : WebSpec.invariant s).
  { apply (WebFacts.run_invariant es _ s
             (WebFacts.mount_invariant _ _ _ _ _) Hr). }
  unfold Web.render.
  destruct (Web.errorMsg (Web.hooks s)) as [msg|] eqn:E; [|congruence].
  destruct I as [_ C].
  now rewrite (NativeFacts.truthy_nonempty msg
                 (WebSpec.cons_error s C msg E)).
Qed.

Lemma web_no_map_without_geolocation_witness :
  Web.maps
    (Web.page
       (Examples.web_unsupported_after
          [Web.PropsChanged Examples.hidden;
           Web.PropsChanged Examples.shown])) = [].
Proof.
  refine (proj1 (proj2 (web_no_map_without_geolocation Examples.shown true
                          "" []
                          [Web.PropsChanged Examples.hidden;
                           Web.PropsChanged Examples.shown] _ _ _)));
    vm_compute; reflexivity.
Defined.

(** X15 (web [Maps], [setMapLoaded]): after the mount only the load of
    its own script makes the component take the provider for loaded.  No
    other event changes that; in particular the provider becoming
    available by other means does not make it build a map. *)
Theorem web_loaded_only_by_own_script (s : Web.State) (e : Web.Event)
    (s' : Web.State) :
  WebSpec.reachable s -> Web.step s e = Some s' ->
  e <> Web.ScriptLoaded ->
  Web.mapLoaded (Web.hooks s') = Web.mapLoaded (Web.hooks s).
Proof.
  intros R Hs Hne. pose proof (WebFacts.reachable_invariant s R) as I.
  destruct (Web.mapLoaded (Web.hooks s)) eqn:Hl.
  - now destruct (WebMore.step_never_clears s e s' I Hs) as (_ & _ & H & _);
      apply H.
  - destruct (Web.mapLoaded (Web.hooks s')) eqn:Hl'; [|reflexivity].
    destruct Hne. now apply (WebUnsupported.step_loaded s e s').
Qed.

Lemma web_loaded_only_by_own_script_witness :
  Web.mapLoaded (Web.hooks (Examples.web_after [Web.ProviderAvailable]))
  = Web.mapLoaded (Web.hooks (Examples.web_after [])).
Proof.
  refine (web_loaded_only_by_own_script (Examples.web_after [])
            Web.ProviderAvailable _ _ _ _).
  - exists Examples.no_props, false, Web.NavigatorWithGeolocation, "", [],
      (@nil Web.Event).
    vm_compute. reflexivity.
  - vm_compute. reflexivity.
  - discriminate.
Defined.

